(** * Layr: attribute selectors, the component client and the wire format

    A shallow embedding of the serialization / remote-invocation core of
    Layr:

    - [AttributeSelector]: the selector algebra ([normalize], [fromNames],
      [get], [set], [includes], [isEqual], [add], [remove], [iterate]) of
      the component package, and [pick];
    - [ComponentClient]: [_serializeQuery] with its dependency closure and
      attribute filter, [_sendOne], [_sendMany], [send] and the method
      proxies;
    - [Serialization]: the wire format of component instances.

    JavaScript objects used as maps are finite maps ([gmap string _]) in the
    selector algebra, where only membership matters, and insertion-ordered
    association lists in the wire format. *)

From stdpp Require Import gmap strings list fin_maps finite pretty.
From Equations Require Import Equations.
From Stdlib Require Import Ascii.

#[local] Set Warnings "-clear-no-such-hyp".

(* ===================================================================== *)
(** ** AttributeSelector *)
(* ===================================================================== *)

Module AttributeSelector.

(** The values the selector functions accept: [undefined], a boolean, or a
    plain object whose properties are again such values.  Any other
    JavaScript value is rejected by [normalize] with an exception and is
    not represented. *)
#[warnings="-register-all"]
Inductive Selector : Type :=
| SUndefined
| SBool (b : bool)
| SObject (entries : gmap string Selector).

Inductive Error : Type :=
| ArgumentError (label : string)
| CannotRemoveObjectFromTrue.

Inductive Result (A : Type) : Type :=
| Ok (a : A)
| Throw (e : Error).
Arguments Ok {A} a.
Arguments Throw {A} e.

(** Exceptions propagate through sequencing: [x ← r; k] runs [k] on the
    value of [r] unless [r] threw. *)
#[global] Instance Result_bind : MBind Result := λ A B k r,
  match r with
  | Ok a => k a
  | Throw e => Throw e
  end.
#[global] Instance Result_ret : MRet Result := λ A a, Ok a.

(** [normalize]: [undefined] becomes [false]; booleans and plain objects
    pass through. *)
Definition normalize (attributeSelector : Selector) : Selector :=
  match attributeSelector with
  | SUndefined => SBool false
  | _ => attributeSelector
  end.

(** Property access [attributeSelector[name]]: the own property of that
    name, [undefined] when there is none.  A name every object inherits
    from [Object.prototype] would read the inherited member instead; the
    theorems on [add], [remove], [includes] and [pick] are about selectors
    without such names (see [own_names]), or read own properties only. *)
Definition prop (attributeSelector : Selector) (name : string) : Selector :=
  match attributeSelector with
  | SObject entries => default SUndefined (entries !! name)
  | _ => SUndefined
  end.

(** [ow(name, 'name', ow.string.nonEmpty)] *)
Definition ow_nonEmpty (name : string) : Result unit :=
  if decide (name = "") then Throw (ArgumentError "name") else Ok tt.

(** [get(attributeSelector, name)] *)
Definition get (attributeSelector : Selector) (name : string) : Result Selector :=
  ow_nonEmpty name;;
  match normalize attributeSelector with
  | SBool b => Ok (SBool b)
  | a => Ok (normalize (prop a name))
  end.

(** [set(attributeSelector, name, subattributeSelector)]: a boolean selector
    is returned as it is; a [false] sub-selector removes the key
    ([omit]); any other one is stored under [name].  Lodash's [omit] reads
    a name without path syntax (no [.], no [[]) as the key itself, which is
    how it is taken here; see [attribute_name]. *)
Definition set (attributeSelector : Selector) (name : string)
    (subattributeSelector : Selector) : Result Selector :=
  ow_nonEmpty name;;
  match normalize attributeSelector with
  | SObject entries =>
      match normalize subattributeSelector with
      | SBool false => Ok (SObject (delete name entries))
      | sub => Ok (SObject (<[name := sub]> entries))
      end
  | a => Ok a
  end.

(** [includes(attributeSelector, otherAttributeSelector)].  The test
    [attributeSelector === otherAttributeSelector] compares booleans by
    value; on two objects it is reference identity, which the structural
    loop below subsumes (see [includes_refl]). *)
Fixpoint includes (attributeSelector otherAttributeSelector : Selector)
    {struct otherAttributeSelector} : bool :=
  let a := normalize attributeSelector in
  match otherAttributeSelector with
  | SObject otherEntries =>
      match a with
      | SBool b => b
      | _ =>
          map_fold
            (λ name otherSub (continue : bool),
               if continue then includes (prop a name) otherSub else false)
            true otherEntries
      end
  | SBool other =>
      match a with
      | SBool b => if decide (b = other) then true else b
      | _ => negb other
      end
  | SUndefined =>
      match a with
      | SBool b => if decide (b = false) then true else b
      | _ => negb false
      end
  end.

(** [isEqual] *)
Definition isEqual (attributeSelector otherAttributeSelector : Selector) : bool :=
  includes attributeSelector otherAttributeSelector
  && includes otherAttributeSelector attributeSelector.

(** [add(attributeSelector, otherAttributeSelector)].  The loop visits
    every property of the other selector once, and the step for a name
    reads and writes the property of that name only; the order in which
    [Object.entries] lists them decides at most which of several failing
    steps throws first. *)
Fixpoint add (attributeSelector otherAttributeSelector : Selector)
    {struct otherAttributeSelector} : Result Selector :=
  let a := normalize attributeSelector in
  match a with
  | SBool true => Ok (SBool true)
  | SBool false => Ok (normalize otherAttributeSelector)
  | _ =>
      match otherAttributeSelector with
      | SBool true => Ok (SBool true)
      | SBool false | SUndefined => Ok a
      | SObject otherEntries =>
          map_fold
            (λ name otherSub (acc : Result Selector),
               cur ← acc;
               sub ← add (prop cur name) otherSub;
               set cur name sub)
            (Ok a) otherEntries
      end
  end.

(** [remove(attributeSelector, otherAttributeSelector)] *)
Fixpoint remove (attributeSelector otherAttributeSelector : Selector)
    {struct otherAttributeSelector} : Result Selector :=
  let a := normalize attributeSelector in
  match otherAttributeSelector with
  | SBool true => Ok (SBool false)
  | SBool false | SUndefined => Ok a
  | SObject otherEntries =>
      match a with
      | SBool true => Throw CannotRemoveObjectFromTrue
      | SBool false => Ok (SBool false)
      | _ =>
          map_fold
            (λ name otherSub (acc : Result Selector),
               cur ← acc;
               sub ← remove (prop cur name) otherSub;
               set cur name sub)
            (Ok a) otherEntries
      end
  end.

(** [fromNames(names)]: the object with every name set to [true]. *)
Definition fromNames (names : list string) : Selector :=
  SObject
    (foldl (λ attributeSelector name, <[name := SBool true]> attributeSelector)
       ∅ names).

(** [fromAttributes(attributes)], over attributes that answer [getName()]. *)
Definition fromAttributes {Attribute : Type} (getName : Attribute → string)
    (attributes : list Attribute) : Selector :=
  SObject
    (foldl (λ attributeSelector attribute,
              <[getName attribute := SBool true]> attributeSelector)
       ∅ attributes).

(** [iterate(attributeSelector)]: what the iterator yields, the properties
    whose normalized sub-selector is not [false], each with that normalized
    sub-selector.  [ow.object] rejects [undefined] and the booleans.  The
    consumers below write each pair under its own name, so the pairs are
    kept as a map. *)
Definition iterate (attributeSelector : Selector)
    : Result (gmap string Selector) :=
  match attributeSelector with
  | SObject entries =>
      Ok (omap (λ subattributeSelector,
                  match normalize subattributeSelector with
                  | SBool false => None
                  | normalizedSubattributeSelector =>
                      Some normalizedSubattributeSelector
                  end) entries)
  | _ => Throw (ArgumentError "attributeSelector")
  end.

(** The values attributes are picked from: [undefined], plain objects and
    arrays are told apart by [_pick]; every other value (a primitive, or
    [VOther]: a date, a function, an instance of a class) is picked as a
    whole or not at all. *)
#[warnings="-register-all"]
Inductive Value : Type :=
| VUndefined
| VNull
| VBool (b : bool)
| VNumber (n : Z)
| VString (s : string)
| VOther (type : string)
| VArray (items : list Value)
| VObject (properties : gmap string Value).

(** The exceptions of [pick]: a rejected argument, a [false] selector, and
    a value that is neither a plain object nor an array (the message of the
    last one names the type of the value). *)
Inductive PickError : Type :=
| PickArgumentError (label : string)
| CannotPickWithFalse
| CannotPickFrom.

Inductive Picked (A : Type) : Type :=
| Returns (a : A)
| Fails (e : PickError).
Arguments Returns {A} a.
Arguments Fails {A} e.

#[global] Instance Picked_bind : MBind Picked := λ A B k r,
  match r with
  | Returns a => k a
  | Fails e => Fails e
  end.
#[global] Instance Picked_ret : MRet Picked := λ A a, Returns a.

(** The options of [pick]: [{includeAttributeNames?}]. *)
Record PickOptions : Type := { includeAttributeNames : option (list string) }.

(** Property access [object[name]] on a value. *)
Definition value_prop (object : gmap string Value) (name : string) : Value :=
  default VUndefined (object !! name).

(** The first loop of [_pickFromObject]: the own properties of the object
    that [includeAttributeNames] lists, as they are.  The assignment
    [result[name] = object[name]] creates the property [name] of the
    result for every name but [__proto__], where it calls the prototype
    setter instead: the theorems on [pick] with [includeAttributeNames]
    leave that name out. *)
Definition included (object : gmap string Value)
    (includeAttributeNames : list string) : gmap string Value :=
  foldl (λ result name,
           match object !! name with
           | Some value => <[name := value]> result
           | None => result
           end) ∅ includeAttributeNames.

(** [_pick(value, attributeSelector, {includeAttributeNames})], with
    [_pickFromObject] and [_pickFromArray] in place: recursion descends
    into the sub-selectors for the properties of an object, and keeps the
    selector for the items of an array. *)
Fixpoint _pick (includeAttributeNames : list string)
    (attributeSelector : Selector) {struct attributeSelector}
    : Value → Picked Value :=
  fix _pick_value (value : Value) : Picked Value :=
    match attributeSelector with
    | SBool true => Returns value
    | _ =>
        match value with
        | VUndefined => Returns VUndefined
        | VObject object =>
            match attributeSelector with
            | SObject entries =>
                result ←
                  map_fold
                    (λ name subattributeSelector
                       (acc : Picked (gmap string Value)),
                       result ← acc;
                       match subattributeSelector with
                       | SUndefined | SBool false => Returns result
                       | _ =>
                           picked ← _pick includeAttributeNames
                                      subattributeSelector
                                      (value_prop object name);
                           Returns (<[name := picked]> result)
                       end)
                    (Returns (included object includeAttributeNames)) entries;
                Returns (VObject result)
            | _ => Fails (PickArgumentError "attributeSelector")
            end
        | VArray array =>
            items ← (fix _pickFromArray (array : list Value) :=
                       match array with
                       | [] => Returns []
                       | value :: rest =>
                           picked ← _pick_value value;
                           items ← _pickFromArray rest;
                           Returns (picked :: items)
                       end) array;
            Returns (VArray items)
        | _ => Fails CannotPickFrom
        end
    end.

(** [pick(value, attributeSelector, options)] *)
Definition pick (value : Value) (attributeSelector : Selector)
    (options : PickOptions) : Picked Value :=
  match normalize attributeSelector with
  | SBool false => Fails CannotPickWithFalse
  | attributeSelector =>
      _pick (default [] (includeAttributeNames options)) attributeSelector value
  end.

(** Size of a selector, the measure of the inductions below. *)
Fixpoint size (s : Selector) : nat :=
  match s with
  | SObject entries => S (map_fold (λ _ sub n, size sub + n) 0 entries)
  | _ => 1
  end.

(** An attribute name: a non-empty string without path syntax. *)
Definition attribute_name (name : string) : bool :=
  bool_decide (name ≠ "")
  && forallb (λ c, bool_decide (c ≠ "."%char ∧ c ≠ "["%char))
       (String.list_ascii_of_string name).

(** Every property name is an attribute name, at every depth. *)
Fixpoint valid (s : Selector) : bool :=
  match s with
  | SObject entries =>
      map_fold
        (λ name sub (ok : bool), ok && (attribute_name name && valid sub))
        true entries
  | _ => true
  end.

(** The names every object inherits from [Object.prototype]. *)
Definition Object_prototype : list string :=
  [ "constructor"; "hasOwnProperty"; "isPrototypeOf"; "propertyIsEnumerable";
    "toLocaleString"; "toString"; "valueOf"; "__proto__";
    "__defineGetter__"; "__defineSetter__";
    "__lookupGetter__"; "__lookupSetter__" ].

(** An own name: an attribute name that is not inherited, so that reading
    it from an object that lacks it gives [undefined], as [prop] and
    [value_prop] have it, and writing it creates a property. *)
Definition own_name (name : string) : bool :=
  attribute_name name && bool_decide (name ∉ Object_prototype).

(** Every property name is an own name, at every depth: every read
    [attributeSelector[name]] of the functions above is then the read of
    an own property or of a missing one, which is what [prop] gives. *)
Fixpoint own_names (s : Selector) : bool :=
  match s with
  | SObject entries =>
      map_fold (λ name sub (ok : bool), ok && (own_name name && own_names sub))
        true entries
  | _ => true
  end.

(** No leaf of the selector is [true]: it selects no attribute. *)
Fixpoint selects_nothing (s : Selector) : bool :=
  match s with
  | SBool b => negb b
  | SUndefined => true
  | SObject entries =>
      map_fold (λ _ sub (ok : bool), ok && selects_nothing sub) true entries
  end.

(** What is left of a selector once it is removed from itself: booleans
    and [undefined] leave [false]; an object keeps exactly its object-valued
    properties, each reduced in the same way. *)
Fixpoint residue (s : Selector) : Selector :=
  match s with
  | SObject entries =>
      SObject
        (omap (λ sub, match sub with
                      | SObject _ => Some (residue sub)
                      | _ => None
                      end) entries)
  | _ => SBool false
  end.

Definition is_object (s : Selector) : bool :=
  match s with SObject _ => true | _ => false end.

(** *** Folds over the properties of an object *)

Section folds.
Context {A : Type}.

Lemma fold_andb_true (f : string → A → bool) (m : gmap string A) :
  map_fold (λ k v (ok : bool), ok && f k v) true m = true
  ↔ ∀ k v, m !! k = Some v → f k v = true.
Proof.
  apply (map_fold_weak_ind
           (λ r m, r = true ↔ ∀ k v, m !! k = Some v → f k v = true)).
  - split; [|done]. intros _ k v. by rewrite lookup_empty.
  - intros i x m' r Hi [IH1 IH2]. rewrite andb_true_iff. split.
    + intros [Hall Hx] k v. pose proof (IH1 Hall) as Hall'.
      rewrite lookup_insert.
      case_decide; [naive_solver | by apply Hall'].
    + intros Hall. split.
      * apply IH2. intros k v Hk. apply Hall. rewrite lookup_insert_ne; [done|].
        intros ->. by rewrite Hi in Hk.
      * apply Hall. by rewrite lookup_insert_eq.
Qed.

Lemma fold_sum_bound (f : A → nat) (m : gmap string A) k v :
  m !! k = Some v → f v ≤ map_fold (λ _ x n, f x + n) 0 m.
Proof.
  revert k v.
  apply (map_fold_weak_ind (λ r m, ∀ k v, m !! k = Some v → f v ≤ r)).
  - intros k v. by rewrite lookup_empty.
  - intros i x m' r Hi IH k v. rewrite lookup_insert.
    case_decide; [intros [= ->]; lia | intros Hk; specialize (IH _ _ Hk); lia].
Qed.

End folds.

Lemma size_lookup entries name sub :
  entries !! name = Some sub → size sub < size (SObject entries).
Proof.
  intros Hk. simpl. pose proof (fold_sum_bound size entries name sub Hk). lia.
Qed.

(** Induction on the nesting of selectors. *)
Lemma Selector_nested_ind (P : Selector → Prop) :
  P SUndefined →
  (∀ b, P (SBool b)) →
  (∀ entries,
     (∀ name sub, entries !! name = Some sub → P sub) → P (SObject entries)) →
  ∀ s, P s.
Proof.
  intros Hu Hb Ho s.
  remember (size s) as n eqn:Hn. revert s Hn.
  induction n as [n IH] using lt_wf_ind. intros [| b | entries] ->; [done..|].
  apply Ho. intros name sub Hsub.
  by eapply IH; [eapply size_lookup|].
Qed.

(** *** Examples *)

Example includes_true_anything :
  includes (SBool true) (SObject {[ "title" := SBool true ]}) = true.
Proof. reflexivity. Qed.

Example includes_missing_key :
  includes (SObject {[ "title" := SBool true ]})
           (SObject {[ "title" := SBool true; "year" := SBool true ]}) = false.
Proof. reflexivity. Qed.

Example includes_false_empty_object :
  includes (SBool false) (SObject ∅) = false.
Proof. reflexivity. Qed.

Example add_nested :
  add (SObject {[ "title" := SBool true ]})
      (SObject {[ "director" := SObject {[ "name" := SBool true ]} ]})
  = Ok (SObject {[ "title" := SBool true;
                   "director" := SObject {[ "name" := SBool true ]} ]}).
Proof. reflexivity. Qed.

Example add_empty_name_throws :
  add (SObject ∅) (SObject {[ "" := SBool true ]})
  = Throw (ArgumentError "name").
Proof. reflexivity. Qed.

Example remove_object_from_true_throws :
  remove (SBool true) (SObject {[ "title" := SBool true ]})
  = Throw CannotRemoveObjectFromTrue.
Proof. reflexivity. Qed.

Example remove_nested_self :
  remove (SObject {[ "title" := SBool true;
                     "director" := SObject {[ "name" := SBool true ]} ]})
         (SObject {[ "title" := SBool true;
                     "director" := SObject {[ "name" := SBool true ]} ]})
  = Ok (SObject {[ "director" := SObject ∅ ]}).
Proof. reflexivity. Qed.

(** *** Basic facts *)

(** The sub-selector [set] stores: nothing for [false], the normalized
    value otherwise. *)
Definition kept (sub : Selector) : option Selector :=
  match normalize sub with
  | SBool false => None
  | s => Some s
  end.

Lemma normalize_idemp s : normalize (normalize s) = normalize s.
Proof. by destruct s. Qed.

Lemma includes_normalize_l a b : includes (normalize a) b = includes a b.
Proof. destruct b; simpl; by rewrite normalize_idemp. Qed.

Lemma includes_kept r x :
  includes (default SUndefined (kept r)) x = includes r x.
Proof.
  rewrite <- (includes_normalize_l r). unfold kept.
  destruct (normalize r) as [| [] |] eqn:Hr; simpl default; try done.
  by rewrite <- (includes_normalize_l SUndefined).
Qed.

Lemma includes_object_object entries otherEntries :
  includes (SObject entries) (SObject otherEntries) = true
  ↔ ∀ name otherSub, otherEntries !! name = Some otherSub →
      includes (default SUndefined (entries !! name)) otherSub = true.
Proof.
  apply (fold_andb_true
           (λ name otherSub, includes (prop (SObject entries) name) otherSub)).
Qed.

Lemma includes_refl s : includes s s = true.
Proof.
  induction s as [| [] | entries IH] using Selector_nested_ind; [done..|].
  apply includes_object_object. intros name sub Hsub.
  rewrite Hsub. by eapply IH.
Qed.

Lemma valid_object entries :
  valid (SObject entries) = true →
  ∀ name sub, entries !! name = Some sub → name ≠ "" ∧ valid sub = true.
Proof.
  intros Hv name sub Hsub.
  pose proof (proj1 (fold_andb_true
                       (λ name sub, attribute_name name && valid sub) entries)
                Hv name sub Hsub) as Hstep.
  apply andb_true_iff in Hstep as [Hname Hvalid]. split; [|done].
  unfold attribute_name in Hname.
  by apply andb_true_iff in Hname as [Hne%bool_decide_eq_true _].
Qed.

Lemma valid_prop s name : valid s = true → valid (prop s name) = true.
Proof.
  destruct s as [| b | entries]; [done..|]. intros Hv. simpl.
  destruct (entries !! name) as [sub|] eqn:Hsub; [|done].
  by eapply valid_object.
Qed.

Lemma selects_nothing_object entries :
  selects_nothing (SObject entries) = true
  ↔ ∀ name sub, entries !! name = Some sub → selects_nothing sub = true.
Proof. apply (fold_andb_true (λ _ sub, selects_nothing sub)). Qed.

Lemma set_object entries name sub :
  name ≠ "" →
  ∃ entries',
    set (SObject entries) name sub = Ok (SObject entries')
    ∧ ∀ k, entries' !! k = if decide (name = k) then kept sub else entries !! k.
Proof.
  intros Hname. unfold set, ow_nonEmpty, kept.
  rewrite decide_False by done. simpl.
  destruct (normalize sub) as [| [] | sub'] eqn:Hsub;
    eexists; (split; [reflexivity|]); intros k;
    by rewrite ?lookup_insert, ?lookup_delete.
Qed.

(** The loop shared by [add] and [remove]: every property of the other
    selector is combined with the current one under the same name and
    written back with [set].  When no step throws, the result is an object
    whose properties are described name by name. *)
Definition loop (op : Selector → Selector → Result Selector)
    (a : Selector) (otherEntries : gmap string Selector) : Result Selector :=
  map_fold
    (λ name otherSub (acc : Result Selector),
       cur ← acc; sub ← op (prop cur name) otherSub; set cur name sub)
    (Ok a) otherEntries.

Lemma loop_object op entries otherEntries :
  (∀ name otherSub, otherEntries !! name = Some otherSub →
     name ≠ "" ∧ ∃ r, op (default SUndefined (entries !! name)) otherSub = Ok r) →
  ∃ entries',
    loop op (SObject entries) otherEntries = Ok (SObject entries')
    ∧ ∀ name,
        entries' !! name =
          match otherEntries !! name with
          | None => entries !! name
          | Some otherSub =>
              match op (default SUndefined (entries !! name)) otherSub with
              | Ok r => kept r
              | Throw _ => None
              end
          end.
Proof.
  unfold loop.
  apply (map_fold_weak_ind (λ res m,
    (∀ name otherSub, m !! name = Some otherSub →
       name ≠ "" ∧ ∃ r, op (default SUndefined (entries !! name)) otherSub = Ok r) →
    ∃ entries',
      res = Ok (SObject entries')
      ∧ ∀ name,
          entries' !! name =
            match m !! name with
            | None => entries !! name
            | Some otherSub =>
                match op (default SUndefined (entries !! name)) otherSub with
                | Ok r => kept r
                | Throw _ => None
                end
            end)).
  - intros _. exists entries. split; [done|]. intros name. by rewrite lookup_empty.
  - intros i x m res Hi IH Hall.
    destruct IH as (cur & -> & Hcur).
    { intros name otherSub Hname. apply Hall.
      rewrite lookup_insert_ne; [done|]. intros ->. by rewrite Hi in Hname. }
    destruct (Hall i x) as (Hne & r & Hr); [by rewrite lookup_insert_eq|].
    simpl. rewrite Hcur, Hi, Hr. simpl.
    destruct (set_object cur i r Hne) as (entries' & -> & Hset).
    exists entries'. split; [done|]. intros name.
    rewrite Hset, lookup_insert. case_decide as Hdec.
    + subst name. by rewrite Hr.
    + apply Hcur.
Qed.

Lemma add_object_object entries otherEntries :
  add (SObject entries) (SObject otherEntries)
  = loop add (SObject entries) otherEntries.
Proof. reflexivity. Qed.

Lemma remove_object_object entries otherEntries :
  remove (SObject entries) (SObject otherEntries)
  = loop remove (SObject entries) otherEntries.
Proof. reflexivity. Qed.

Lemma valid_object_iff entries :
  valid (SObject entries) = true
  ↔ ∀ name sub, entries !! name = Some sub →
      attribute_name name = true ∧ valid sub = true.
Proof.
  etrans;
    [apply (fold_andb_true (λ name sub, attribute_name name && valid sub))|].
  apply forall_proper; intros name. apply forall_proper; intros sub.
  by rewrite andb_true_iff.
Qed.

Lemma own_names_valid s : own_names s = true → valid s = true.
Proof.
  induction s as [| b | entries IH] using Selector_nested_ind; [done..|].
  intros Hown. apply valid_object_iff. intros name sub Hsub.
  pose proof (proj1 (fold_andb_true
                       (λ name sub, own_name name && own_names sub) entries)
                Hown name sub Hsub) as Hstep.
  apply andb_true_iff in Hstep as [Hname Hp].
  apply andb_true_iff in Hname as [Hname _]. split; [done|]. by eapply IH.
Qed.

(** *** Union: [add] *)

Lemma add_includes other :
  ∀ a, valid a = true → valid other = true →
    ∃ r, add a other = Ok r ∧ includes r a = true ∧ includes r other = true.
Proof.
  induction other as [| o | otherEntries IH] using Selector_nested_ind;
    intros a Ha Ho.
  - destruct a as [| [] | entries]; eexists; (split; [reflexivity|]);
      split; (apply includes_refl || reflexivity).
  - destruct a as [| [] | entries], o; eexists;
      (split; [reflexivity|]); split; (apply includes_refl || reflexivity).
  - destruct a as [| [] | entries].
    + exists (SObject otherEntries). split; [done|].
      split; [done | apply includes_refl].
    + by exists (SBool true).
    + exists (SObject otherEntries). split; [done|].
      split; [done | apply includes_refl].
    + assert (Hstep : ∀ name otherSub, otherEntries !! name = Some otherSub →
               name ≠ "" ∧ ∃ r,
                 add (default SUndefined (entries !! name)) otherSub = Ok r
                 ∧ includes r (default SUndefined (entries !! name)) = true
                 ∧ includes r otherSub = true).
      { intros name otherSub Hname.
        destruct (valid_object _ Ho _ _ Hname) as [Hne Hsub].
        split; [done|]. eapply IH; [done| |done].
        apply (valid_prop (SObject entries) name Ha). }
      destruct (loop_object add entries otherEntries) as (entries' & Hadd & Hspec).
      { intros name otherSub Hname.
        destruct (Hstep _ _ Hname) as (? & r & ? & _). eauto. }
      exists (SObject entries'). rewrite add_object_object. split; [done|].
      split; apply includes_object_object; intros name sub Hsub;
        rewrite Hspec.
      * destruct (otherEntries !! name) as [otherSub|] eqn:Hother.
        -- destruct (Hstep _ _ Hother) as (_ & r & -> & Hr & _).
           rewrite includes_kept. by rewrite Hsub in Hr.
        -- rewrite Hsub. apply includes_refl.
      * rewrite Hsub.
        destruct (Hstep _ _ Hsub) as (_ & r & -> & _ & Hr).
        by rewrite includes_kept.
Qed.


(** *** Difference: [remove] *)

Lemma remove_self s : valid s = true → remove s s = Ok (residue s).
Proof.
  induction s as [| [] | entries IH] using Selector_nested_ind; [done..|].
  intros Hv. rewrite remove_object_object.
  destruct (loop_object remove entries entries) as (entries' & -> & Hspec).
  { intros name sub Hsub. rewrite Hsub.
    destruct (valid_object _ Hv _ _ Hsub) as [Hne Hvs].
    split; [done|]. exists (residue sub). by eapply IH. }
  simpl residue. do 2 f_equal. apply map_eq. intros name.
  rewrite Hspec, lookup_omap.
  destruct (entries !! name) as [sub|] eqn:Hsub; [|done]. simpl.
  destruct (valid_object _ Hv _ _ Hsub) as [_ Hvs].
  rewrite (IH _ _ Hsub Hvs). by destruct sub as [| [] |].
Qed.

Lemma residue_selects_nothing s : selects_nothing (residue s) = true.
Proof.
  induction s as [| [] | entries IH] using Selector_nested_ind; [done..|].
  simpl residue. apply selects_nothing_object. intros name sub.
  rewrite lookup_omap.
  destruct (entries !! name) as [sub'|] eqn:Hsub; [|done]. simpl.
  destruct sub' as [| b | m]; [done..|]. intros [= <-].
  apply (IH _ _ Hsub).
Qed.

(** C4, as the code has it.  Removing a selector from itself never fails
    and leaves a selector that selects nothing: [false] when the selector
    is [undefined], [false] or [true] (so [remove(true, true)] is [false],
    not an error), and, when the selector is an object, the object made of
    its object-valued properties, each reduced in the same way (the empty
    object for a flat selector). *)
Theorem remove_self_selects_nothing (A : Selector) :
  valid A = true →
  remove A A = Ok (residue A)
  ∧ selects_nothing (residue A) = true
  ∧ (is_object A = false → residue A = SBool false)
  ∧ (is_object A = true → is_object (residue A) = true).
Proof.
  intros HA. split; [by apply remove_self|].
  split; [apply residue_selects_nothing|]. by destruct A.
Qed.

(** C4 as stated fails twice: [remove(true, true)] returns [false] without
    an error, and removing an object selector from itself returns an
    object, not [false]. *)
Lemma remove_self_not_false_counterexample :
  remove (SBool true) (SBool true) = Ok (SBool false)
  ∧ ¬ (∃ e, remove (SBool true) (SBool true) = Throw e)
  ∧ remove (SObject {[ "title" := SBool true ]})
           (SObject {[ "title" := SBool true ]}) = Ok (SObject ∅)
  ∧ ¬ (∀ A, A ≠ SBool true → remove A A = Ok (SBool false)).
Proof.
  split; [reflexivity|]. split; [intros [e He]; discriminate He|].
  split; [reflexivity|].
  intros H. specialize (H (SObject {[ "title" := SBool true ]})).
  assert (Hres : remove (SObject {[ "title" := SBool true ]})
                        (SObject {[ "title" := SBool true ]})
                 = Ok (SObject ∅)) by reflexivity.
  rewrite Hres in H. discriminate H. discriminate.
Qed.

(** *** Further facts on the inclusion order *)

Lemma includes_false_r a : includes a (SBool false) = true.
Proof. by destruct a as [| [] |]. Qed.

Lemma includes_undefined_r a : includes a SUndefined = true.
Proof. by destruct a as [| [] |]. Qed.

Lemma includes_true_l b : includes (SBool true) b = true.
Proof. by destruct b as [| [] |]. Qed.

Lemma includes_true_r a : includes a (SBool true) = true → a = SBool true.
Proof. by destruct a as [| [] |]. Qed.

Lemma includes_normalize_r a b : includes a (normalize b) = includes a b.
Proof. by destruct b. Qed.

Lemma includes_object_r a otherEntries :
  includes a (SObject otherEntries) = true →
  a = SBool true ∨ ∃ entries, a = SObject entries.
Proof.
  destruct a as [| [] | entries]; [done|by left|done|right; by eexists].
Qed.

Lemma includes_trans c :
  ∀ a b, includes a b = true → includes b c = true → includes a c = true.
Proof.
  induction c as [| [] | ce IH] using Selector_nested_ind; intros a b Hab Hbc.
  - apply includes_undefined_r.
  - apply includes_true_r in Hbc as ->. by apply includes_true_r in Hab as ->.
  - apply includes_false_r.
  - destruct (includes_object_r _ _ Hbc) as [-> | [be ->]].
    { apply includes_true_r in Hab as ->. apply includes_true_l. }
    destruct (includes_object_r _ _ Hab) as [-> | [ae ->]].
    { apply includes_true_l. }
    apply includes_object_object. intros name sub Hsub.
    eapply (IH _ _ Hsub _ (default SUndefined (be !! name))).
    + destruct (be !! name) as [bsub|] eqn:Hb; simpl.
      * by eapply includes_object_object in Hab.
      * apply includes_undefined_r.
    + by eapply includes_object_object in Hbc.
Qed.

Lemma valid_normalize s : valid (normalize s) = valid s.
Proof. by destruct s. Qed.

Lemma kept_Some r sub : kept r = Some sub → sub = normalize r.
Proof. unfold kept. destruct (normalize r) as [| [] |]; naive_solver. Qed.

Lemma add_normalize_l a b : add (normalize a) b = add a b.
Proof. destruct b; simpl; by rewrite normalize_idemp. Qed.

Lemma normalize_kept r : normalize (default SUndefined (kept r)) = normalize r.
Proof. unfold kept. by destruct r as [| [] |]. Qed.

Lemma add_kept r b : add (default SUndefined (kept r)) b = add r b.
Proof. by rewrite <- add_normalize_l, normalize_kept, add_normalize_l. Qed.

(** *** Constructors and property access *)

Lemma lookup_fromNames_fold names : ∀ (acc : gmap string Selector) name,
  foldl (λ attributeSelector name, <[name := SBool true]> attributeSelector)
    acc names !! name
  = if decide (name ∈ names) then Some (SBool true) else acc !! name.
Proof.
  induction names as [|first rest IH]; intros acc name; cbn [foldl].
  - by rewrite decide_False by set_solver.
  - rewrite IH. destruct (decide (name ∈ rest)) as [Hin|Hnin].
    + by rewrite decide_True by set_solver.
    + destruct (decide (name = first)) as [->|Hne].
      * rewrite decide_True by set_solver. by rewrite lookup_insert_eq.
      * rewrite decide_False by set_solver. by rewrite lookup_insert_ne.
Qed.

Lemma prop_fromNames names name :
  prop (fromNames names) name
  = if decide (name ∈ names) then SBool true else SUndefined.
Proof.
  unfold fromNames, prop. rewrite lookup_fromNames_fold.
  by case_decide.
Qed.

(** X1.  Reading an own name from [fromNames(names)] answers [true] when
    the name is one of [names] and [false] otherwise. *)
Theorem fromNames_get (names : list string) (name : string) :
  own_name name = true →
  get (fromNames names) name = Ok (SBool (bool_decide (name ∈ names))).
Proof.
  intros Hname. apply andb_true_iff in Hname as [Hname _].
  apply andb_true_iff in Hname as [Hne%bool_decide_eq_true _].
  unfold get, ow_nonEmpty. rewrite decide_False by done.
  change (Ok (normalize (prop (fromNames names) name))
          = Ok (SBool (bool_decide (name ∈ names)))).
  rewrite prop_fromNames.
  case_decide; [by rewrite bool_decide_true|by rewrite bool_decide_false].
Qed.

(** X2.  For own names, [fromNames(names)] includes [fromNames(others)]
    exactly when each of [others] is one of [names]; order and repetitions
    do not count. *)
Theorem fromNames_includes_iff_subset (names others : list string) :
  Forall (λ name, own_name name = true) others →
  includes (fromNames names) (fromNames others) = true ↔ others ⊆ names.
Proof.
  intros _. unfold fromNames at 1 2. rewrite includes_object_object. split.
  - intros Hall name Hin.
    specialize (Hall name (SBool true)). rewrite !lookup_fromNames_fold in Hall.
    rewrite decide_True in Hall by done. specialize (Hall eq_refl).
    by destruct (decide (name ∈ names)).
  - intros Hsub name sub. rewrite !lookup_fromNames_fold.
    case_decide as Hin; [|done]. intros [= <-].
    by rewrite decide_True by by apply Hsub.
Qed.

(** X3.  [fromAttributes] builds the selector [fromNames] builds from the
    names of the attributes. *)
Theorem fromAttributes_fromNames {Attribute : Type}
    (getName : Attribute → string) (attributes : list Attribute) :
  fromAttributes getName attributes = fromNames (getName <$> attributes).
Proof.
  unfold fromAttributes, fromNames. f_equal.
  generalize (∅ : gmap string Selector).
  induction attributes as [|attribute rest IH]; intros acc; [done|].
  simpl. apply IH.
Qed.

(** X4.  What [set] writes [get] reads back.  For an own name and an
    object selector, [set(A, name, S)] returns a selector in which [name]
    reads as the normalized [S] and every other name reads as in [A]; a
    boolean [A] is returned as it is, so [name] still reads as that
    boolean. *)
Theorem set_then_get (A S : Selector) (name other : string) :
  own_name name = true →
  ∃ A',
    set A name S = Ok A'
    ∧ get A' name = Ok (match normalize A with
                        | SBool b => SBool b
                        | _ => normalize S
                        end)
    ∧ (other ≠ name → get A' other = get A other).
Proof.
  intros Hname. apply andb_true_iff in Hname as [Hname _].
  apply andb_true_iff in Hname as [Hne%bool_decide_eq_true _].
  unfold set, get, ow_nonEmpty. rewrite !decide_False by done. simpl.
  destruct A as [| b | entries]; simpl.
  - eexists. split; [done|]. by split.
  - eexists. split; [done|]. by split.
  - destruct (normalize S) as [| [] | sub] eqn:HS.
    + by destruct S.
    + eexists. split; [done|]. simpl. rewrite lookup_insert_eq. split; [done|].
      intros Hother. by rewrite lookup_insert_ne.
    + eexists. split; [done|]. simpl. rewrite lookup_delete_eq. split; [done|].
      intros Hother. by rewrite lookup_delete_ne.
    + eexists. split; [done|]. simpl. rewrite lookup_insert_eq. split; [done|].
      intros Hother. by rewrite lookup_insert_ne.
Qed.

(** X5.  Adding [fromNames(others)] to [fromNames(names)] gives the selector
    of all the names together, for own names [others]. *)
Theorem fromNames_add (names others : list string) :
  Forall (λ name, own_name name = true) others →
  add (fromNames names) (fromNames others) = Ok (fromNames (names ++ others)).
Proof.
  intros Hothers. unfold fromNames at 1 2. rewrite add_object_object.
  match goal with
  | |- loop add (SObject ?m) ?o = _ =>
      destruct (loop_object add m o) as (entries' & Hrun & Hspec);
        [|rewrite Hrun]
  end.
  { intros name otherSub. rewrite lookup_fromNames_fold.
    case_decide as Hin; [|done]. intros [= <-]. split.
    - pose proof (proj1 (Forall_forall _ _) Hothers name Hin) as Hname.
      apply andb_true_iff in Hname as [Hname _].
      by apply andb_true_iff in Hname as [Hne%bool_decide_eq_true _].
    - destruct (default SUndefined _) as [| [] |]; by eexists. }
  unfold fromNames. do 2 f_equal. apply map_eq. intros name.
  rewrite Hspec, !lookup_fromNames_fold.
  destruct (decide (name ∈ others)) as [Hin|Hnin].
  - rewrite (decide_True (P := name ∈ names ++ others))
      by (apply elem_of_app; by right).
    by destruct (default SUndefined _) as [| [] |].
  - destruct (decide (name ∈ names)) as [Hin'|Hnin'].
    + by rewrite (decide_True (P := name ∈ names ++ others))
        by (apply elem_of_app; by left).
    + rewrite (decide_False (P := name ∈ names ++ others)); [done|].
      by intros [?|?]%elem_of_app.
Qed.

(** *** Inclusion is an order, [isEqual] its equivalence *)

(** X6.  [includes] is transitive: a selector that includes a second one
    includes whatever the second one includes. *)
Theorem includes_transitive (A B C : Selector) :
  own_names B = true → own_names C = true →
  includes A B = true → includes B C = true → includes A C = true.
Proof. intros _ _ HAB HBC. by eapply includes_trans. Qed.

(** X7.  [isEqual] is an equivalence relation on selectors: reflexive,
    symmetric and transitive. *)
Theorem isEqual_equivalence (A B C : Selector) :
  own_names A = true → own_names B = true → own_names C = true →
  isEqual A A = true
  ∧ (isEqual A B = true → isEqual B A = true)
  ∧ (isEqual A B = true → isEqual B C = true → isEqual A C = true).
Proof.
  intros _ _ _. unfold isEqual. split_and!.
  - by rewrite includes_refl.
  - by rewrite andb_comm.
  - intros [HAB HBA]%andb_true_iff [HBC HCB]%andb_true_iff.
    apply andb_true_iff. split; by eapply includes_trans.
Qed.

Lemma iterate_kept entries : iterate (SObject entries) = Ok (omap kept entries).
Proof. reflexivity. Qed.

(** X8.  [iterate] loses nothing and yields nothing more: on an object
    selector, every sub-selector it yields is [true] or an object (never
    [false] or [undefined]), and the object made of the yielded pairs is
    equal to the selector in the sense of [isEqual]. *)
Theorem iterate_yields_selected
    (A : Selector) (yielded : gmap string Selector) :
  own_names A = true →
  iterate A = Ok yielded →
  (∀ name sub, yielded !! name = Some sub →
     sub = SBool true ∨ is_object sub = true)
  ∧ isEqual A (SObject yielded) = true.
Proof.
  intros _. destruct A as [| b | entries]; [done..|]. rewrite iterate_kept.
  intros [= <-]. split.
  - intros name sub. rewrite lookup_omap.
    destruct (entries !! name) as [s|]; [|done]. simpl.
    unfold kept. destruct s as [| [] | m]; simpl; intros [= <-];
      [by left|by right].
  - unfold isEqual. apply andb_true_iff. split.
    + apply includes_object_object. intros name sub. rewrite lookup_omap.
      destruct (entries !! name) as [s|]; [|done]. simpl.
      intros ->%kept_Some. rewrite includes_normalize_r. apply includes_refl.
    + apply includes_object_object. intros name sub Hsub.
      rewrite lookup_omap, Hsub. simpl. rewrite includes_kept.
      apply includes_refl.
Qed.

(** *** The loop of [add] and [remove], read backwards *)

(** When the loop of [add] or [remove] returns, every one of its steps did. *)
Lemma loop_steps op entries otherEntries r :
  (∀ name otherSub, otherEntries !! name = Some otherSub → name ≠ "") →
  loop op (SObject entries) otherEntries = Ok r →
  ∀ name otherSub, otherEntries !! name = Some otherSub →
    ∃ r', op (default SUndefined (entries !! name)) otherSub = Ok r'.
Proof.
  unfold loop. revert r.
  apply (map_fold_weak_ind (λ res m,
    ∀ r,
    (∀ name otherSub, m !! name = Some otherSub → name ≠ "") →
    res = Ok r →
    (∃ cur, r = SObject cur
            ∧ ∀ name, m !! name = None → cur !! name = entries !! name)
    ∧ ∀ name otherSub, m !! name = Some otherSub →
        ∃ r', op (default SUndefined (entries !! name)) otherSub = Ok r')).
  - intros r _ [= <-]. split; [by eexists|]. intros name otherSub.
    by rewrite lookup_empty.
  - intros i x m res Hi IH r Hnames Hres.
    destruct res as [cur0|e]; [|done].
    destruct (IH cur0) as [(cur & -> & Hcur) Hsteps]; [|done|].
    { intros name otherSub Hname. apply (Hnames name otherSub).
      rewrite lookup_insert_ne; [done|]. intros ->. by rewrite Hi in Hname. }
    simpl in Hres. rewrite (Hcur i Hi) in Hres.
    destruct (op (default SUndefined (entries !! i)) x) as [sub|e] eqn:Hop;
      [|done].
    simpl in Hres.
    assert (Hne : i ≠ "")
      by (apply (Hnames i x); by rewrite lookup_insert_eq).
    destruct (set_object cur i sub Hne) as (entries' & Hset & Hspec).
    rewrite Hset in Hres. injection Hres as <-. split.
    + exists entries'. split; [done|]. intros name Hname.
      apply lookup_insert_None in Hname as [Hname Hneq].
      rewrite Hspec, decide_False by done. by apply Hcur.
    + intros name otherSub. rewrite lookup_insert. case_decide as Hdec.
      * intros [= <-]. subst name. by eexists.
      * apply Hsteps.
Qed.

(** The result of the loop, property by property. *)
Lemma loop_result op entries otherEntries r :
  (∀ name otherSub, otherEntries !! name = Some otherSub → name ≠ "") →
  loop op (SObject entries) otherEntries = Ok r →
  ∃ entries',
    r = SObject entries'
    ∧ ∀ name,
        entries' !! name =
          match otherEntries !! name with
          | None => entries !! name
          | Some otherSub =>
              match op (default SUndefined (entries !! name)) otherSub with
              | Ok r => kept r
              | Throw _ => None
              end
          end.
Proof.
  intros Hnames Hloop.
  destruct (loop_object op entries otherEntries) as (entries' & Hrun & Hspec).
  { intros name otherSub Hname. split; [by eapply Hnames|].
    by eapply loop_steps. }
  exists entries'. split; [|done]. rewrite Hrun in Hloop. by injection Hloop.
Qed.

Lemma valid_names entries :
  valid (SObject entries) = true →
  ∀ name sub, entries !! name = Some sub → name ≠ "".
Proof. intros Hv name sub Hsub. by destruct (valid_object _ Hv _ _ Hsub). Qed.

Lemma loop_valid op entries otherEntries r :
  valid (SObject entries) = true →
  valid (SObject otherEntries) = true →
  (∀ name otherSub r', otherEntries !! name = Some otherSub →
     op (default SUndefined (entries !! name)) otherSub = Ok r' →
     valid r' = true) →
  loop op (SObject entries) otherEntries = Ok r →
  valid r = true.
Proof.
  intros Ha Ho Hop Hloop.
  destruct (loop_result op entries otherEntries r (valid_names _ Ho) Hloop)
    as (entries' & -> & Hspec).
  apply valid_object_iff. intros name sub. rewrite Hspec.
  destruct (otherEntries !! name) as [otherSub|] eqn:Hother.
  - destruct (op _ otherSub) as [r'|e] eqn:Hr; [|done].
    intros ->%kept_Some. rewrite valid_normalize. split; [|by eapply Hop].
    by eapply (proj1 (valid_object_iff _) Ho).
  - by apply (proj1 (valid_object_iff _) Ha).
Qed.

Lemma add_valid other :
  ∀ a r, valid a = true → valid other = true → add a other = Ok r →
    valid r = true.
Proof.
  induction other as [| o | otherEntries IH] using Selector_nested_ind;
    intros a r Ha Ho.
  - destruct a as [| [] | entries]; by intros [= <-].
  - destruct a as [| [] | entries], o; by intros [= <-].
  - destruct a as [| [] | entries]; try by intros [= <-].
    rewrite add_object_object. apply loop_valid; [done..|].
    intros name otherSub r' Hname. apply (IH _ _ Hname).
    + apply (valid_prop (SObject entries) name Ha).
    + by eapply valid_object.
Qed.

Lemma remove_valid other :
  ∀ a r, valid a = true → valid other = true → remove a other = Ok r →
    valid r = true.
Proof.
  induction other as [| o | otherEntries IH] using Selector_nested_ind;
    intros a r Ha Ho.
  - destruct a as [| [] | entries]; by intros [= <-].
  - destruct a as [| [] | entries], o; by intros [= <-].
  - destruct a as [| [] | entries]; try by intros [= <-].
    rewrite remove_object_object. apply loop_valid; [done..|].
    intros name otherSub r' Hname. apply (IH _ _ Hname).
    + apply (valid_prop (SObject entries) name Ha).
    + by eapply valid_object.
Qed.

(** *** Union is the least upper bound *)

Lemma add_least other :
  ∀ a c, valid a = true → valid other = true →
    includes c a = true → includes c other = true →
    ∃ r, add a other = Ok r ∧ includes c r = true.
Proof.
  induction other as [| o | otherEntries IH] using Selector_nested_ind;
    intros a c Ha Ho Hca Hco.
  - destruct a as [| [] | entries]; eexists; (split; [reflexivity|]);
      try done; apply includes_false_r.
  - destruct a as [| [] | entries], o; eexists; (split; [reflexivity|]);
      try done; apply includes_false_r.
  - destruct a as [| [] | entries]; try (eexists; split; [reflexivity|done]).
    destruct (add_includes (SObject otherEntries) (SObject entries) Ha Ho)
      as (r & Hadd & _).
    exists r. split; [done|].
    rewrite add_object_object in Hadd.
    destruct (loop_result add entries otherEntries r (valid_names _ Ho) Hadd)
      as (entries' & -> & Hspec).
    destruct (includes_object_r _ _ Hca) as [-> | [ce ->]];
      [apply includes_true_l|].
    apply includes_object_object. intros name sub. rewrite Hspec.
    destruct (otherEntries !! name) as [otherSub|] eqn:Hother.
    + destruct (IH _ _ Hother (default SUndefined (entries !! name))
                  (default SUndefined (ce !! name))) as (r' & Hr' & Hincl).
      * apply (valid_prop (SObject entries) name Ha).
      * by eapply valid_object.
      * destruct (entries !! name) as [asub|] eqn:Hasub; simpl.
        -- by eapply includes_object_object in Hca.
        -- apply includes_undefined_r.
      * by eapply includes_object_object in Hco.
      * rewrite Hr'. intros ->%kept_Some. by rewrite includes_normalize_r.
    + intros Hsub. by eapply includes_object_object in Hca.
Qed.

(** X9.  [add] returns the least selector that includes both operands:
    every selector that includes [A] and includes [B] also includes
    [add(A, B)]. *)
Theorem add_least_upper_bound (A B C : Selector) :
  own_names A = true → own_names B = true →
  includes C A = true → includes C B = true →
  ∃ R, add A B = Ok R ∧ includes C R = true.
Proof.
  intros HA%own_names_valid HB%own_names_valid HCA HCB. by apply add_least.
Qed.

(** X10.  [add] is commutative up to [isEqual]: [add(A, B)] and
    [add(B, A)] both return, and their results are equal selectors. *)
Theorem add_commutative (A B : Selector) :
  own_names A = true → own_names B = true →
  ∃ R R', add A B = Ok R ∧ add B A = Ok R' ∧ isEqual R R' = true.
Proof.
  intros HA%own_names_valid HB%own_names_valid.
  destruct (add_includes B A HA HB) as (R & HR & HRA & HRB).
  destruct (add_includes A B HB HA) as (R' & HR' & HR'B & HR'A).
  exists R, R'. split; [done|]. split; [done|].
  apply andb_true_iff. split.
  - destruct (add_least A B R HB HA HRB HRA) as (r & Hr & Hincl).
    rewrite HR' in Hr. by injection Hr as <-.
  - destruct (add_least B A R' HA HB HR'A HR'B) as (r & Hr & Hincl).
    rewrite HR in Hr. by injection Hr as <-.
Qed.

(** X11.  [add] is associative up to [isEqual]: adding [C] to [add(A, B)]
    and adding [add(B, C)] to [A] both return, with equal results. *)
Theorem add_associative (A B C : Selector) :
  own_names A = true → own_names B = true → own_names C = true →
  ∃ AB BC L R,
    add A B = Ok AB ∧ add AB C = Ok L
    ∧ add B C = Ok BC ∧ add A BC = Ok R
    ∧ isEqual L R = true.
Proof.
  intros HA%own_names_valid HB%own_names_valid HC%own_names_valid.
  destruct (add_includes B A HA HB) as (AB & HAB & HABA & HABB).
  pose proof (add_valid B A AB HA HB HAB) as HvAB.
  destruct (add_includes C AB HvAB HC) as (L & HL & HLAB & HLC).
  destruct (add_includes C B HB HC) as (BC & HBC & HBCB & HBCC).
  pose proof (add_valid C B BC HB HC HBC) as HvBC.
  destruct (add_includes BC A HA HvBC) as (R & HR & HRA & HRBC).
  exists AB, BC, L, R. split_and!; [done..|].
  apply andb_true_iff. split.
  - assert (HLBC : includes L BC = true).
    { destruct (add_least C B L HB HC (includes_trans B L AB HLAB HABB) HLC)
        as (r & Hr & Hincl).
      rewrite HBC in Hr. by injection Hr as <-. }
    destruct (add_least BC A L HA HvBC (includes_trans A L AB HLAB HABA) HLBC)
      as (r & Hr & Hincl).
    rewrite HR in Hr. by injection Hr as <-.
  - assert (HRAB : includes R AB = true).
    { destruct (add_least B A R HA HB HRA (includes_trans B R BC HRBC HBCB))
        as (r & Hr & Hincl).
      rewrite HAB in Hr. by injection Hr as <-. }
    destruct (add_least C AB R HvAB HC HRAB (includes_trans C R BC HRBC HBCC))
      as (r & Hr & Hincl).
    rewrite HL in Hr. by injection Hr as <-.
Qed.

(** X12.  Adding changes nothing exactly when there is nothing to add:
    [add(A, B)] is equal to [A] if and only if [A] includes [B].  In
    particular [add(A, A)] is equal to [A]. *)
Theorem add_absorbs_iff_includes (A B : Selector) :
  own_names A = true → own_names B = true →
  ∃ R, add A B = Ok R ∧ (isEqual R A = true ↔ includes A B = true).
Proof.
  intros HA%own_names_valid HB%own_names_valid.
  destruct (add_includes B A HA HB) as (R & HR & HRA & HRB).
  exists R. split; [done|]. unfold isEqual. rewrite HRA. simpl. split.
  - intros HAR. exact (includes_trans B A R HAR HRB).
  - intros HAB.
    destruct (add_least B A A HA HB (includes_refl A) HAB) as (r & Hr & Hincl).
    rewrite HR in Hr. by injection Hr as <-.
Qed.

(** *** Difference *)

Lemma remove_shrinks other :
  ∀ a r, valid a = true → valid other = true → remove a other = Ok r →
    includes a r = true.
Proof.
  induction other as [| o | otherEntries IH] using Selector_nested_ind;
    intros a r Ha Ho.
  - intros [= <-]. rewrite includes_normalize_r. apply includes_refl.
  - destruct o; intros [= <-]; [apply includes_false_r|].
    rewrite includes_normalize_r. apply includes_refl.
  - destruct a as [| [] | entries]; try by intros [= <-].
    rewrite remove_object_object. intros Hloop.
    destruct (loop_result remove entries otherEntries r (valid_names _ Ho)
                Hloop)
      as (entries' & -> & Hspec).
    apply includes_object_object. intros name sub. rewrite Hspec.
    destruct (otherEntries !! name) as [otherSub|] eqn:Hother.
    + destruct (remove _ otherSub) as [r'|e] eqn:Hr; [|done].
      intros ->%kept_Some. rewrite includes_normalize_r.
      eapply (IH _ _ Hother); [|by eapply valid_object|done].
      apply (valid_prop (SObject entries) name Ha).
    + intros ->. apply includes_refl.
Qed.

Lemma includes_undefined_l s :
  includes SUndefined s = true → selects_nothing s = true.
Proof. by destruct s as [| [] |]. Qed.

Lemma remove_disjoint other :
  ∀ a r x, valid a = true → valid other = true → remove a other = Ok r →
    includes r x = true → includes other x = true →
    selects_nothing x = true.
Proof.
  induction other as [| o | otherEntries IH] using Selector_nested_ind;
    intros a r x Ha Ho Hr Hrx Hox.
  - by apply includes_undefined_l.
  - destruct o; [|by destruct x as [| [] |]].
    injection Hr as <-. by destruct x as [| [] |].
  - destruct x as [| [] | xe]; [done| |done|].
    { by apply includes_true_r in Hox. }
    destruct a as [| [] | entries];
      [by injection Hr as <-|done|by injection Hr as <-|].
    rewrite remove_object_object in Hr.
    destruct (loop_result remove entries otherEntries r (valid_names _ Ho) Hr)
      as (entries' & -> & Hspec).
    apply selects_nothing_object. intros name sub Hsub.
    pose proof (proj1 (includes_object_object _ _) Hrx name sub Hsub) as Hr'.
    pose proof (proj1 (includes_object_object _ _) Hox name sub Hsub) as Ho'.
    rewrite Hspec in Hr'.
    destruct (otherEntries !! name) as [otherSub|] eqn:Hother; simpl in Ho'.
    + destruct (remove _ otherSub) as [r'|e] eqn:Hrem.
      * rewrite includes_kept in Hr'.
        eapply (IH _ _ Hother _ r'); [|by eapply valid_object|done..].
        apply (valid_prop (SObject entries) name Ha).
      * by apply includes_undefined_l.
    + by apply includes_undefined_l.
Qed.

Lemma remove_add_covers other :
  ∀ a r, valid a = true → valid other = true → remove a other = Ok r →
    ∃ s, add r other = Ok s ∧ includes s a = true.
Proof.
  induction other as [| o | otherEntries IH] using Selector_nested_ind;
    intros a r Ha Ho Hr.
  - injection Hr as <-.
    destruct a as [| [] | entries]; eexists; (split; [reflexivity|]);
      try done; apply includes_refl.
  - destruct o; injection Hr as <-.
    + exists (SBool true). split; [done|apply includes_true_l].
    + destruct a as [| [] | entries]; eexists; (split; [reflexivity|]);
        try done; apply includes_refl.
  - destruct a as [| [] | entries]; try done.
    { injection Hr as <-. eexists. split; [reflexivity|].
      apply includes_undefined_r. }
    { injection Hr as <-. eexists. split; [reflexivity|].
      apply includes_false_r. }
    pose proof (remove_valid _ _ _ Ha Ho Hr) as Hvr.
    rewrite remove_object_object in Hr.
    destruct (loop_result remove entries otherEntries r (valid_names _ Ho) Hr)
      as (re & -> & Hre).
    destruct (add_includes (SObject otherEntries) (SObject re) Hvr Ho)
      as (s & Hadd & _).
    exists s. split; [done|]. rewrite add_object_object in Hadd.
    destruct (loop_result add re otherEntries s (valid_names _ Ho) Hadd)
      as (se & -> & Hse).
    apply includes_object_object. intros name asub Hasub.
    rewrite Hse, Hre.
    destruct (otherEntries !! name) as [otherSub|] eqn:Hother.
    + rewrite Hasub. simpl.
      destruct (proj1 (valid_object_iff _) Ha _ _ Hasub) as [_ Hva].
      destruct (proj1 (valid_object_iff _) Ho _ _ Hother) as [_ Hvo].
      destruct (remove asub otherSub) as [r'|e] eqn:Hrem.
      * destruct (IH _ _ Hother asub r' Hva Hvo Hrem) as (s' & Hs' & Hincl).
        rewrite add_kept, Hs'. by rewrite includes_kept.
      * exfalso.
        destruct (loop_steps remove entries otherEntries _ (valid_names _ Ho) Hr
                    name otherSub Hother) as [r' Hr'].
        rewrite Hasub in Hr'. simpl in Hr'. by rewrite Hrem in Hr'.
    + rewrite Hasub. apply includes_refl.
Qed.

Lemma remove_returns other :
  ∀ a, valid a = true → valid other = true → includes other a = true →
    ∃ r, remove a other = Ok r.
Proof.
  induction other as [| o | otherEntries IH] using Selector_nested_ind;
    intros a Ha Ho Hincl.
  - by eexists.
  - destruct o; by eexists.
  - destruct a as [| [] | entries]; [by eexists|done|by eexists|].
    rewrite remove_object_object.
    destruct (loop_object remove entries otherEntries) as (entries' & -> & _);
      [|by eexists].
    intros name otherSub Hname. split; [by eapply valid_names|].
    eapply (IH _ _ Hname).
    + apply (valid_prop (SObject entries) name Ha).
    + by eapply valid_object.
    + destruct (entries !! name) as [sub|] eqn:Hsub; simpl.
      * pose proof (proj1 (includes_object_object _ _) Hincl name sub Hsub)
          as Hstep.
        by rewrite Hname in Hstep.
      * apply includes_undefined_r.
Qed.

(** X13.  Removing only takes away: when [remove(A, B)] returns, the
    selector [A] includes the result. *)
Theorem remove_result_included (A B R : Selector) :
  own_names A = true → own_names B = true →
  remove A B = Ok R → includes A R = true.
Proof.
  intros HA%own_names_valid HB%own_names_valid HR.
  exact (remove_shrinks B A R HA HB HR).
Qed.

(** X14.  Nothing of what was removed is left: when [remove(A, B)]
    returns [R], a selector included both in [R] and in [B] selects
    nothing. *)
Theorem remove_leaves_nothing_of_removed (A B R X : Selector) :
  own_names A = true → own_names B = true → own_names X = true →
  remove A B = Ok R →
  includes R X = true → includes B X = true →
  selects_nothing X = true.
Proof.
  intros HA%own_names_valid HB%own_names_valid _ HR HRX HBX.
  exact (remove_disjoint B A R X HA HB HR HRX HBX).
Qed.

(** X15.  Adding back what was removed covers the original: when
    [remove(A, B)] returns [R], [add(R, B)] returns a selector that
    includes [A]. *)
Theorem remove_then_add_covers (A B R : Selector) :
  own_names A = true → own_names B = true →
  remove A B = Ok R →
  ∃ S, add R B = Ok S ∧ includes S A = true.
Proof.
  intros HA%own_names_valid HB%own_names_valid HR.
  exact (remove_add_covers B A R HA HB HR).
Qed.

(** X16.  Removing a selector that includes [A] from [A] never fails and
    leaves a selector that selects nothing. *)
Theorem remove_superset_selects_nothing (A B : Selector) :
  own_names A = true → own_names B = true →
  includes B A = true →
  ∃ R, remove A B = Ok R ∧ selects_nothing R = true.
Proof.
  intros HA%own_names_valid HB%own_names_valid Hincl.
  destruct (remove_returns B A HA HB Hincl) as [R HR].
  exists R. split; [done|].
  eapply (remove_disjoint B A R R HA HB HR); [apply includes_refl|].
  exact (includes_trans R B A Hincl (remove_shrinks B A R HA HB HR)).
Qed.

(** *** Picking *)

(** The loop of [_pickFromArray]. *)
Definition pickAll {A B : Type} (f : A → Picked B)
    : list A → Picked (list B) :=
  fix _pickFromArray (array : list A) :=
    match array with
    | [] => Returns []
    | value :: rest =>
        picked ← f value;
        items ← _pickFromArray rest;
        Returns (picked :: items)
    end.

(** The second loop of [_pickFromObject], over the properties of the
    selector, with [step] for the recursive call. *)
Definition pickEntries (step : string → Selector → Picked Value)
    (init : gmap string Value) (entries : gmap string Selector)
    : Picked (gmap string Value) :=
  map_fold
    (λ name subattributeSelector (acc : Picked (gmap string Value)),
       result ← acc;
       match subattributeSelector with
       | SUndefined | SBool false => Returns result
       | _ =>
           picked ← step name subattributeSelector;
           Returns (<[name := picked]> result)
       end)
    (Returns init) entries.

Lemma _pick_true inc value : _pick inc (SBool true) value = Returns value.
Proof. by destruct value. Qed.

Lemma _pick_array inc s array :
  s ≠ SBool true →
  _pick inc s (VArray array)
  = items ← pickAll (_pick inc s) array; Returns (VArray items).
Proof. by destruct s as [| [] |]. Qed.

Lemma _pick_object inc entries object :
  _pick inc (SObject entries) (VObject object)
  = result ← pickEntries (λ name sub, _pick inc sub (value_prop object name))
               (included object inc) entries;
    Returns (VObject result).
Proof. reflexivity. Qed.

Lemma pickAll_Returns {A B} (f : A → Picked B) array items :
  pickAll f array = Returns items
  ↔ Forall2 (λ v r, f v = Returns r) array items.
Proof.
  revert items. induction array as [|value rest IH]; intros items; simpl.
  - split; [intros [= <-]; constructor|by inversion 1].
  - destruct (f value) as [picked|e] eqn:Hf; simpl.
    + destruct (pickAll f rest) as [items'|e] eqn:Hrest; simpl.
      * split.
        -- intros [= <-]. constructor; [done|]. by apply IH.
        -- inversion 1 as [|? r ? rs Hr Hrs]; subst.
           apply IH in Hrs. congruence.
      * split; [done|]. inversion 1 as [|? r ? rs Hr Hrs]; subst.
        apply IH in Hrs. done.
    + split; [done|]. inversion 1; subst. congruence.
Qed.

(** The properties [iterate] yields: those whose sub-selector is [true] or
    an object. *)
Definition selected (sub : Selector) : bool :=
  match sub with SUndefined | SBool false => false | _ => true end.

Lemma pickEntries_spec step init entries result :
  pickEntries step init entries = Returns result →
  ∀ name,
    result !! name =
      match entries !! name with
      | Some sub =>
          if selected sub
          then match step name sub with
               | Returns picked => Some picked
               | Fails _ => None
               end
          else init !! name
      | None => init !! name
      end
    ∧ ∀ sub, entries !! name = Some sub → selected sub = true →
        ∃ picked, step name sub = Returns picked.
Proof.
  unfold pickEntries. revert result.
  apply (map_fold_weak_ind (λ res m, ∀ result, res = Returns result →
    ∀ name,
      result !! name =
        match m !! name with
        | Some sub =>
            if selected sub
            then match step name sub with
                 | Returns picked => Some picked
                 | Fails _ => None
                 end
            else init !! name
        | None => init !! name
        end
      ∧ ∀ sub, m !! name = Some sub → selected sub = true →
          ∃ picked, step name sub = Returns picked)).
  - intros result [= <-] name. rewrite lookup_empty. by split.
  - intros i x m res Hi IH result Hres name.
    destruct res as [result0|e]; [|done]. simpl in Hres.
    specialize (IH result0 eq_refl).
    rewrite lookup_insert. case_decide as Hdec.
    + subst name. destruct (IH i) as [Hlook _]. rewrite Hi in Hlook.
      destruct (selected x) eqn:Hsel.
      * destruct (step i x) as [picked|e] eqn:Hstep.
        -- assert (result = <[i := picked]> result0) as ->
             by (destruct x as [| [] |]; simpl in *; congruence).
           rewrite lookup_insert_eq. split; [done|]. intros sub [= <-] _.
           by eexists.
        -- destruct x as [| [] |]; done.
      * assert (result = result0) as ->
          by (destruct x as [| [] |]; simpl in *; congruence).
        split; [done|]. intros sub [= <-] Hs. congruence.
    + assert (result !! name = result0 !! name) as ->.
      { destruct x as [| [] | m']; simpl in Hres;
          try (by injection Hres as <-);
          (destruct (step i _) as [picked|e]; [|done]);
          simpl in Hres; injection Hres as <-; by rewrite lookup_insert_ne. }
      apply IH.
Qed.

Lemma pickEntries_total step init entries :
  (∀ name sub, entries !! name = Some sub → selected sub = true →
     ∃ picked, step name sub = Returns picked) →
  ∃ result, pickEntries step init entries = Returns result.
Proof.
  unfold pickEntries.
  apply (map_fold_weak_ind (λ res m,
    (∀ name sub, m !! name = Some sub → selected sub = true →
       ∃ picked, step name sub = Returns picked) →
    ∃ result, res = Returns result)).
  - intros _. by eexists.
  - intros i x m res Hi IH Hall.
    destruct IH as [result0 ->].
    { intros name sub Hname. apply Hall. rewrite lookup_insert_ne; [done|].
      intros ->. by rewrite Hi in Hname. }
    simpl. destruct (selected x) eqn:Hsel.
    + destruct (Hall i x) as [picked Hstep];
        [by rewrite lookup_insert_eq|done|].
      destruct x as [| [] |]; try done; rewrite Hstep; by eexists.
    + destruct x as [| [] |]; try done; by eexists.
Qed.

Lemma pickEntries_ext step step' init entries :
  (∀ name sub, entries !! name = Some sub → selected sub = true →
     step name sub = step' name sub) →
  pickEntries step init entries = pickEntries step' init entries.
Proof.
  intros Hext. unfold pickEntries. rewrite !map_fold_foldr.
  assert (Hall : ∀ name sub, (name, sub) ∈ map_to_list entries →
            selected sub = true → step name sub = step' name sub).
  { intros name sub Hin. apply Hext. by apply elem_of_map_to_list. }
  induction (map_to_list entries) as [|[name sub] rest IH]; [done|].
  cbn [foldr]. rewrite IH by (intros; apply Hall; [by right|done]).
  match goal with
  | |- context [foldr ?f ?b rest] => generalize (foldr f b rest)
  end.
  intros [result|e]; [|reflexivity]. cbn.
  destruct sub as [| [] | m]; try reflexivity;
    by rewrite (Hall _ _ (list_elem_of_here _ _) eq_refl).
Qed.

Lemma lookup_included object inc name :
  included object inc !! name
  = if decide (name ∈ inc) then object !! name else None.
Proof.
  unfold included.
  assert (Hgen : ∀ acc : gmap string Value,
            foldl (λ result name,
                     match object !! name with
                     | Some value => <[name := value]> result
                     | None => result
                     end) acc inc !! name
            = match decide (name ∈ inc), object !! name with
              | left _, Some value => Some value
              | _, _ => acc !! name
              end).
  { induction inc as [|first rest IH]; intros acc; cbn [foldl].
    - by rewrite decide_False by set_solver.
    - rewrite IH. destruct (decide (name ∈ rest)) as [Hin|Hnin].
      + rewrite decide_True by set_solver.
        destruct (object !! name) as [v|] eqn:Hv; [done|].
        destruct (object !! first) eqn:Hf; [|done].
        rewrite lookup_insert_ne; [done|]. congruence.
      + destruct (decide (name = first)) as [->|Hne].
        * rewrite decide_True by set_solver.
          destruct (object !! first); [by rewrite lookup_insert_eq|done].
        * rewrite decide_False by set_solver.
          destruct (object !! first); [by rewrite lookup_insert_ne|done]. }
  rewrite Hgen. case_decide; [|done]. by destruct (object !! name).
Qed.

(** Induction on a value through its arrays. *)
Section Value_array_ind.
Variable P : Value → Prop.
Hypothesis Hleaf : ∀ v, (∀ items, v ≠ VArray items) → P v.
Hypothesis Harray : ∀ items, Forall P items → P (VArray items).

Fixpoint Value_array_ind (v : Value) : P v :=
  match v with
  | VArray items =>
      Harray items
        ((fix all (l : list Value) : Forall P l :=
            match l with
            | [] => Forall_nil_2 P
            | x :: rest => Forall_cons_2 P x rest (Value_array_ind x) (all rest)
            end) items)
  | v => Hleaf v ltac:(discriminate)
  end.
End Value_array_ind.

Lemma selected_not_true_array inc s items items' :
  s ≠ SBool true →
  _pick inc s (VArray items) = Returns items' →
  ∃ rs, items' = VArray rs
        ∧ Forall2 (λ v r, _pick inc s v = Returns r) items rs.
Proof.
  intros Hs. rewrite _pick_array by done.
  destruct (pickAll _ items) as [rs|e] eqn:Hall; [|done].
  intros [= <-]. exists rs. split; [done|]. by apply pickAll_Returns.
Qed.

Lemma _pick_again inc s :
  ∀ v r, _pick inc s v = Returns r → _pick inc s r = Returns r.
Proof.
  induction s as [| b | entries IH] using Selector_nested_ind.
  - intros v.
    induction v as [v Hv|items IHitems] using Value_array_ind; intros r.
    + destruct v; try done; try by intros [= <-]. by destruct (Hv items).
    + intros (rs & -> & Hrs)%selected_not_true_array; [|done].
      rewrite _pick_array by done.
      assert (pickAll (_pick inc SUndefined) rs = Returns rs) as ->; [|done].
      apply pickAll_Returns. clear -Hrs IHitems.
      induction Hrs as [|v r' items rs Hr Hrs IH]; [constructor|].
      apply Forall_cons in IHitems as [Hv Hitems].
      constructor; [by eapply Hv|by apply IH].
  - destruct b.
    { intros v r. rewrite !_pick_true. by intros [= <-]. }
    intros v.
    induction v as [v Hv|items IHitems] using Value_array_ind; intros r.
    + destruct v; try done; try by intros [= <-]. by destruct (Hv items).
    + intros (rs & -> & Hrs)%selected_not_true_array; [|done].
      rewrite _pick_array by done.
      assert (pickAll (_pick inc (SBool false)) rs = Returns rs) as ->; [|done].
      apply pickAll_Returns. clear -Hrs IHitems.
      induction Hrs as [|v r' items rs Hr Hrs IH]; [constructor|].
      apply Forall_cons in IHitems as [Hv Hitems].
      constructor; [by eapply Hv|by apply IH].
  - intros v.
    induction v as [v Hv|items IHitems] using Value_array_ind; intros r.
    + destruct v as [| | | | | |items|object]; try done; try by intros [= <-].
      { by destruct (Hv items). }
      rewrite _pick_object.
      destruct (pickEntries _ _ entries) as [result|e] eqn:Hfold; [|done].
      intros [= <-]. rewrite _pick_object.
      pose proof (pickEntries_spec _ _ _ _ Hfold) as Hspec. cbv beta in Hspec.
      destruct (pickEntries_total
                  (λ name sub, _pick inc sub (value_prop result name))
                  (included result inc) entries) as [result' Hfold'].
      { intros name sub Hsub Hsel. destruct (Hspec name) as [Hlook Hret].
        destruct (Hret sub Hsub Hsel) as [picked Hpicked].
        exists picked. cbv beta. unfold value_prop at 1.
        rewrite Hlook. rewrite Hsub. rewrite Hsel. rewrite Hpicked. simpl.
        by eapply IH. }
      rewrite Hfold'. simpl. do 2 f_equal. apply map_eq. intros name.
      destruct (pickEntries_spec _ _ _ _ Hfold' name) as [Hlook' _].
      cbv beta in Hlook'.
      destruct (Hspec name) as [Hlook Hret].
      rewrite Hlook'. rewrite Hlook at 1.
      destruct (entries !! name) as [sub|] eqn:Hsub;
        cbv beta iota in Hlook |- *.
      * destruct (selected sub) eqn:Hsel.
        -- destruct (Hret sub eq_refl Hsel) as [picked Hpicked].
           rewrite Hpicked in Hlook |- *.
           unfold value_prop at 1. rewrite Hlook. simpl.
           by rewrite (IH _ _ Hsub _ _ Hpicked).
        -- rewrite !lookup_included. case_decide as Hin; [|done].
           rewrite Hlook. rewrite lookup_included. by rewrite decide_True.
      * rewrite !lookup_included. case_decide as Hin; [|done].
        rewrite Hlook. rewrite lookup_included. by rewrite decide_True.
    + intros (rs & -> & Hrs)%selected_not_true_array; [|done].
      rewrite _pick_array by done.
      assert (pickAll (_pick inc (SObject entries)) rs = Returns rs) as ->;
        [|done].
      apply pickAll_Returns. clear -Hrs IHitems.
      induction Hrs as [|v r' items rs Hr Hrs IH']; [constructor|].
      apply Forall_cons in IHitems as [Hv Hitems].
      constructor; [by eapply Hv|by apply IH'].
Qed.

Lemma pick_selected value sub options :
  selected sub = true →
  pick value sub options
  = _pick (default [] (includeAttributeNames options)) sub value.
Proof. by destruct sub as [| [] |]. Qed.

Lemma lookup_iterate (entries : gmap string Selector) (name : string) :
  omap kept entries !! name
  = sub ← entries !! name; if selected sub then Some sub else None.
Proof.
  rewrite lookup_omap. destruct (entries !! name) as [[| [] |]|]; done.
Qed.

(** X17.  Picking from a plain object with an object selector, with
    [includeAttributeNames] that do not list [__proto__], returns a plain
    object that holds, for every pair [iterate] yields, the value picked
    from the property of that name with the yielded sub-selector
    ([undefined] picked from a missing property), and besides these only
    the own properties of the object named in [includeAttributeNames],
    as they are.  No other property is returned. *)
Theorem pick_object_properties
    (object : gmap string Value) (A : Selector) (options : PickOptions)
    (yielded : gmap string Selector) (picked : Value) :
  own_names A = true →
  "__proto__" ∉ default [] (includeAttributeNames options) →
  iterate A = Ok yielded →
  pick (VObject object) A options = Returns picked →
  ∃ result,
    picked = VObject result
    ∧ ∀ name,
        match yielded !! name with
        | Some sub =>
            ∃ value,
              pick (value_prop object name) sub options = Returns value
              ∧ result !! name = Some value
        | None =>
            result !! name =
              if decide (name ∈ default [] (includeAttributeNames options))
              then object !! name else None
        end.
Proof.
  intros _ _. destruct A as [| b | entries]; [done..|]. rewrite iterate_kept.
  intros [= <-]. rewrite pick_selected by done. rewrite _pick_object.
  destruct (pickEntries _ _ entries) as [result|e] eqn:Hfold; [|done].
  intros [= <-]. exists result. split; [done|]. intros name.
  destruct (pickEntries_spec _ _ _ _ Hfold name) as [Hlook Hret].
  cbv beta in Hlook, Hret. rewrite lookup_iterate.
  destruct (entries !! name) as [sub|] eqn:Hsub; cbn.
  - destruct (selected sub) eqn:Hsel.
    + destruct (Hret sub eq_refl Hsel) as [value Hvalue].
      exists value. rewrite pick_selected by done. split; [done|].
      rewrite Hlook. by rewrite Hvalue.
    + rewrite Hlook. apply lookup_included.
  - rewrite Hlook. apply lookup_included.
Qed.

(** X18.  [pick] is idempotent: picking again, with the same selector and
    options, from what [pick] returned returns it unchanged, when the
    [includeAttributeNames] do not list [__proto__]. *)
Theorem pick_idempotent (value picked : Value) (attributeSelector : Selector)
    (options : PickOptions) :
  own_names attributeSelector = true →
  "__proto__" ∉ default [] (includeAttributeNames options) →
  pick value attributeSelector options = Returns picked →
  pick picked attributeSelector options = Returns picked.
Proof.
  intros _ _. unfold pick.
  destruct (normalize attributeSelector) as [| [] |]; try done;
    apply _pick_again.
Qed.

Lemma includes_selected a b :
  includes a b = true → selected b = true → selected a = true.
Proof. by destruct a as [| [] |], b as [| [] |]. Qed.

Lemma pickAll_ext2 {A B} (f : A → Picked B) (rs items : list A) :
  Forall2 (λ v r, f r = f v) items rs → pickAll f rs = pickAll f items.
Proof.
  induction 1 as [|v r items rs Hr _ IH]; [done|]. simpl. by rewrite Hr, IH.
Qed.

Lemma _pick_twice s2 :
  ∀ s1 v r1, selected s2 = true → includes s1 s2 = true →
    _pick [] s1 v = Returns r1 → _pick [] s2 r1 = _pick [] s2 v.
Proof.
  induction s2 as [| [] | e2 IH] using Selector_nested_ind;
    intros s1 v r1 Hsel Hincl; [discriminate Hsel| |discriminate Hsel|].
  - apply includes_true_r in Hincl as ->. rewrite !_pick_true. by intros [= <-].
  - destruct (includes_object_r _ _ Hincl) as [-> | [e1 ->]].
    { rewrite _pick_true. by intros [= <-]. }
    revert r1.
    induction v as [v Hv|items IHitems] using Value_array_ind; intros r1.
    + destruct v as [| | | | | |items|object]; try done; try by intros [= <-].
      { by destruct (Hv items). }
      rewrite _pick_object.
      destruct (pickEntries _ _ e1) as [result1|e] eqn:Hfold; [|done].
      intros [= <-]. rewrite !_pick_object.
      erewrite pickEntries_ext; [reflexivity|].
      intros name sub2 Hsub2 Hsel2. cbv beta.
      pose proof (proj1 (includes_object_object _ _) Hincl name sub2 Hsub2)
        as Hsub.
      pose proof (includes_selected _ _ Hsub Hsel2) as Hsel1.
      destruct (e1 !! name) as [sub1|] eqn:Hsub1; [|done]. simpl in Hsub, Hsel1.
      destruct (pickEntries_spec _ _ _ _ Hfold name) as [Hlook Hret].
      cbv beta in Hlook, Hret.
      destruct (Hret sub1 Hsub1 Hsel1) as [p Hp].
      rewrite Hsub1, Hsel1, Hp in Hlook.
      unfold value_prop at 1. rewrite Hlook. simpl.
      by eapply (IH _ _ Hsub2 sub1).
    + intros (rs & -> & Hrs)%selected_not_true_array; [|done].
      rewrite !_pick_array by done.
      erewrite pickAll_ext2; [reflexivity|].
      clear -Hrs IHitems.
      induction Hrs as [|v r' items rs Hr Hrs IH']; [constructor|].
      apply Forall_cons in IHitems as [Hv Hitems].
      constructor; [by eapply Hv|by apply IH'].
Qed.

(** X19.  Picking with a selector [A] and then with a selector [B] that
    [A] includes is picking with [B] at once, when no
    [includeAttributeNames] are given: both return the same value or both
    fail. *)
Theorem pick_after_pick (value picked : Value) (A B : Selector)
    (options : PickOptions) :
  own_names A = true → own_names B = true →
  default [] (includeAttributeNames options) = [] →
  includes A B = true →
  pick value A options = Returns picked →
  pick picked B options = pick value B options.
Proof.
  intros _ _ Hnone Hincl. unfold pick. rewrite Hnone.
  destruct B as [| [] | e2]; [done| |done|].
  - apply includes_true_r in Hincl as ->. cbn [normalize].
    rewrite !_pick_true. by intros [= <-].
  - rewrite <- includes_normalize_l in Hincl.
    destruct (normalize A) as [| [] | e1] eqn:HA; try done;
      cbn [normalize]; by apply _pick_twice.
Qed.

End AttributeSelector.

(** Witnesses: the theorems above applied to
    [{title: true, director: {name: true}}] and [{director: true, year: false}]. *)
Definition movie_selector : AttributeSelector.Selector :=
  AttributeSelector.SObject
    {[ "title" := AttributeSelector.SBool true;
       "director" := AttributeSelector.SObject
                       {[ "name" := AttributeSelector.SBool true ]} ]}.

Definition director_selector : AttributeSelector.Selector :=
  AttributeSelector.SObject
    {[ "director" := AttributeSelector.SBool true;
       "year" := AttributeSelector.SBool false ]}.


Lemma remove_self_selects_nothing_witness :
  AttributeSelector.remove movie_selector movie_selector
  = AttributeSelector.Ok
      (AttributeSelector.SObject
         {[ "director" := AttributeSelector.SObject ∅ ]}).
Proof.
  apply (AttributeSelector.remove_self_selects_nothing movie_selector).
  reflexivity.
Defined.


(** Further selectors and a value for the witnesses below:
    [{title: true, director: true, year: true}], [{director: {name: true}}]
    and a movie with its director. *)
Definition whole_selector : AttributeSelector.Selector :=
  AttributeSelector.SObject
    {[ "title" := AttributeSelector.SBool true;
       "director" := AttributeSelector.SBool true;
       "year" := AttributeSelector.SBool true ]}.

Definition name_selector : AttributeSelector.Selector :=
  AttributeSelector.SObject
    {[ "director" := AttributeSelector.SObject
                       {[ "name" := AttributeSelector.SBool true ]} ]}.

Definition title_selector : AttributeSelector.Selector :=
  AttributeSelector.SObject {[ "title" := AttributeSelector.SBool true ]}.

Definition movie : AttributeSelector.Value :=
  AttributeSelector.VObject
    {[ "title" := AttributeSelector.VString "Inception";
       "year" := AttributeSelector.VNumber 2010;
       "director" := AttributeSelector.VObject
                       {[ "name" := AttributeSelector.VString "Nolan";
                          "born" := AttributeSelector.VNumber 1970 ]} ]}.

Definition picked_movie : AttributeSelector.Value :=
  AttributeSelector.VObject
    {[ "title" := AttributeSelector.VString "Inception";
       "year" := AttributeSelector.VNumber 2010;
       "director" := AttributeSelector.VObject
                       {[ "name" := AttributeSelector.VString "Nolan" ]} ]}.

Definition with_year : AttributeSelector.PickOptions :=
  {| AttributeSelector.includeAttributeNames := Some ["year"] |}.

Definition without_names : AttributeSelector.PickOptions :=
  {| AttributeSelector.includeAttributeNames := None |}.

Lemma fromNames_get_witness :
  AttributeSelector.get (AttributeSelector.fromNames ["title"; "year"]) "year"
  = AttributeSelector.Ok (AttributeSelector.SBool true).
Proof.
  apply (AttributeSelector.fromNames_get ["title"; "year"] "year").
  reflexivity.
Defined.

Lemma fromNames_includes_iff_subset_witness :
  AttributeSelector.includes
    (AttributeSelector.fromNames ["title"; "year"])
    (AttributeSelector.fromNames ["year"; "year"]) = true
  ↔ ["year"; "year"] ⊆ ["title"; "year"].
Proof.
  apply (AttributeSelector.fromNames_includes_iff_subset
           ["title"; "year"] ["year"; "year"]).
  repeat constructor.
Defined.

Lemma set_then_get_witness :
  ∃ A',
    AttributeSelector.set movie_selector "year" (AttributeSelector.SBool true)
    = AttributeSelector.Ok A'
    ∧ AttributeSelector.get A' "year"
      = AttributeSelector.Ok (AttributeSelector.SBool true)
    ∧ ("title" ≠ "year" →
       AttributeSelector.get A' "title"
       = AttributeSelector.get movie_selector "title").
Proof.
  apply (AttributeSelector.set_then_get movie_selector
           (AttributeSelector.SBool true) "year" "title").
  reflexivity.
Defined.

Lemma fromNames_add_witness :
  AttributeSelector.add (AttributeSelector.fromNames ["title"])
    (AttributeSelector.fromNames ["year"; "title"])
  = AttributeSelector.Ok
      (AttributeSelector.fromNames ["title"; "year"; "title"]).
Proof.
  apply (AttributeSelector.fromNames_add ["title"] ["year"; "title"]).
  repeat constructor.
Defined.

Lemma includes_transitive_witness :
  AttributeSelector.includes whole_selector name_selector = true.
Proof.
  apply (AttributeSelector.includes_transitive whole_selector movie_selector
           name_selector); reflexivity.
Defined.

Lemma isEqual_equivalence_witness :
  AttributeSelector.isEqual movie_selector movie_selector = true
  ∧ (AttributeSelector.isEqual movie_selector director_selector = true →
     AttributeSelector.isEqual director_selector movie_selector = true)
  ∧ (AttributeSelector.isEqual movie_selector director_selector = true →
     AttributeSelector.isEqual director_selector whole_selector = true →
     AttributeSelector.isEqual movie_selector whole_selector = true).
Proof.
  apply (AttributeSelector.isEqual_equivalence movie_selector
           director_selector whole_selector); reflexivity.
Defined.

Lemma iterate_yields_selected_witness :
  (∀ name sub,
     ({[ "director" := AttributeSelector.SBool true ]}
        : gmap string AttributeSelector.Selector) !! name = Some sub →
     sub = AttributeSelector.SBool true
     ∨ AttributeSelector.is_object sub = true)
  ∧ AttributeSelector.isEqual director_selector
      (AttributeSelector.SObject
         {[ "director" := AttributeSelector.SBool true ]}) = true.
Proof.
  apply (AttributeSelector.iterate_yields_selected director_selector);
    reflexivity.
Defined.

Lemma add_least_upper_bound_witness :
  ∃ R,
    AttributeSelector.add movie_selector director_selector
    = AttributeSelector.Ok R
    ∧ AttributeSelector.includes whole_selector R = true.
Proof.
  apply (AttributeSelector.add_least_upper_bound movie_selector
           director_selector whole_selector); reflexivity.
Defined.

Lemma add_commutative_witness :
  ∃ R R',
    AttributeSelector.add movie_selector director_selector
    = AttributeSelector.Ok R
    ∧ AttributeSelector.add director_selector movie_selector
      = AttributeSelector.Ok R'
    ∧ AttributeSelector.isEqual R R' = true.
Proof.
  apply (AttributeSelector.add_commutative movie_selector director_selector);
    reflexivity.
Defined.

Lemma add_associative_witness :
  ∃ AB BC L R,
    AttributeSelector.add title_selector name_selector
    = AttributeSelector.Ok AB
    ∧ AttributeSelector.add AB director_selector = AttributeSelector.Ok L
    ∧ AttributeSelector.add name_selector director_selector
      = AttributeSelector.Ok BC
    ∧ AttributeSelector.add title_selector BC = AttributeSelector.Ok R
    ∧ AttributeSelector.isEqual L R = true.
Proof.
  apply (AttributeSelector.add_associative title_selector name_selector
           director_selector); reflexivity.
Defined.

Lemma add_absorbs_iff_includes_witness :
  ∃ R,
    AttributeSelector.add movie_selector name_selector = AttributeSelector.Ok R
    ∧ (AttributeSelector.isEqual R movie_selector = true
       ↔ AttributeSelector.includes movie_selector name_selector = true).
Proof.
  apply (AttributeSelector.add_absorbs_iff_includes movie_selector
           name_selector); reflexivity.
Defined.

Lemma remove_result_included_witness :
  AttributeSelector.includes movie_selector title_selector = true.
Proof.
  apply (AttributeSelector.remove_result_included movie_selector
           director_selector title_selector); reflexivity.
Defined.

Lemma remove_leaves_nothing_of_removed_witness :
  AttributeSelector.selects_nothing
    (AttributeSelector.SObject {[ "year" := AttributeSelector.SBool false ]})
  = true.
Proof.
  apply (AttributeSelector.remove_leaves_nothing_of_removed movie_selector
           director_selector title_selector); reflexivity.
Defined.

Lemma remove_then_add_covers_witness :
  ∃ S,
    AttributeSelector.add title_selector director_selector
    = AttributeSelector.Ok S
    ∧ AttributeSelector.includes S movie_selector = true.
Proof.
  apply (AttributeSelector.remove_then_add_covers movie_selector
           director_selector title_selector); reflexivity.
Defined.

Lemma remove_superset_selects_nothing_witness :
  ∃ R,
    AttributeSelector.remove movie_selector whole_selector
    = AttributeSelector.Ok R
    ∧ AttributeSelector.selects_nothing R = true.
Proof.
  apply (AttributeSelector.remove_superset_selects_nothing movie_selector
           whole_selector); reflexivity.
Defined.

Lemma pick_object_properties_witness :
  ∃ result,
    picked_movie = AttributeSelector.VObject result
    ∧ ∀ name,
        match ({[ "title" := AttributeSelector.SBool true;
                  "director" := AttributeSelector.SObject
                                  {[ "name" := AttributeSelector.SBool true ]} ]}
                 : gmap string AttributeSelector.Selector) !! name with
        | Some sub =>
            ∃ value,
              AttributeSelector.pick
                (AttributeSelector.value_prop
                   {[ "title" := AttributeSelector.VString "Inception";
                      "year" := AttributeSelector.VNumber 2010;
                      "director" :=
                        AttributeSelector.VObject
                          {[ "name" := AttributeSelector.VString "Nolan";
                             "born" := AttributeSelector.VNumber 1970 ]} ]}
                   name) sub with_year
              = AttributeSelector.Returns value
              ∧ result !! name = Some value
        | None =>
            result !! name =
              if decide (name ∈ ["year"])
              then ({[ "title" := AttributeSelector.VString "Inception";
                       "year" := AttributeSelector.VNumber 2010;
                       "director" :=
                         AttributeSelector.VObject
                           {[ "name" := AttributeSelector.VString "Nolan";
                              "born" := AttributeSelector.VNumber 1970 ]} ]}
                      : gmap string AttributeSelector.Value) !! name
              else None
        end.
Proof.
  apply (AttributeSelector.pick_object_properties _ movie_selector with_year);
    [reflexivity | by apply (bool_decide_unpack _) | reflexivity..].
Defined.

Lemma pick_idempotent_witness :
  AttributeSelector.pick picked_movie movie_selector with_year
  = AttributeSelector.Returns picked_movie.
Proof.
  apply (AttributeSelector.pick_idempotent movie);
    [reflexivity | by apply (bool_decide_unpack _) | reflexivity].
Defined.

Lemma pick_after_pick_witness :
  AttributeSelector.pick
    (AttributeSelector.VObject
       {[ "title" := AttributeSelector.VString "Inception";
          "director" := AttributeSelector.VObject
                          {[ "name" := AttributeSelector.VString "Nolan" ]} ]})
    name_selector without_names
  = AttributeSelector.pick movie name_selector without_names.
Proof.
  apply (AttributeSelector.pick_after_pick movie _ movie_selector);
    reflexivity.
Defined.

(* ===================================================================== *)
(** ** ComponentClient *)
(* ===================================================================== *)

Module ComponentClient.

(** Errors thrown on the client side. *)
Inductive Error : Type :=
| RemoteError (message : string)
| TransportError (message : string)
| VersionMismatch (clientVersion : option Z) (serverVersion : Z)
| TypeError (message : string).

(** How a call completes: it returns a value or throws. *)
Inductive Completion (A : Type) : Type :=
| Normal (a : A)
| Throws (e : Error).
Arguments Normal {A} a.
Arguments Throws {A} e.

Section Client.

(** Component classes and instances, compared by identity.  The classes
    and instances of an application are finitely many. *)
Context {Component : Type} `{Finite Component}.

(** JavaScript values: queries, serialized payloads, deserialized results. *)
#[warnings="-register-all"]
Inductive Value : Type :=
| VUndefined
| VNull
| VBool (b : bool)
| VNumber (n : Z)
| VString (s : string)
| VArray (items : list Value)
| VObject (properties : list (string * Value))
| VComponent (c : Component).

(** *** The attribute filter of [_serializeQuery] *)

Context {Attribute RemoteComponent RemoteAttribute : Type}.
Variable getRemoteComponent : Component → option RemoteComponent.
Variable getName : Attribute → string.
Variable hasAttribute : RemoteComponent → string → bool.
Variable getAttribute : RemoteComponent → string → RemoteAttribute.
Variable operationIsAllowed : RemoteAttribute → string → bool.

(** [attributeFilter], called with [this] bound to the owning component:
    exclude properties that cannot be set in the remote components. *)
Definition attributeFilter (this : Component) (attribute : Attribute) : bool :=
  match getRemoteComponent this with
  | None => false
  | Some remoteComponent =>
      let attributeName := getName attribute in
      let remoteAttribute :=
        if hasAttribute remoteComponent attributeName
        then Some (getAttribute remoteComponent attributeName)
        else None in
      match remoteAttribute with
      | None => false
      | Some remoteAttribute => operationIsAllowed remoteAttribute "set"
      end
  end.

(** *** Serialization of a query and of its component dependencies *)

(** The options [_serializeQuery] passes to the serializer.  The
    [componentDependencies] set it also passes is filled by the serializer;
    here the serializer returns the components it adds, in order. *)
Record SerializeOptions : Type := {
  opt_attributeFilter : Component → Attribute → bool;
  opt_ignoreEmptyComponents : bool;
  opt_target : nat
}.

(** The state of the components, which the serializer reads and the
    deserializer and the server update. *)
Context {Env : Type}.

(** [serialize(query, options)] of the component package: the serialized
    value and the components added to [options.componentDependencies]. *)
Variable serialize : Env → Value → SerializeOptions → Value * list Component.

(** [componentDependency.serialize(options)]: the serialized component, or
    [undefined] for an empty one under [ignoreEmptyComponents], and the
    components added to [options.componentDependencies]. *)
Variable component_serialize :
  Env → Component → SerializeOptions → option Value * list Component.

(** A JavaScript [Set] of components: insertion-ordered, without
    duplicates. *)
Definition ComponentSet : Type := list Component.

Definition Set_add (s : ComponentSet) (c : Component) : ComponentSet :=
  if decide (c ∈ s) then s else s ++ [c].

Definition Set_has (s : ComponentSet) (c : Component) : bool :=
  bool_decide (c ∈ s).

Definition Set_addAll (s : ComponentSet) (cs : list Component) : ComponentSet :=
  foldl Set_add s cs.

(** The two variables captured by [serializeComponentDependencies]. *)
Record DependencyState : Type := {
  serializedComponentDependencies : option (list Value);
  handledComponentDependencies : ComponentSet
}.

Definition queryOptions : SerializeOptions :=
  {| opt_attributeFilter := attributeFilter;
     opt_ignoreEmptyComponents := false;
     opt_target := 1 |}.

Definition dependencyOptions : SerializeOptions :=
  {| opt_attributeFilter := attributeFilter;
     opt_ignoreEmptyComponents := true;
     opt_target := 1 |}.

(** One iteration of the [for] loop over [componentDependencies]; the
    second component of the state is [additionalComponentDependency]. *)
Definition handleDependency (env : Env)
    (state : DependencyState * ComponentSet)
    (componentDependency : Component) : DependencyState * ComponentSet :=
  if Set_has (handledComponentDependencies state.1) componentDependency
  then state
  else
    let serializedComponentDependency :=
      (component_serialize env componentDependency dependencyOptions).1 in
    let added :=
      (component_serialize env componentDependency dependencyOptions).2 in
    ({| serializedComponentDependencies :=
          match serializedComponentDependency with
          | Some serialized =>
              Some (default [] (serializedComponentDependencies state.1)
                    ++ [serialized])
          | None => serializedComponentDependencies state.1
          end;
        handledComponentDependencies :=
          Set_add (handledComponentDependencies state.1) componentDependency |},
     Set_addAll state.2 added).

(** Components not handled yet. *)
Definition unhandled (handled : ComponentSet) : nat :=
  length (filter (λ c, c ∉ handled) (enum Component)).

Definition closure_measure (handled componentDependencies : ComponentSet) : nat :=
  2 * unhandled handled + (if componentDependencies is [] then 0 else 1).

Lemma filter_length_le (P Q : Component → Prop)
    `{!∀ x, Decision (P x)} `{!∀ x, Decision (Q x)} (l : list Component) :
  (∀ y, Q y → P y) → length (filter Q l) ≤ length (filter P l).
Proof.
  intros HQP. induction l as [|y l IH]; [done|]. rewrite !filter_cons.
  destruct (decide (Q y)) as [HQ|HQ], (decide (P y)) as [HP|HP];
    simpl; try lia.
  by destruct HP; apply HQP.
Qed.

Lemma filter_length_lt (P Q : Component → Prop)
    `{!∀ x, Decision (P x)} `{!∀ x, Decision (Q x)} (l : list Component) x :
  (∀ y, Q y → P y) → x ∈ l → P x → ¬ Q x →
  length (filter Q l) < length (filter P l).
Proof.
  intros HQP Hin HP HQ. induction l as [|y l IH]; [by apply elem_of_nil in Hin|].
  rewrite !filter_cons. pose proof (filter_length_le P Q l HQP) as Hle.
  apply elem_of_cons in Hin as [<-|Hin].
  - rewrite decide_False, decide_True by done. simpl. lia.
  - specialize (IH Hin).
    destruct (decide (Q y)) as [HQy|HQy], (decide (P y)) as [HPy|HPy];
      simpl; try lia.
    by destruct HPy; apply HQP.
Qed.

Lemma unhandled_add handled c :
  c ∉ handled → unhandled (Set_add handled c) < unhandled handled.
Proof.
  intros Hc. unfold unhandled, Set_add. rewrite decide_False by done.
  apply (filter_length_lt _ _ _ c).
  - intros y Hy Hin. apply Hy. apply elem_of_app. by left.
  - apply elem_of_enum.
  - done.
  - intros Hn. apply Hn. apply elem_of_app. right. by apply list_elem_of_singleton.
Qed.

Lemma handleDependency_cases env state c :
  handleDependency env state c = state
  ∨ unhandled (handledComponentDependencies (handleDependency env state c).1)
    < unhandled (handledComponentDependencies state.1).
Proof.
  unfold handleDependency, Set_has. case_bool_decide; [by left|right].
  simpl. by apply unhandled_add.
Qed.

Lemma foldl_handleDependency_cases env deps state :
  foldl (handleDependency env) state deps = state
  ∨ unhandled (handledComponentDependencies
                 (foldl (handleDependency env) state deps).1)
    < unhandled (handledComponentDependencies state.1).
Proof.
  revert state. induction deps as [|c deps IH]; intros state; [by left|].
  simpl. destruct (handleDependency_cases env state c) as [->|Hlt]; [done|].
  right. destruct (IH (handleDependency env state c)) as [->|Hlt']; lia.
Qed.

Lemma closure_measure_decreases env st c deps :
  closure_measure
    (handledComponentDependencies
       (foldl (handleDependency env) (st, []) (c :: deps)).1)
    (foldl (handleDependency env) (st, []) (c :: deps)).2
  < closure_measure (handledComponentDependencies st) (c :: deps).
Proof.
  unfold closure_measure.
  destruct (foldl_handleDependency_cases env (c :: deps) (st, [])) as [->|Hlt].
  - simpl. lia.
  - change ((st, @nil Component).1) with st in Hlt. case_match; lia.
Qed.

(** [serializeComponentDependencies(componentDependencies)]: return on an
    empty set; otherwise serialize every dependency not handled yet,
    collecting the dependencies of those, and recurse on the collected
    set. *)
Equations? serializeComponentDependencies (env : Env)
    (componentDependencies : ComponentSet) (st : DependencyState)
    : DependencyState
    by wf (closure_measure (handledComponentDependencies st)
             componentDependencies) lt :=
serializeComponentDependencies env [] st := st;
serializeComponentDependencies env (c :: cs) st :=
  serializeComponentDependencies env
    (foldl (handleDependency env) (st, []) (c :: cs)).2
    (foldl (handleDependency env) (st, []) (c :: cs)).1.
Proof. apply closure_measure_decreases. Qed.

(** [_serializeQuery(query)] *)
Definition _serializeQuery (env : Env) (query : Value)
    : Value * option (list Value) :=
  let componentDependencies :=
    Set_addAll [] (serialize env query queryOptions).2 in
  let serializedQuery := (serialize env query queryOptions).1 in
  let final :=
    serializeComponentDependencies env componentDependencies
      {| serializedComponentDependencies := None;
         handledComponentDependencies := [] |} in
  (serializedQuery, serializedComponentDependencies final).

(** *** Requests, responses and the effects of a run *)

(** The request given to [componentServer.receive]:
    [{query, components?, version}]. *)
Record Request : Type := {
  query : Value;
  components : option (list Value);
  version : option Z
}.

(** The response of [componentServer.receive]: [{result, components}]. *)
Record Response : Type := {
  result : Value;
  responseComponents : Value
}.

(** The options a caller gives to [send]: [{rootComponent?}]. *)
Record SendOptions : Type := { rootComponent : option Component }.

(** The options the client gives to [deserialize]. *)
Record DeserializeOptions : Type := {
  d_rootComponent : option Component;
  d_deserializeFunctions : bool;
  d_errorHandler : Error → Completion Value;
  d_source : nat
}.

(** An operation queued in the microbatcher: the parameters of the
    [send] call and the promise that [resolve] and [reject] settle. *)
Record SendOperation : Type := {
  params : Value * SendOptions;
  promise : nat
}.

(** The calls a run makes to its collaborators, and the promises it
    settles, in order. *)
Inductive Event : Type :=
| Receive (request : Request)
| Deserialize (serialized : Value) (options : DeserializeOptions)
| Resolve (p : nat) (value : Value)
| Reject (p : nat) (error : Error).

(** Modelled from the spec: the [microbatcher] package, an external
    dependency of which the client uses [new Microbatcher(runner)] and
    [batch(...params)].  It keeps the queue of pending operations, each
    with a fresh promise; at the end of the tick the whole queue is
    handed to the runner in one call (see [flush]). *)
Record Microbatcher : Type := {
  operations : list SendOperation;
  nextPromise : nat
}.

Record World : Type := {
  env : Env;
  _sendBatcher : option Microbatcher;
  trace : list Event
}.

(** Client code: it runs in a world, changes it, and returns or throws.
    A [possiblyAsync] continuation and an [await] both sequence. *)
Definition Client (A : Type) : Type := World → World * Completion A.

#[global] Instance Client_ret : MRet Client := λ A a w, (w, Normal a).

#[global] Instance Client_bind : MBind Client := λ A B k m w,
  match m w with
  | (w', Normal a) => k a w'
  | (w', Throws e) => (w', Throws e)
  end.

Definition throw {A} (e : Error) : Client A := λ w, (w, Throws e).

Definition completion {A} (c : Completion A) : Client A := λ w, (w, c).

(** [try { body } catch (error) { handler(error) }] *)
Definition try_catch {A} (body : Client A) (handler : Error → Client A)
    : Client A := λ w,
  match body w with
  | (w', Normal a) => (w', Normal a)
  | (w', Throws e) => handler e w'
  end.

Definition emit (ev : Event) : Client unit := λ w,
  ({| env := env w; _sendBatcher := _sendBatcher w;
      trace := trace w ++ [ev] |}, Normal tt).

(** [this._componentServer.receive(request)]: the transport. *)
Variable receive : Env → Request → Env * Completion Response.

(** [deserialize(value, options)] of the component package: it updates
    the components and returns the deserialized value, or throws what the
    error handler throws. *)
Variable deserialize :
  Env → Value → DeserializeOptions → Env * Completion Value.

(** [this._version] *)
Variable _version : option Z.

Variable ensureComponentClass : Component → Component.

Definition componentServer_receive (request : Request) : Client Response :=
  λ w,
    ({| env := (receive (env w) request).1; _sendBatcher := _sendBatcher w;
        trace := trace w ++ [Receive request] |},
     (receive (env w) request).2).

Definition call_deserialize (serialized : Value) (options : DeserializeOptions)
    : Client Value :=
  λ w,
    ({| env := (deserialize (env w) serialized options).1;
        _sendBatcher := _sendBatcher w;
        trace := trace w ++ [Deserialize serialized options] |},
     (deserialize (env w) serialized options).2).

Definition call_serializeQuery (q : Value)
    : Client (Value * option (list Value)) :=
  λ w, (w, Normal (_serializeQuery (env w) q)).

Definition resolve (operation : SendOperation) (value : Value) : Client unit :=
  emit (Resolve (promise operation) value).

Definition reject (operation : SendOperation) (error : Error) : Client unit :=
  emit (Reject (promise operation) error).

(** [const errorHandler = function (error) { throw error; }] *)
Definition errorHandler (error : Error) : Completion Value := Throws error.

Definition deserializeOptions (root : option Component) : DeserializeOptions :=
  {| d_rootComponent := root;
     d_deserializeFunctions := true;
     d_errorHandler := errorHandler;
     d_source := 1 |}.

(** [_sendOne(query, options)] *)
Definition _sendOne (q : Value) (options : SendOptions) : Client Value :=
  serialized ← call_serializeQuery q;
  response ← componentServer_receive
               {| query := serialized.1;
                  components := serialized.2;
                  version := _version |};
  call_deserialize (responseComponents response)
    (deserializeOptions (rootComponent options));;
  call_deserialize (result response)
    (deserializeOptions (rootComponent options)).

(** Property lookup in a plain object. *)
Fixpoint property (name : string) (properties : list (string * Value))
    : option Value :=
  match properties with
  | [] => None
  | (key, value) :: rest =>
      if decide (key = name) then Some value else property name rest
  end.

(** [(serializedResponse.result as unknown[])[index]]: an element of an
    array, [undefined] past its end; reading a property of [undefined] or
    [null] throws. *)
Definition at_index (serializedResult : Value) (index : nat)
    : Completion Value :=
  match serializedResult with
  | VArray items => Normal (default VUndefined (items !! index))
  | VUndefined | VNull =>
      Throws (TypeError "Cannot read properties of undefined")
  | VObject properties =>
      Normal (default VUndefined (property (pretty index) properties))
  | VString s =>
      Normal (match String.get index s with
              | Some ch => VString (String ch EmptyString)
              | None => VUndefined
              end)
  | _ => Normal VUndefined
  end.

(** The [for] loop of [_sendMany], from [index] on. *)
Fixpoint distribute (serializedResults : Value) (index : nat)
    (remaining : list SendOperation) : Client unit :=
  match remaining with
  | [] => mret tt
  | operation :: rest =>
      serializedResult ← completion (at_index serializedResults index);
      try_catch
        (value ← call_deserialize serializedResult
                   (deserializeOptions (rootComponent (params operation).2));
         resolve operation value)
        (λ error, reject operation error);;
      distribute serializedResults (S index) rest
  end.

(** [_sendMany(operations)] *)
Definition _sendMany (ops : list SendOperation) : Client unit :=
  match ops with
  | [operation] =>
      try_catch
        (value ← _sendOne (params operation).1 (params operation).2;
         resolve operation value)
        (λ error, reject operation error)
  | _ =>
      let queries :=
        VObject [("||", VArray (map (λ operation, (params operation).1) ops))] in
      serialized ← call_serializeQuery queries;
      serializedResponse ← componentServer_receive
                             {| query := serialized.1;
                                components := serialized.2;
                                version := _version |};
      firstRootComponent ←
        match ops with
        | first :: _ => mret (rootComponent (params first).2)
        | [] => throw (TypeError "Cannot read properties of undefined")
        end;
      call_deserialize (responseComponents serializedResponse)
        (deserializeOptions firstRootComponent);;
      distribute (result serializedResponse) 0 ops
  end.

(** What [send] hands back to its caller: the value of [_sendOne], or the
    promise of the queued operation. *)
Inductive Sent : Type :=
| Immediate (value : Value)
| Pending (p : nat).

(** [batch(query, options)] of the microbatcher: queue the operation. *)
Definition batch (batcher : Microbatcher) (q : Value) (options : SendOptions)
    : Client Sent := λ w,
  ({| env := env w;
      _sendBatcher :=
        Some {| operations :=
                  operations batcher
                  ++ [{| params := (q, options);
                         promise := nextPromise batcher |}];
                nextPromise := S (nextPromise batcher) |};
      trace := trace w |},
   Normal (Pending (nextPromise batcher))).

(** [send(query, options)] *)
Definition send (q : Value) (options : SendOptions) : Client Sent := λ w,
  match _sendBatcher w with
  | Some batcher => batch batcher q options w
  | None => (value ← _sendOne q options; mret (Immediate value)) w
  end.

(** The proxy [_createMethodProxy(name)] builds, called on [this] with
    [args]. *)
Definition methodProxy (name : string) (this : Component) (args : list Value)
    : Client Sent :=
  send (VObject [("<=", VComponent this);
                 (name +:+ "=>", VObject [("()", VArray args)])])
       {| rootComponent := Some (ensureComponentClass this) |}.

(** A run that threw failed in its transport call when that call is the
    last one it made. *)
Definition transport_failed (events : list Event) : bool :=
  match last events with
  | Some (Receive _) => true
  | _ => false
  end.

(** Modelled from the spec: the end of a tick.  The microbatcher empties
    its queue and runs [_sendMany] on it, once.  When the transport call
    of the run fails, every caller of the batch receives that failure.
    Of any other failure of the run the specification says nothing for
    the callers: the operations the run has not settled stay pending. *)
Definition flush : Client unit := λ w,
  match _sendBatcher w with
  | Some batcher =>
      match operations batcher with
      | [] => (w, Normal tt)
      | ops =>
          try_catch (_sendMany ops)
            (λ error w',
               if transport_failed (trace w')
               then (mapM (λ operation, reject operation error) ops;;
                     mret tt) w'
               else (w', Normal tt))
            {| env := env w;
               _sendBatcher :=
                 Some {| operations := [];
                         nextPromise := nextPromise batcher |};
               trace := trace w |}
      end
  | None => (w, Normal tt)
  end.

(** How the promise [p] ended according to a trace: its first
    settlement counts. *)
Fixpoint settled (p : nat) (events : list Event) : option (Completion Value) :=
  match events with
  | [] => None
  | Resolve p' value :: rest =>
      if decide (p' = p) then Some (Normal value) else settled p rest
  | Reject p' error :: rest =>
      if decide (p' = p) then Some (Throws error) else settled p rest
  | _ :: rest => settled p rest
  end.

(** The requests of a trace, in order. *)
Definition requests (events : list Event) : list Request :=
  omap (λ ev, match ev with Receive request => Some request | _ => None end)
       events.

(** The [deserialize] calls of a trace, in order: what was deserialized
    against which root component. *)
Definition deserializations (events : list Event)
    : list (Value * option Component) :=
  omap (λ ev, match ev with
              | Deserialize serialized options =>
                  Some (serialized, d_rootComponent options)
              | _ => None
              end) events.

(** The outcomes of deserializing the results of a batch one after the
    other, by index, each against the root component of its own
    operation. *)
Fixpoint outcomes_in_turn (e : Env) (serializedResults : list Value)
    (index : nat) (remaining : list SendOperation)
    : list (Completion Value) :=
  match remaining with
  | [] => []
  | operation :: rest =>
      let serializedResult := default VUndefined (serializedResults !! index) in
      let options := deserializeOptions (rootComponent (params operation).2) in
      (deserialize e serializedResult options).2
      :: outcomes_in_turn (deserialize e serializedResult options).1
           serializedResults (S index) rest
  end.

(** The settlement of an operation that completed with [c]. *)
Definition settle (operation : SendOperation) (c : Completion Value) : Event :=
  match c with
  | Normal value => Resolve (promise operation) value
  | Throws error => Reject (promise operation) error
  end.

(** The events of the [for] loop of [_sendMany] over an array of results:
    one [deserialize] call and one settlement for each operation. *)
Fixpoint distribute_events (e : Env) (serializedResults : list Value)
    (index : nat) (remaining : list SendOperation) : list Event :=
  match remaining with
  | [] => []
  | operation :: rest =>
      let serializedResult := default VUndefined (serializedResults !! index) in
      let options := deserializeOptions (rootComponent (params operation).2) in
      Deserialize serializedResult options
      :: settle operation (deserialize e serializedResult options).2
      :: distribute_events (deserialize e serializedResult options).1
           serializedResults (S index) rest
  end.

Fixpoint distribute_env (e : Env) (serializedResults : list Value)
    (index : nat) (remaining : list SendOperation) : Env :=
  match remaining with
  | [] => e
  | operation :: rest =>
      distribute_env
        (deserialize e (default VUndefined (serializedResults !! index))
           (deserializeOptions (rootComponent (params operation).2))).1
        serializedResults (S index) rest
  end.

(** The request of a batch. *)
Definition batchRequest (e : Env) (ops : list SendOperation) : Request :=
  let queries :=
    VObject [("||", VArray (map (λ operation, (params operation).1) ops))] in
  {| query := (_serializeQuery e queries).1;
     components := (_serializeQuery e queries).2;
     version := _version |}.

(** The request of a single send. *)
Definition singleRequest (e : Env) (q : Value) : Request :=
  {| query := (_serializeQuery e q).1;
     components := (_serializeQuery e q).2;
     version := _version |}.

(** The pending operations of a world. *)
Definition pending (w : World) : list SendOperation :=
  match _sendBatcher w with
  | Some batcher => operations batcher
  | None => []
  end.

(** Modelled from the spec: [ComponentServer.receive], which is not among
    the sources.  The server compares the [version] of a request with its
    own and rejects a mismatch before it processes the query; [handle]
    stands for that processing (deserializing the query and invoking the
    remote method). *)
Definition ComponentServer_receive (serverVersion : Z)
    (handle : Env → Request → Env * Completion Response)
    (e : Env) (request : Request) : Env * Completion Response :=
  match version request with
  | Some clientVersion =>
      if decide (clientVersion = serverVersion)
      then handle e request
      else (e, Throws (VersionMismatch (Some clientVersion) serverVersion))
  | None => handle e request
  end.

(** **** The dependency closure *)

(** [c] is a dependency of a query whose serialization registers [roots]:
    one of [roots], or a component registered by the serialization of a
    dependency. *)
Inductive depends_on (env : Env) (roots : list Component) : Component → Prop :=
| depends_root c : c ∈ roots → depends_on env roots c
| depends_step c d :
    depends_on env roots c →
    d ∈ (component_serialize env c dependencyOptions).2 →
    depends_on env roots d.

(** The entries the components of [order] contribute, in order: one for
    each component whose serialization is not [undefined]. *)
Definition entries_of (env : Env) (order : list Component) : list Value :=
  omap (λ c, (component_serialize env c dependencyOptions).1) order.

(** [serializedComponentDependencies] is only created by the first
    [push]. *)
Definition nonempty (entries : list Value) : option (list Value) :=
  if entries is [] then None else Some entries.

Record closure_inv (env : Env) (roots : list Component)
    (st : DependencyState) (pending : list Component) : Prop := {
  inv_nodup : NoDup (handledComponentDependencies st);
  inv_entries :
    serializedComponentDependencies st
    = nonempty (entries_of env (handledComponentDependencies st));
  inv_closed : ∀ c d,
    c ∈ handledComponentDependencies st →
    d ∈ (component_serialize env c dependencyOptions).2 →
    d ∈ handledComponentDependencies st ∨ d ∈ pending;
  inv_sound : ∀ c,
    c ∈ handledComponentDependencies st ∨ c ∈ pending →
    depends_on env roots c;
  inv_roots : ∀ c,
    c ∈ roots → c ∈ handledComponentDependencies st ∨ c ∈ pending
}.

Lemma elem_of_Set_add s c x : x ∈ Set_add s c ↔ x ∈ s ∨ x = c.
Proof. unfold Set_add. case_decide; set_solver. Qed.

Lemma elem_of_Set_addAll cs : ∀ s x, x ∈ Set_addAll s cs ↔ x ∈ s ∨ x ∈ cs.
Proof.
  unfold Set_addAll. induction cs as [|c cs IH]; intros s x; simpl.
  - set_solver.
  - rewrite IH, elem_of_Set_add. set_solver.
Qed.

Lemma NoDup_Set_add s c : NoDup s → NoDup (Set_add s c).
Proof.
  intros Hs. unfold Set_add. case_decide; [done|].
  apply NoDup_app. split_and!; [done| |apply NoDup_singleton].
  intros x Hx ->%list_elem_of_singleton. done.
Qed.

Lemma default_nonempty entries : default [] (nonempty entries) = entries.
Proof. by destruct entries. Qed.

Lemma handleDependency_inv env roots state x todo :
  closure_inv env roots state.1 (x :: todo ++ state.2) →
  closure_inv env roots (handleDependency env state x).1
    (todo ++ (handleDependency env state x).2).
Proof.
  destruct state as [st additional].
  intros [Hnd Hent Hcl Hsound Hroots]. simpl in Hnd, Hent, Hcl, Hsound, Hroots.
  unfold handleDependency, Set_has. simpl fst. simpl snd.
  case_bool_decide as Hx.
  - split; [done..| | |].
    + intros c d Hc Hd. destruct (Hcl c d Hc Hd) as [?|Hin]; [by left|].
      apply elem_of_cons in Hin as [->|?]; [by left|by right].
    + intros c [Hc|Hc]; apply Hsound; [by left|]. right. by apply elem_of_cons; right.
    + intros c Hc. destruct (Hroots c Hc) as [?|Hin]; [by left|].
      apply elem_of_cons in Hin as [->|?]; [by left|by right].
  - simpl. split; simpl.
    + by apply NoDup_Set_add.
    + unfold Set_add. rewrite decide_False by done.
      unfold entries_of. rewrite omap_app. simpl.
      rewrite Hent, default_nonempty.
      fold (entries_of env (handledComponentDependencies st)).
      destruct (component_serialize env x dependencyOptions).1 as [v|]; simpl.
      * by destruct (entries_of env (handledComponentDependencies st)).
      * by rewrite app_nil_r.
    + intros c d [Hc| ->]%elem_of_Set_add Hd.
      * destruct (Hcl c d Hc Hd) as [?|Hin].
        { left. apply elem_of_Set_add. by left. }
        apply elem_of_cons in Hin as [->|Hin].
        { left. apply elem_of_Set_add. by right. }
        right. apply elem_of_app in Hin as [?|?]; apply elem_of_app; [by left|].
        right. apply elem_of_Set_addAll. by left.
      * right. apply elem_of_app. right. apply elem_of_Set_addAll. by right.
    + intros c [[Hc| ->]%elem_of_Set_add | Hc].
      * apply Hsound. by left.
      * apply Hsound. right. by apply elem_of_cons; left.
      * apply elem_of_app in Hc as [Hc|[Hc|Hc]%elem_of_Set_addAll].
        -- apply Hsound. right. apply elem_of_cons. right. apply elem_of_app. by left.
        -- apply Hsound. right. apply elem_of_cons. right. apply elem_of_app. by right.
        -- eapply depends_step; [|exact Hc]. apply Hsound. right.
           by apply elem_of_cons; left.
    + intros c Hc. destruct (Hroots c Hc) as [?|Hin].
      { left. apply elem_of_Set_add. by left. }
      apply elem_of_cons in Hin as [->|Hin].
      { left. apply elem_of_Set_add. by right. }
      right. apply elem_of_app in Hin as [?|?]; apply elem_of_app; [by left|].
      right. apply elem_of_Set_addAll. by left.
Qed.

Lemma foldl_handleDependency_inv env roots todo :
  ∀ state,
    closure_inv env roots state.1 (todo ++ state.2) →
    closure_inv env roots (foldl (handleDependency env) state todo).1
      (foldl (handleDependency env) state todo).2.
Proof.
  induction todo as [|x todo IH]; intros state Hinv; [done|].
  simpl. apply IH. by apply handleDependency_inv.
Qed.

Lemma serializeComponentDependencies_inv env roots componentDependencies st :
  closure_inv env roots st componentDependencies →
  closure_inv env roots
    (serializeComponentDependencies env componentDependencies st) [].
Proof.
  funelim (serializeComponentDependencies env componentDependencies st);
    intros Hinv; [done|].
  apply H0. apply foldl_handleDependency_inv. simpl fst. simpl snd.
  by rewrite app_nil_r.
Qed.

Lemma closure_inv_complete env roots st :
  closure_inv env roots st [] →
  ∀ c, c ∈ handledComponentDependencies st ↔ depends_on env roots c.
Proof.
  intros [_ _ Hcl Hsound Hroots] c. split; [intros; apply Hsound; by left|].
  induction 1 as [c Hc|c d _ IH Hd].
  - destruct (Hroots c Hc) as [?|Hin]; [done|]. by apply elem_of_nil in Hin.
  - destruct (Hcl c d IH Hd) as [?|Hin]; [done|]. by apply elem_of_nil in Hin.
Qed.

(** C1, as the code has it.  [_serializeQuery] returns the serialized
    query, and its [serializedComponents] are the entries of a
    duplicate-free enumeration of exactly the dependencies of the query
    (the components its serialization registers and, transitively, those
    their own serializations register): every dependency is serialized
    once, however often it is referenced, and contributes one entry, or
    none when it serializes to [undefined]; without any entry the list
    itself is [undefined].  The traversal always ends. *)
Theorem serializeQuery_dependency_closure (env : Env) (query : Value) :
  ∃ order : list Component,
    NoDup order
    ∧ (∀ c, c ∈ order ↔ depends_on env (serialize env query queryOptions).2 c)
    ∧ (_serializeQuery env query).2 = nonempty (entries_of env order)
    ∧ (_serializeQuery env query).1 = (serialize env query queryOptions).1.
Proof.
  unfold _serializeQuery. simpl.
  set (roots := (serialize env query queryOptions).2).
  set (st0 := {| serializedComponentDependencies := None;
                 handledComponentDependencies := [] |}).
  assert (Hinv : closure_inv env roots st0 (Set_addAll [] roots)).
  { split; simpl.
    - apply NoDup_nil_2.
    - done.
    - intros c d Hc. by apply elem_of_nil in Hc.
    - intros c [Hc|Hc]; [by apply elem_of_nil in Hc|].
      apply depends_root. apply elem_of_Set_addAll in Hc as [Hc|Hc]; [|done].
      by apply elem_of_nil in Hc.
    - intros c Hc. right. apply elem_of_Set_addAll. by right. }
  apply serializeComponentDependencies_inv in Hinv.
  exists (handledComponentDependencies
            (serializeComponentDependencies env (Set_addAll [] roots) st0)).
  split; [apply Hinv|]. split; [by apply closure_inv_complete|].
  split; [apply Hinv|done].
Qed.

(** *** Sending *)

Ltac client_unfold :=
  unfold mbind, mret, Client_bind, Client_ret, try_catch, completion, throw,
    resolve, reject, emit, componentServer_receive, call_deserialize,
    call_serializeQuery.

Lemma sendOne_run q options w :
  _sendOne q options w =
    let request := singleRequest (env w) q in
    let root := deserializeOptions (rootComponent options) in
    match (receive (env w) request).2 with
    | Throws error =>
        ({| env := (receive (env w) request).1; _sendBatcher := _sendBatcher w;
            trace := trace w ++ [Receive request] |}, Throws error)
    | Normal response =>
        let e1 := (receive (env w) request).1 in
        let components := deserialize e1 (responseComponents response) root in
        match components.2 with
        | Throws error =>
            ({| env := components.1; _sendBatcher := _sendBatcher w;
                trace := trace w ++ [Receive request;
                                     Deserialize (responseComponents response) root] |},
             Throws error)
        | Normal _ =>
            ({| env := (deserialize components.1 (result response) root).1;
                _sendBatcher := _sendBatcher w;
                trace := trace w ++ [Receive request;
                                     Deserialize (responseComponents response) root;
                                     Deserialize (result response) root] |},
             (deserialize components.1 (result response) root).2)
        end
    end.
Proof.
  unfold _sendOne, singleRequest. client_unfold. simpl.
  destruct (receive (env w) _) as [e1 [response|error]]; simpl; [|done].
  destruct (deserialize e1 (responseComponents response) _) as [e2 [v|error]];
    simpl; by rewrite <- ?app_assoc.
Qed.

Lemma distribute_array serializedResults ops :
  ∀ index w,
    distribute (VArray serializedResults) index ops w =
      ({| env := distribute_env (env w) serializedResults index ops;
          _sendBatcher := _sendBatcher w;
          trace := trace w
                   ++ distribute_events (env w) serializedResults index ops |},
       Normal tt).
Proof.
  induction ops as [|operation rest IH]; intros index w.
  - simpl. rewrite app_nil_r. by destruct w.
  - simpl. client_unfold. simpl.
    destruct (deserialize (env w) _ _) as [e' [v|error]]; simpl;
      rewrite IH; simpl; by rewrite <- !app_assoc.
Qed.

Lemma sendMany_batch_run op0 op1 rest w :
  _sendMany (op0 :: op1 :: rest) w =
    match receive (env w) (batchRequest (env w) (op0 :: op1 :: rest)) with
    | (e1, Throws error) =>
        ({| env := e1; _sendBatcher := _sendBatcher w;
            trace := trace w
                     ++ [Receive (batchRequest (env w) (op0 :: op1 :: rest))] |},
         Throws error)
    | (e1, Normal response) =>
        match deserialize e1 (responseComponents response)
                (deserializeOptions (rootComponent (params op0).2)) with
        | (e2, Throws error) =>
            ({| env := e2; _sendBatcher := _sendBatcher w;
                trace := trace w
                         ++ [Receive (batchRequest (env w) (op0 :: op1 :: rest));
                             Deserialize (responseComponents response)
                               (deserializeOptions
                                  (rootComponent (params op0).2))] |},
             Throws error)
        | (e2, Normal _) =>
            distribute (result response) 0 (op0 :: op1 :: rest)
              {| env := e2; _sendBatcher := _sendBatcher w;
                 trace := trace w
                          ++ [Receive (batchRequest (env w) (op0 :: op1 :: rest));
                              Deserialize (responseComponents response)
                                (deserializeOptions
                                   (rootComponent (params op0).2))] |}
        end
    end.
Proof.
  unfold _sendMany, batchRequest. client_unfold.
  cbn -[distribute _serializeQuery].
  destruct (receive (env w) _) as [e1 [response|error]];
    cbn -[distribute _serializeQuery]; [|done].
  destruct (deserialize e1 (responseComponents response) _) as [e2 [v|error]];
    cbn -[distribute _serializeQuery]; by rewrite <- ?app_assoc.
Qed.

Lemma settled_distribute_events serializedResults ops :
  ∀ e index i operation,
    NoDup (promise <$> ops) →
    ops !! i = Some operation →
    settled (promise operation)
      (distribute_events e serializedResults index ops)
    = outcomes_in_turn e serializedResults index ops !! i.
Proof.
  induction ops as [|first rest IH]; intros e index i operation Hnd Hi; [done|].
  apply NoDup_cons in Hnd as [Hfirst Hnd]. simpl.
  destruct i as [|i]; simpl in *.
  - injection Hi as ->. unfold settle.
    destruct (deserialize e _ _).2; simpl; by rewrite decide_True.
  - assert (promise first ≠ promise operation) as Hne.
    { intros Heq. apply Hfirst. rewrite Heq.
      apply list_elem_of_fmap. exists operation. split; [done|].
      by eapply list_elem_of_lookup_2. }
    unfold settle at 1.
    destruct (deserialize e _ _).2; simpl; rewrite decide_False by done;
      by apply IH.
Qed.

Lemma outcomes_in_turn_lookup serializedResults ops :
  ∀ e index i operation,
    ops !! i = Some operation →
    ∃ ei,
      outcomes_in_turn e serializedResults index ops !! i
      = Some (deserialize ei
                (default VUndefined (serializedResults !! (index + i)))
                (deserializeOptions (rootComponent (params operation).2))).2.
Proof.
  induction ops as [|first rest IH]; intros e index i operation Hi; [done|].
  destruct i as [|i]; simpl in *.
  - injection Hi as ->. exists e. by rewrite Nat.add_0_r.
  - destruct (IH (deserialize e (default VUndefined (serializedResults !! index))
                    (deserializeOptions (rootComponent (params first).2))).1
                (S index) i operation Hi) as [ei Hei].
    exists ei. rewrite Hei. by replace (S index + i) with (index + S i) by lia.
Qed.

Lemma requests_app events events' :
  requests (events ++ events') = requests events ++ requests events'.
Proof. apply omap_app. Qed.

Lemma deserializations_app events events' :
  deserializations (events ++ events')
  = deserializations events ++ deserializations events'.
Proof. apply omap_app. Qed.

Lemma requests_distribute_events serializedResults ops :
  ∀ e index, requests (distribute_events e serializedResults index ops) = [].
Proof.
  induction ops as [|first rest IH]; intros e index; [done|]. simpl.
  unfold settle. destruct (deserialize e _ _).2; simpl; apply IH.
Qed.

Lemma deserializations_distribute_events serializedResults ops :
  ∀ e index,
    deserializations (distribute_events e serializedResults index ops)
    = imap (λ i operation,
              (default VUndefined (serializedResults !! (index + i)),
               rootComponent (params operation).2)) ops.
Proof.
  induction ops as [|first rest IH]; intros e index; [done|]. simpl.
  rewrite Nat.add_0_r. unfold settle at 1.
  destruct (deserialize e _ _).2; simpl; rewrite IH; f_equal;
    apply imap_ext; intros i x _; unfold compose;
    by replace (S index + i) with (index + S i) by lia.
Qed.

(** Rejecting every operation of a batch. *)
Definition rejections (error : Error) (ops : list SendOperation) : list Event :=
  map (λ operation, Reject (promise operation) error) ops.

Lemma mapM_reject_run error ops :
  ∀ w, ∃ units,
    mapM (M := Client) (λ operation, reject operation error) ops w
    = ({| env := env w; _sendBatcher := _sendBatcher w;
          trace := trace w ++ rejections error ops |}, Normal units).
Proof.
  induction ops as [|first rest IH]; intros w.
  - exists []. simpl. client_unfold. rewrite app_nil_r. by destruct w.
  - destruct (IH {| env := env w; _sendBatcher := _sendBatcher w;
                    trace := trace w ++ [Reject (promise first) error] |})
      as [units Hrest].
    exists (tt :: units). simpl.
    unfold mbind, Client_bind, mret, Client_ret in Hrest |- *.
    unfold reject at 1, emit. simpl.
    rewrite Hrest. simpl. by rewrite <- app_assoc.
Qed.

Lemma rejectAll_run error ops w :
  (mapM (M := Client) (λ operation, reject operation error) ops;; mret tt) w
  = ({| env := env w; _sendBatcher := _sendBatcher w;
        trace := trace w ++ rejections error ops |}, Normal tt).
Proof.
  destruct (mapM_reject_run error ops w) as [units Hrun].
  unfold mbind at 1, Client_bind at 1. by rewrite Hrun.
Qed.

Lemma settled_rejections error ops operation :
  operation ∈ ops →
  settled (promise operation) (rejections error ops) = Some (Throws error).
Proof.
  induction 1 as [operation rest|operation first rest Hin IH]; simpl.
  - by rewrite decide_True.
  - case_decide; [done|apply IH].
Qed.

Lemma requests_rejections error ops : requests (rejections error ops) = [].
Proof. by induction ops. Qed.

Lemma deserializations_rejections error ops :
  deserializations (rejections error ops) = [].
Proof. by induction ops. Qed.

Lemma distribute_extends serializedResults ops :
  ∀ index w, ∃ e' events c,
    distribute serializedResults index ops w
    = ({| env := e'; _sendBatcher := _sendBatcher w;
          trace := trace w ++ events |}, c)
    ∧ requests events = [].
Proof.
  induction ops as [|operation rest IH]; intros index w.
  - exists (env w), [], (Normal tt). simpl. rewrite app_nil_r. by destruct w.
  - simpl. client_unfold. simpl.
    destruct (at_index serializedResults index) as [serializedResult|error].
    + destruct (deserialize (env w) serializedResult _) as [e1 [v|error]];
        simpl.
      * edestruct IH as (e' & events & c & -> & Hreq). simpl.
        exists e', (Deserialize serializedResult
                      (deserializeOptions (rootComponent (params operation).2))
                    :: Resolve (promise operation) v :: events), c.
        split; [by rewrite <- !app_assoc|done].
      * edestruct IH as (e' & events & c & -> & Hreq). simpl.
        exists e', (Deserialize serializedResult
                      (deserializeOptions (rootComponent (params operation).2))
                    :: Reject (promise operation) error :: events), c.
        split; [by rewrite <- !app_assoc|done].
    + exists (env w), [], (Throws error). rewrite app_nil_r. by destruct w.
Qed.

Lemma transport_failed_receive events request :
  transport_failed (events ++ [Receive request]) = true.
Proof. unfold transport_failed. by rewrite last_snoc. Qed.

Lemma transport_failed_later events events' serialized options :
  requests events' = [] →
  transport_failed (events ++ Deserialize serialized options :: events') = false.
Proof.
  unfold transport_failed.
  induction events' as [|ev events' _] using rev_ind; intros Hreq.
  - by rewrite last_snoc.
  - rewrite app_comm_cons, app_assoc, last_snoc.
    rewrite requests_app in Hreq. apply app_eq_nil in Hreq as [_ Hev].
    by destruct ev.
Qed.

(** The run of a tick over a queue of two operations or more. *)
Lemma flush_batch_run op0 op1 rest n w :
  let ops := op0 :: op1 :: rest in
  _sendBatcher w = Some {| operations := ops; nextPromise := n |} →
  let request := batchRequest (env w) ops in
  let root := deserializeOptions (rootComponent (params op0).2) in
  let emptied := Some {| operations := []; nextPromise := n |} in
  flush w =
    match receive (env w) request with
    | (e1, Throws error) =>
        ({| env := e1; _sendBatcher := emptied;
            trace := trace w ++ Receive request :: rejections error ops |},
         Normal tt)
    | (e1, Normal response) =>
        match deserialize e1 (responseComponents response) root with
        | (e2, Throws error) =>
            ({| env := e2; _sendBatcher := emptied;
                trace := trace w
                         ++ [Receive request;
                             Deserialize (responseComponents response) root] |},
             Normal tt)
        | (e2, Normal _) =>
            ((distribute (result response) 0 ops
                {| env := e2; _sendBatcher := emptied;
                   trace := trace w
                            ++ [Receive request;
                                Deserialize (responseComponents response)
                                  root] |}).1,
             Normal tt)
        end
    end.
Proof.
  intros ops Hbatcher request root emptied.
  unfold flush. rewrite Hbatcher. cbn [operations]. fold ops.
  unfold try_catch at 1. unfold ops at 1. rewrite sendMany_batch_run.
  fold ops. subst request root emptied.
  cbn [env trace _sendBatcher nextPromise].
  destruct (receive (env w) (batchRequest (env w) ops))
    as [e1 [response|error]].
  - destruct (deserialize e1 (responseComponents response) _)
      as [e2 [v|error]].
    + match goal with
      | |- context [distribute ?r 0 ?o ?w0] =>
          destruct (distribute_extends r o 0 w0)
            as (e' & events & [[]|error] & -> & Hreq)
      end; [done|].
      cbn [fst snd env trace _sendBatcher].
      rewrite <- app_assoc. cbn [app].
      rewrite (cons_middle (Receive _)), app_assoc.
      by rewrite transport_failed_later.
    + cbn [trace].
      rewrite (cons_middle (Receive _)), app_assoc.
      rewrite (transport_failed_later _ []) by done.
      by rewrite <- app_assoc.
  - cbn [trace]. rewrite transport_failed_receive.
    rewrite rejectAll_run. cbn [env trace _sendBatcher].
    by rewrite <- app_assoc.
Qed.

Lemma sendOne_requests q options w :
  requests (trace (_sendOne q options w).1)
  = requests (trace w) ++ [singleRequest (env w) q].
Proof.
  rewrite sendOne_run. cbv zeta.
  destruct (receive (env w) _).2 as [response|error]; simpl;
    [|by rewrite requests_app].
  destruct (deserialize _ (responseComponents response) _).2; simpl;
    by rewrite requests_app.
Qed.

(** The queue the microbatcher holds after a [send]. *)
Lemma send_batch q options ops n w :
  _sendBatcher w = Some {| operations := ops; nextPromise := n |} →
  send q options w
  = ({| env := env w;
        _sendBatcher :=
          Some {| operations :=
                    ops ++ [{| params := (q, options); promise := n |}];
                  nextPromise := S n |};
        trace := trace w |}, Normal (Pending n)).
Proof. intros Hb. unfold send. by rewrite Hb. Qed.

Lemma sendMany_single_run operation w :
  _sendMany [operation] w
  = ({| env := env (_sendOne (params operation).1 (params operation).2 w).1;
        _sendBatcher :=
          _sendBatcher (_sendOne (params operation).1 (params operation).2 w).1;
        trace :=
          trace (_sendOne (params operation).1 (params operation).2 w).1
          ++ [settle operation
                (_sendOne (params operation).1 (params operation).2 w).2] |},
     Normal tt).
Proof.
  unfold _sendMany. client_unfold.
  by destruct (_sendOne (params operation).1 (params operation).2 w)
    as [w1 [v|error]].
Qed.

(** The run of a tick over a queue of one operation. *)
Lemma flush_single_run operation n w :
  _sendBatcher w = Some {| operations := [operation]; nextPromise := n |} →
  flush w
  = _sendMany [operation]
      {| env := env w;
         _sendBatcher := Some {| operations := []; nextPromise := n |};
         trace := trace w |}.
Proof.
  intros Hbatcher. unfold flush. rewrite Hbatcher. cbn [operations nextPromise].
  unfold try_catch at 1. by rewrite sendMany_single_run.
Qed.

(** C8.  A batch of exactly one operation is a plain single send:
    [_sendMany] of one operation runs [_sendOne] on the operation's own
    query and options, without any ['||'] wrapping (the one request it
    transmits carries the serialized query itself), and settles the
    operation with what [_sendOne] produced: resolved with its value, or
    rejected with the error it threw. *)
Theorem sendMany_single_is_sendOne (operation : SendOperation) (w : World) :
  let q := (params operation).1 in
  let options := (params operation).2 in
  let single := _sendOne q options w in
  _sendMany [operation] w
  = ({| env := env single.1;
        _sendBatcher := _sendBatcher single.1;
        trace := trace single.1 ++ [settle operation single.2] |}, Normal tt)
  ∧ requests (trace single.1) = requests (trace w) ++ [singleRequest (env w) q]
  ∧ query (singleRequest (env w) q) = (_serializeQuery (env w) q).1.
Proof.
  intros q options single. split; [|split; [apply sendOne_requests|done]].
  apply sendMany_single_run.
Qed.

(** C9.  In a batch of two operations or more whose transport call
    succeeds with an array of results, the shared components of the
    response are deserialized once, first, against the root component of
    the first operation; when that succeeds, every result is then
    deserialized against the root component of its own operation, and
    these are all the [deserialize] calls of the run. *)
Theorem sendMany_shared_components_first_root
    (op0 op1 : SendOperation) (rest : list SendOperation) (w : World)
    (e1 : Env) (response : Response) (serializedResults : list Value) :
  let ops := op0 :: op1 :: rest in
  let firstRootComponent := rootComponent (params op0).2 in
  receive (env w) (batchRequest (env w) ops) = (e1, Normal response) →
  result response = VArray serializedResults →
  deserializations (trace (_sendMany ops w).1)
  = deserializations (trace w)
    ++ (responseComponents response, firstRootComponent)
    :: match (deserialize e1 (responseComponents response)
                (deserializeOptions firstRootComponent)).2 with
       | Normal _ =>
           imap (λ index operation,
                   (default VUndefined (serializedResults !! index),
                    rootComponent (params operation).2)) ops
       | Throws _ => []
       end.
Proof.
  intros ops firstRootComponent Hreceive Hresult. unfold ops.
  rewrite sendMany_batch_run. fold ops. rewrite Hreceive.
  fold firstRootComponent.
  destruct (deserialize e1 (responseComponents response) _) as [e2 [v|error]];
    cbn [fst snd].
  - rewrite Hresult, distribute_array. cbn [fst trace env].
    rewrite !deserializations_app, deserializations_distribute_events.
    rewrite <- app_assoc. done.
  - cbn [fst trace]. by rewrite deserializations_app.
Qed.

(** What a tick over a queue of two operations or more does, case by
    case. *)
Lemma flush_batch_settles
    (op0 op1 : SendOperation) (rest : list SendOperation) (n : nat) (w : World) :
  let ops := op0 :: op1 :: rest in
  let request := batchRequest (env w) ops in
  let root := deserializeOptions (rootComponent (params op0).2) in
  _sendBatcher w = Some {| operations := ops; nextPromise := n |} →
  NoDup (promise <$> ops) →
  ∃ events,
    (flush w).2 = Normal tt
    ∧ trace (flush w).1 = trace w ++ events
    ∧ requests events = [request]
    ∧ (∀ e1 error,
         receive (env w) request = (e1, Throws error) →
         ∀ operation, operation ∈ ops →
           settled (promise operation) events = Some (Throws error))
    ∧ (∀ e1 response e2 error,
         receive (env w) request = (e1, Normal response) →
         deserialize e1 (responseComponents response) root = (e2, Throws error) →
         ∀ p, settled p events = None)
    ∧ (∀ e1 response e2 v serializedResults,
         receive (env w) request = (e1, Normal response) →
         deserialize e1 (responseComponents response) root = (e2, Normal v) →
         result response = VArray serializedResults →
         ∀ i operation, ops !! i = Some operation →
           settled (promise operation) events
           = outcomes_in_turn e2 serializedResults 0 ops !! i).
Proof.
  intros ops request root Hbatcher Hnd.
  rewrite (flush_batch_run op0 op1 rest n w Hbatcher).
  fold ops. fold request. fold root. cbv zeta.
  destruct (receive (env w) request) as [e1 [response|error]].
  - destruct (deserialize e1 (responseComponents response) root)
      as [e2 [v|error]] eqn:Hshared.
    + destruct (result response) as [| | | | |serializedResults| |] eqn:Hresult.
      6: {
        rewrite distribute_array. cbn [fst snd env trace].
        eexists. split; [done|]. split; [by rewrite <- app_assoc|].
        split.
        { by rewrite requests_app, requests_distribute_events. }
        split; [by intros|]. split.
        { intros ???? [= <- <-]. rewrite Hshared. by intros [= _ ?]. }
        intros ? ? ? ? rs [= <- <-]. rewrite Hshared. intros [= <- <-].
        rewrite Hresult. intros [= <-].
        intros i operation Hi. cbn [app settled].
        by rewrite (settled_distribute_events _ _ _ _ i operation Hnd Hi). }
      all: match goal with
        | |- context [distribute ?r 0 ?o ?w0] =>
            destruct (distribute_extends r o 0 w0)
              as (e' & events & outcome & -> & Hreq)
        end;
        cbn [fst snd env trace];
        (eexists; split; [done|]; split; [by rewrite <- ?app_assoc|];
         split;
         [by rewrite !requests_app, Hreq
         |split; [by intros|]; split;
          [intros ???? [= <- <-]; rewrite Hshared; by intros [= _ ?]
          |intros ????? [= <- <-] _; by rewrite Hresult]]).
    + cbn [fst snd env trace]. eexists. split; [done|]. split; [done|].
      split; [done|].
      split; [by intros|]. split; [|by intros ????? [= <- <-]; rewrite Hshared].
      by intros.
  - cbn [fst snd env trace]. eexists. split; [done|]. split; [done|].
    split.
    { change (requests (?a :: ?l)) with (requests ([a] ++ l)).
      by rewrite requests_app, requests_rejections. }
    split; [|split; by intros].
    intros ? ? [= <- <-] operation Hin. cbn [settled].
    by apply settled_rejections.
Qed.

(** C3, as the code has it.  In the run of [_sendMany] over two
    operations or more, a failure of the transport call ends the run with
    that failure before any operation is settled, and so does a failure
    while the shared components of a successful response are
    deserialized: both are batch-wide.  When both succeed and the
    response holds an array of results, the run returns and each
    operation is settled by its own result alone: rejected with the error
    if deserializing the result at its index throws one (an error
    sentinel), resolved with the deserialized value otherwise. *)
Theorem batch_partial_failure
    (op0 op1 : SendOperation) (rest : list SendOperation) (w : World) :
  let ops := op0 :: op1 :: rest in
  let request := batchRequest (env w) ops in
  let root := deserializeOptions (rootComponent (params op0).2) in
  NoDup (promise <$> ops) →
  ∃ events,
    trace (_sendMany ops w).1 = trace w ++ events
    ∧ (∀ e1 error,
         receive (env w) request = (e1, Throws error) →
         (_sendMany ops w).2 = Throws error
         ∧ ∀ p, settled p events = None)
    ∧ (∀ e1 response e2 error,
         receive (env w) request = (e1, Normal response) →
         deserialize e1 (responseComponents response) root = (e2, Throws error) →
         (_sendMany ops w).2 = Throws error
         ∧ ∀ p, settled p events = None)
    ∧ (∀ e1 response e2 v serializedResults,
         receive (env w) request = (e1, Normal response) →
         deserialize e1 (responseComponents response) root = (e2, Normal v) →
         result response = VArray serializedResults →
         (_sendMany ops w).2 = Normal tt
         ∧ ∀ i operation, ops !! i = Some operation →
             ∃ ei,
               settled (promise operation) events
               = Some (deserialize ei
                         (default VUndefined (serializedResults !! i))
                         (deserializeOptions
                            (rootComponent (params operation).2))).2).
Proof.
  intros ops request root Hnd. unfold ops at 1 2 3 4.
  rewrite sendMany_batch_run. fold ops. fold request. fold root.
  destruct (receive (env w) request) as [e1 [response|error]].
  - destruct (deserialize e1 (responseComponents response) root)
      as [e2 [v|error]] eqn:Hshared.
    + destruct (result response) as [| | | | |serializedResults| |] eqn:Hresult.
      6: {
        rewrite distribute_array. cbn [fst snd env trace].
        eexists. split; [by rewrite <- app_assoc|].
        split; [by intros|]. split.
        { intros ???? [= <- <-]. rewrite Hshared. by intros [= _ ?]. }
        intros ? ? ? ? rs [= <- <-]. rewrite Hshared. intros [= <- <-].
        rewrite Hresult. intros [= <-]. split; [done|].
        intros i operation Hi. cbn [app settled].
        rewrite (settled_distribute_events _ _ _ _ i operation Hnd Hi).
        destruct (outcomes_in_turn_lookup serializedResults ops e2 0 i
                    operation Hi) as [ei Hei].
        by exists ei. }
      all: match goal with
        | |- context [distribute ?r 0 ?o ?w0] =>
            destruct (distribute_extends r o 0 w0)
              as (e' & events & outcome & -> & Hreq)
        end;
        cbn [fst snd env trace];
        (eexists; split; [by rewrite <- ?app_assoc|];
         split; [by intros|]; split;
         [intros ???? [= <- <-]; rewrite Hshared; by intros [= _ ?]
         |intros ????? [= <- <-] _; by rewrite Hresult]).
    + cbn [fst snd env trace]. eexists. split; [done|].
      split; [by intros|]. split; [|by intros ????? [= <- <-]; rewrite Hshared].
      intros ???? [= <- <-]. rewrite Hshared. by intros [= <- <-].
  - cbn [fst snd env trace]. eexists. split; [done|].
    split; [|split; by intros].
    by intros ? ? [= <- <-].
Qed.

(** C2, as the code has it.  On a batching client with an empty queue,
    three [send] calls followed by the end of the tick hand three pending
    promises to the callers and make exactly one transport call, whose
    query is the serialization of [{'||': [q1, q2, q3]}], in the order of
    the calls.  When that call succeeds with an array of results and the
    shared components deserialize, each promise is settled with the
    outcome of deserializing the result at its own index against its own
    root component, whether the other results resolve or reject.  When
    the call succeeds and the shared components fail to deserialize, no
    promise is settled: no caller receives its result. *)
Theorem three_sends_one_batch_request
    (q1 q2 q3 : Value) (o1 o2 o3 : SendOptions) (n : nat) (w : World) :
  let tick :=
    p1 ← send q1 o1; p2 ← send q2 o2; p3 ← send q3 o3;
    flush;; mret [p1; p2; p3] in
  let batchQuery := VObject [("||", VArray [q1; q2; q3])] in
  let request :=
    {| query := (_serializeQuery (env w) batchQuery).1;
       components := (_serializeQuery (env w) batchQuery).2;
       version := _version |} in
  _sendBatcher w = Some {| operations := []; nextPromise := n |} →
  ∃ events,
    (tick w).2 = Normal [Pending n; Pending (S n); Pending (S (S n))]
    ∧ trace (tick w).1 = trace w ++ events
    ∧ requests events = [request]
    ∧ (∀ e1 response e2 v serializedResults,
         receive (env w) request = (e1, Normal response) →
         deserialize e1 (responseComponents response)
           (deserializeOptions (rootComponent o1)) = (e2, Normal v) →
         result response = VArray serializedResults →
         let r1 := deserialize e2 (default VUndefined (serializedResults !! 0))
                     (deserializeOptions (rootComponent o1)) in
         let r2 := deserialize r1.1
                     (default VUndefined (serializedResults !! 1))
                     (deserializeOptions (rootComponent o2)) in
         let r3 := deserialize r2.1
                     (default VUndefined (serializedResults !! 2))
                     (deserializeOptions (rootComponent o3)) in
         settled n events = Some r1.2
         ∧ settled (S n) events = Some r2.2
         ∧ settled (S (S n)) events = Some r3.2)
    ∧ (∀ e1 response e2 error,
         receive (env w) request = (e1, Normal response) →
         deserialize e1 (responseComponents response)
           (deserializeOptions (rootComponent o1)) = (e2, Throws error) →
         ∀ p, settled p events = None).
Proof.
  intros tick batchQuery request Hbatcher.
  set (op1 := {| params := (q1, o1); promise := n |}).
  set (op2 := {| params := (q2, o2); promise := S n |}).
  set (op3 := {| params := (q3, o3); promise := S (S n) |}).
  set (w3 := {| env := env w;
                _sendBatcher :=
                  Some {| operations := [op1; op2; op3];
                          nextPromise := S (S (S n)) |};
                trace := trace w |}).
  assert (Hnd : NoDup (promise <$> [op1; op2; op3])).
  { cbn. repeat constructor; set_solver by lia. }
  destruct (flush_batch_settles op1 op2 [op3] (S (S (S n))) w3 eq_refl Hnd)
    as (events & Hdone & Htrace & Hrequests & _ & Hnone & Hown).
  assert (Htick : tick w = ((flush w3).1, Normal [Pending n; Pending (S n);
                                                  Pending (S (S n))])).
  { unfold tick. unfold mbind at 1, Client_bind at 1.
    rewrite (send_batch q1 o1 [] n w Hbatcher).
    unfold mbind at 1, Client_bind at 1.
    erewrite (send_batch q2 o2); [|reflexivity]. cbn [env trace app].
    unfold mbind at 1, Client_bind at 1.
    erewrite (send_batch q3 o3); [|reflexivity]. cbn [env trace app].
    unfold mbind at 1, Client_bind at 1. fold op1 op2 op3. fold w3.
    destruct (flush w3) as [w' c]. simpl in Hdone. by subst c. }
  exists events. rewrite Htick. cbn [fst snd].
  split; [done|]. split; [done|]. split; [done|]. split; [|exact Hnone].
  intros e1 response e2 v serializedResults Hreceive Hshared Hresult.
  specialize (Hown e1 response e2 v serializedResults Hreceive Hshared Hresult).
  cbv zeta. split_and!.
  - exact (Hown 0 op1 eq_refl).
  - exact (Hown 1 op2 eq_refl).
  - exact (Hown 2 op3 eq_refl).
Qed.

(** *** The version check *)

Lemma sendOne_transport_failure q options w e1 error :
  receive (env w) (singleRequest (env w) q) = (e1, Throws error) →
  _sendOne q options w
  = ({| env := e1; _sendBatcher := _sendBatcher w;
        trace := trace w ++ [Receive (singleRequest (env w) q)] |},
     Throws error).
Proof. intros Hreceive. rewrite sendOne_run. cbv zeta. by rewrite Hreceive. Qed.

(** C6.  A client configured with a version that differs from the one
    the server reports (2 against 1, say) fails every call with
    [VersionMismatch], whatever the server would do with the query: the
    client puts its version on the request it transmits, the server
    rejects the request before processing it, the components are left as
    they were, and nothing is deserialized.  This holds for a plain
    [send], and for every operation of a tick of the batching client. *)
Theorem version_mismatch_fails_every_call
    (serverVersion clientVersion : Z)
    (handle : Env → Request → Env * Completion Response) :
  receive = ComponentServer_receive serverVersion handle →
  _version = Some clientVersion →
  clientVersion ≠ serverVersion →
  let mismatch := VersionMismatch (Some clientVersion) serverVersion in
  (∀ q options w,
     _sendBatcher w = None →
     ∃ request,
       send q options w
       = ({| env := env w; _sendBatcher := None;
             trace := trace w ++ [Receive request] |}, Throws mismatch)
       ∧ version request = Some clientVersion)
  ∧ (∀ w,
       pending w ≠ [] →
       ∃ request,
         (flush w).2 = Normal tt
         ∧ env (flush w).1 = env w
         ∧ trace (flush w).1
           = trace w ++ Receive request :: rejections mismatch (pending w)
         ∧ version request = Some clientVersion
         ∧ ∀ operation, operation ∈ pending w →
             settled (promise operation)
               (Receive request :: rejections mismatch (pending w))
             = Some (Throws mismatch)).
Proof.
  intros Hserver Hversion Hne mismatch.
  assert (Hreject : ∀ e request,
            version request = Some clientVersion →
            receive e request = (e, Throws mismatch)).
  { intros e request Hv. rewrite Hserver. unfold ComponentServer_receive.
    rewrite Hv. by rewrite decide_False. }
  assert (Hsingle : ∀ e q, version (singleRequest e q) = Some clientVersion)
    by done.
  assert (Hbatch : ∀ e ops, version (batchRequest e ops) = Some clientVersion)
    by done.
  split.
  - intros q options w Hnone. exists (singleRequest (env w) q).
    split; [|done]. unfold send. rewrite Hnone.
    unfold mbind, Client_bind.
    rewrite (sendOne_transport_failure q options w (env w) mismatch)
      by by apply Hreject.
    by rewrite Hnone.
  - intros w Hpending. unfold pending in *.
    destruct (_sendBatcher w) as [[ops n]|] eqn:Hbatcher; [|done].
    cbn [operations] in *.
    destruct ops as [|op0 [|op1 rest]]; [done| |].
    + exists (singleRequest (env w) (params op0).1).
      rewrite (flush_single_run op0 n w Hbatcher), sendMany_single_run.
      erewrite sendOne_transport_failure by by apply Hreject.
      cbn [fst snd env trace _sendBatcher rejections map settle].
      split_and!; [done|done|by rewrite <- app_assoc|done|].
      intros operation ->%list_elem_of_singleton. cbn. by rewrite decide_True.
    + exists (batchRequest (env w) (op0 :: op1 :: rest)).
      rewrite (flush_batch_run op0 op1 rest n w Hbatcher). cbv zeta.
      rewrite (Hreject _ _ (Hbatch _ _)). cbn [fst snd env trace].
      split_and!; [done..|].
      intros operation Hin. cbn [settled]. by apply settled_rejections.
Qed.

(** *** The order of the serialized dependencies *)

Lemma NoDup_Set_addAll cs : ∀ s, NoDup s → NoDup (Set_addAll s cs).
Proof.
  unfold Set_addAll. induction cs as [|c cs IH]; intros s Hs; [done|].
  simpl. apply IH. by apply NoDup_Set_add.
Qed.

Lemma handleDependency_handled e state c :
  handledComponentDependencies (handleDependency e state c).1
  = if decide (c ∈ handledComponentDependencies state.1)
    then handledComponentDependencies state.1
    else handledComponentDependencies state.1 ++ [c].
Proof.
  unfold handleDependency, Set_has, Set_add.
  case_bool_decide; case_decide; done.
Qed.

Lemma foldl_handleDependency_fresh e todo :
  ∀ state,
    NoDup todo →
    (∀ c, c ∈ todo → c ∉ handledComponentDependencies state.1) →
    handledComponentDependencies (foldl (handleDependency e) state todo).1
    = handledComponentDependencies state.1 ++ todo.
Proof.
  induction todo as [|c todo IH]; intros state Hnd Hfresh.
  - by rewrite app_nil_r.
  - apply NoDup_cons in Hnd as [Hc Hnd]. simpl. rewrite IH; [|done|].
    + rewrite handleDependency_handled, decide_False.
      * by rewrite <- app_assoc.
      * apply Hfresh. by left.
    + intros d Hd. rewrite handleDependency_handled, decide_False.
      * intros [Hin| ->%list_elem_of_singleton]%elem_of_app; [|done].
        revert Hin. apply Hfresh. by right.
      * apply Hfresh. by left.
Qed.

Lemma foldl_handleDependency_prefix e todo :
  ∀ state, ∃ more,
    handledComponentDependencies (foldl (handleDependency e) state todo).1
    = handledComponentDependencies state.1 ++ more.
Proof.
  induction todo as [|c todo IH]; intros state.
  - exists []. by rewrite app_nil_r.
  - simpl. destruct (IH (handleDependency e state c)) as [more ->].
    rewrite handleDependency_handled. case_decide.
    + by exists more.
    + exists (c :: more). by rewrite <- app_assoc.
Qed.

Lemma serializeComponentDependencies_prefix e componentDependencies st :
  ∃ more,
    handledComponentDependencies
      (serializeComponentDependencies e componentDependencies st)
    = handledComponentDependencies st ++ more.
Proof.
  funelim (serializeComponentDependencies e componentDependencies st).
  - exists []. by rewrite app_nil_r.
  - destruct H0 as [more ->].
    match goal with
    | |- context [foldl (handleDependency ?e0) ?state ?todo] =>
        destruct (foldl_handleDependency_prefix e0 todo state) as [more' ->]
    end.
    exists (more' ++ more). by rewrite <- app_assoc.
Qed.

Lemma closure_inv_initial e roots :
  closure_inv e roots
    {| serializedComponentDependencies := None;
       handledComponentDependencies := [] |}
    (Set_addAll [] roots).
Proof.
  split; simpl.
  - apply NoDup_nil_2.
  - done.
  - intros c d Hc. by apply elem_of_nil in Hc.
  - intros c [Hc|Hc]; [by apply elem_of_nil in Hc|].
    apply depends_root. apply elem_of_Set_addAll in Hc as [Hc|Hc]; [|done].
    by apply elem_of_nil in Hc.
  - intros c Hc. right. apply elem_of_Set_addAll. by right.
Qed.

(** Every serialized component of a payload is the serialization of a
    component under the options given to the dependencies. *)
Lemma serializeQuery_entries e query serialized :
  serialized ∈ default [] (_serializeQuery e query).2 →
  ∃ componentDependency,
    (component_serialize e componentDependency dependencyOptions).1
    = Some serialized.
Proof.
  unfold _serializeQuery. cbn [snd].
  destruct (serializeComponentDependencies_inv e _ _ _
              (closure_inv_initial e (serialize e query queryOptions).2))
    as [_ -> _ _ _].
  rewrite default_nonempty. unfold entries_of.
  intros (c & _ & Hc)%list_elem_of_omap. by exists c.
Qed.

(** C10.  The wire payload of a query carries no attribute that cannot be
    set on the remote side.  The attribute filter of [_serializeQuery]
    lets an attribute through exactly when its owning component has a
    remote component, the remote component has an attribute of the same
    name, and that remote attribute allows the [set] operation; in every
    other case it answers [false] (it never throws).  This filter is the
    one [_serializeQuery] gives to the serialization of the query and of
    each component dependency, so that, the serializer leaving out what
    its filter rejects, neither the serialized query nor any of the
    serialized components carries an attribute that does not meet the
    three conditions.  [carries serialized this attribute] stands for:
    the serialized value holds a value for [attribute] of [this]. *)
Theorem attributeFilter_iff_remote_settable
    (carries : Value → Component → Attribute → Prop)
    (e : Env) (query : Value) (this : Component) (attribute : Attribute) :
  (∀ options,
     opt_attributeFilter options this attribute = false →
     ¬ carries (serialize e query options).1 this attribute) →
  (∀ componentDependency options serialized,
     (component_serialize e componentDependency options).1 = Some serialized →
     opt_attributeFilter options this attribute = false →
     ¬ carries serialized this attribute) →
  let settable :=
    ∃ remoteComponent,
      getRemoteComponent this = Some remoteComponent
      ∧ hasAttribute remoteComponent (getName attribute) = true
      ∧ operationIsAllowed
          (getAttribute remoteComponent (getName attribute)) "set" = true in
  (attributeFilter this attribute = true ↔ settable)
  ∧ (carries (_serializeQuery e query).1 this attribute → settable)
  ∧ (∀ serialized,
       serialized ∈ default [] (_serializeQuery e query).2 →
       carries serialized this attribute → settable).
Proof.
  intros Hquery Hdependency settable.
  assert (Hfilter : attributeFilter this attribute = true ↔ settable).
  { unfold settable, attributeFilter.
    destruct (getRemoteComponent this) as [remoteComponent|]; [|naive_solver].
    destruct (hasAttribute remoteComponent (getName attribute)) eqn:Hhas;
      naive_solver. }
  split; [done|]. split.
  - intros Hcarries.
    destruct (attributeFilter this attribute) eqn:Hanswer; [by apply Hfilter|].
    by destruct (Hquery queryOptions Hanswer).
  - intros serialized [c Hc]%serializeQuery_entries Hcarries.
    destruct (attributeFilter this attribute) eqn:Hanswer; [by apply Hfilter|].
    by destruct (Hdependency c dependencyOptions serialized Hc Hanswer).
Qed.

(** X20.  The direct dependencies of a query come first: the serialized
    components are the entries of the components the serialization of the
    query registered, in the order of their first registration, followed
    by those of the indirect dependencies, without any repetition. *)
Theorem serializeQuery_direct_dependencies_first (e : Env) (query : Value) :
  let direct := Set_addAll [] (serialize e query queryOptions).2 in
  ∃ indirect : list Component,
    NoDup (direct ++ indirect)
    ∧ (_serializeQuery e query).2
      = nonempty (entries_of e (direct ++ indirect)).
Proof.
  intros direct. unfold _serializeQuery. cbn [snd].
  fold direct.
  set (st0 := {| serializedComponentDependencies := None;
                 handledComponentDependencies := [] |}).
  pose proof (serializeComponentDependencies_inv e _ direct st0
                (closure_inv_initial e _)) as [Hnd Hentries _ _ _].
  assert (Hprefix : ∃ indirect,
            handledComponentDependencies
              (serializeComponentDependencies e direct st0)
            = direct ++ indirect).
  { assert (Hdirect : NoDup direct) by (apply NoDup_Set_addAll, NoDup_nil_2).
    destruct direct as [|c cs].
    - exists []. by simp serializeComponentDependencies.
    - simp serializeComponentDependencies.
      destruct (serializeComponentDependencies_prefix e
                  (foldl (handleDependency e) (st0, []) (c :: cs)).2
                  (foldl (handleDependency e) (st0, []) (c :: cs)).1)
        as [more ->].
      rewrite (foldl_handleDependency_fresh e (c :: cs) (st0, []) Hdirect).
      + by exists more.
      + intros d _. apply not_elem_of_nil. }
  destruct Hprefix as [indirect Hprefix]. exists indirect.
  rewrite <- Hprefix. by split.
Qed.

(** *** The calls of a single send *)

(** The promises a trace settles, in order. *)
Definition settlements (events : list Event) : list nat :=
  omap (λ ev, match ev with
              | Resolve p _ | Reject p _ => Some p
              | _ => None
              end) events.

Lemma settlements_app events events' :
  settlements (events ++ events') = settlements events ++ settlements events'.
Proof. apply omap_app. Qed.

Lemma sendOne_events q options w :
  ∃ events,
    trace (_sendOne q options w).1 = trace w ++ events
    ∧ _sendBatcher (_sendOne q options w).1 = _sendBatcher w
    ∧ requests events = [singleRequest (env w) q]
    ∧ settlements events = []
    ∧ Forall (λ d, d.2 = rootComponent options) (deserializations events).
Proof.
  rewrite sendOne_run. cbv zeta.
  destruct (receive (env w) _).2 as [response|error]; cbn [fst trace].
  - destruct (deserialize _ (responseComponents response) _).2;
      cbn [fst trace _sendBatcher]; eexists; (split; [done|]);
      (split; [done|]); (split; [done|]); (split; [done|]);
      repeat constructor.
  - eexists. split; [done|]. split; [done|]. split; [done|]. split; [done|].
    constructor.
Qed.

(** X21.  A single send deserializes the components of the response
    before its result, both against the root component of the call, and
    stops at the first failure: nothing is deserialized when the transport
    fails, and the result is not deserialized when the components fail
    to. *)
Theorem sendOne_deserializes_components_then_result
    (q : Value) (options : SendOptions) (w : World) :
  let root := rootComponent options in
  deserializations (trace (_sendOne q options w).1)
  = deserializations (trace w)
    ++ match receive (env w) (singleRequest (env w) q) with
       | (_, Throws _) => []
       | (e1, Normal response) =>
           (responseComponents response, root)
           :: match (deserialize e1 (responseComponents response)
                       (deserializeOptions root)).2 with
              | Normal _ => [(result response, root)]
              | Throws _ => []
              end
       end.
Proof.
  intros root. rewrite sendOne_run. cbv zeta.
  destruct (receive (env w) _) as [e1 [response|error]]; cbn [fst snd trace].
  - destruct (deserialize e1 (responseComponents response) _).2;
      cbn [fst trace]; by rewrite deserializations_app.
  - rewrite deserializations_app. cbn. by rewrite app_nil_r.
Qed.

(** *** Edge cases of a batch *)

Lemma sendMany_empty_run w :
  _sendMany [] w
  = ({| env := (receive (env w) (batchRequest (env w) [])).1;
        _sendBatcher := _sendBatcher w;
        trace := trace w ++ [Receive (batchRequest (env w) [])] |},
     match (receive (env w) (batchRequest (env w) [])).2 with
     | Normal _ => Throws (TypeError "Cannot read properties of undefined")
     | Throws error => Throws error
     end).
Proof.
  unfold _sendMany, batchRequest. client_unfold. cbn -[_serializeQuery].
  by destruct (receive (env w) _).2.
Qed.

(** X22.  [_sendMany] of no operation at all still transmits a request,
    for the empty batch [{'||': []}], and then fails: with what the
    transport threw, or else with a [TypeError], since there is no first
    operation to take the root component from.  Nothing is deserialized
    and nothing is settled. *)
Theorem sendMany_empty_batch (w : World) :
  let request := batchRequest (env w) [] in
  query request = (_serializeQuery (env w) (VObject [("||", VArray [])])).1
  ∧ trace (_sendMany [] w).1 = trace w ++ [Receive request]
  ∧ (_sendMany [] w).2
    = match (receive (env w) request).2 with
      | Normal _ => Throws (TypeError "Cannot read properties of undefined")
      | Throws error => Throws error
      end.
Proof. intros request. by rewrite sendMany_empty_run. Qed.

Lemma distribute_not_indexable serializedResults operation rest index w :
  serializedResults = VUndefined ∨ serializedResults = VNull →
  distribute serializedResults index (operation :: rest) w
  = (w, Throws (TypeError "Cannot read properties of undefined")).
Proof. by intros [-> | ->]. Qed.

Lemma distribute_indexable serializedResults ops :
  (∀ index, ∃ v, at_index serializedResults index = Normal v) →
  ∀ index w, ∃ e' events,
    distribute serializedResults index ops w
    = ({| env := e'; _sendBatcher := _sendBatcher w;
          trace := trace w ++ events |}, Normal tt)
    ∧ settlements events = promise <$> ops.
Proof.
  intros Hindexable.
  induction ops as [|operation rest IH]; intros index w.
  - exists (env w), []. simpl. rewrite app_nil_r. by destruct w.
  - simpl. client_unfold. simpl.
    destruct (Hindexable index) as [serializedResult ->].
    destruct (deserialize (env w) serializedResult _) as [e1 [v|error]]; simpl.
    + edestruct IH as (e' & events & -> & Hsettled). simpl.
      exists e', (Deserialize serializedResult
                    (deserializeOptions (rootComponent (params operation).2))
                  :: Resolve (promise operation) v :: events).
      split; [by rewrite <- !app_assoc|]. simpl. by rewrite Hsettled.
    + edestruct IH as (e' & events & -> & Hsettled). simpl.
      exists e', (Deserialize serializedResult
                    (deserializeOptions (rootComponent (params operation).2))
                  :: Reject (promise operation) error :: events).
      split; [by rewrite <- !app_assoc|]. simpl. by rewrite Hsettled.
Qed.

Lemma at_index_cases serializedResults :
  (serializedResults = VUndefined ∨ serializedResults = VNull)
  ∨ ∀ index, ∃ v, at_index serializedResults index = Normal v.
Proof.
  destruct serializedResults; try (by left; [left|right]);
    try (left; by left); try (left; by right); right; intros index;
    by eexists.
Qed.

(** X23.  When the response of a batch carries no results at all
    ([undefined] or [null] where the array is expected), [_sendMany] fails
    with a [TypeError] at the first operation, after the shared components
    were deserialized, and settles no operation itself. *)
Theorem sendMany_result_not_indexable
    (op0 op1 : SendOperation) (rest : list SendOperation) (w : World)
    (e1 e2 : Env) (response : Response) (v : Value) :
  let ops := op0 :: op1 :: rest in
  let request := batchRequest (env w) ops in
  let root := deserializeOptions (rootComponent (params op0).2) in
  receive (env w) request = (e1, Normal response) →
  deserialize e1 (responseComponents response) root = (e2, Normal v) →
  result response = VUndefined ∨ result response = VNull →
  _sendMany ops w
  = ({| env := e2; _sendBatcher := _sendBatcher w;
        trace := trace w
                 ++ [Receive request;
                     Deserialize (responseComponents response) root] |},
     Throws (TypeError "Cannot read properties of undefined")).
Proof.
  intros ops request root Hreceive Hcomponents Hresult. unfold ops.
  rewrite sendMany_batch_run. fold ops. fold request. rewrite Hreceive.
  fold root. rewrite Hcomponents. unfold ops.
  by rewrite distribute_not_indexable.
Qed.

(** X24.  [_sendMany] settles all of its operations or none.  When it
    returns, every operation was settled exactly once, in the order of
    the batch; when it throws, no operation was settled (the batcher then
    rejects them all).  In particular no operation is ever settled
    twice. *)
Theorem sendMany_settles_all_or_none (ops : list SendOperation) (w : World) :
  ∃ events,
    trace (_sendMany ops w).1 = trace w ++ events
    ∧ settlements events
      = match (_sendMany ops w).2 with
        | Normal _ => promise <$> ops
        | Throws _ => []
        end.
Proof.
  destruct ops as [|op0 [|op1 rest]].
  - rewrite sendMany_empty_run. cbn [fst snd trace].
    eexists. split; [done|]. by destruct (receive _ _).2.
  - rewrite sendMany_single_run. cbn [fst snd trace].
    destruct (sendOne_events (params op0).1 (params op0).2 w)
      as (events & -> & _ & _ & Hsettled & _).
    exists (events
            ++ [settle op0 (_sendOne (params op0).1 (params op0).2 w).2]).
    split; [by rewrite <- app_assoc|].
    rewrite settlements_app, Hsettled.
    by destruct (_sendOne _ _ w).2.
  - rewrite sendMany_batch_run.
    destruct (receive (env w) _) as [e1 [response|error]];
      [|by eexists].
    destruct (deserialize e1 (responseComponents response) _)
      as [e2 [v|error]]; [|by eexists].
    destruct (at_index_cases (result response)) as [Hnone|Hindexable].
    + rewrite distribute_not_indexable by done. by eexists.
    + edestruct (distribute_indexable (result response) (op0 :: op1 :: rest)
                   Hindexable 0) as (e' & events & -> & Hsettled).
      cbn [fst snd trace]. eexists. split; [by rewrite <- app_assoc|].
      by rewrite settlements_app.
Qed.

(** *** Any number of sends in a tick *)

(** A sequence of [send] calls. *)
Definition sendAll (calls : list (Value * SendOptions)) : Client (list Sent) :=
  mapM (M := Client) (λ call, send call.1 call.2) calls.

(** The operations the batcher queues for [calls], from promise [n] on. *)
Definition queued (n : nat) (calls : list (Value * SendOptions))
    : list SendOperation :=
  imap (λ i call, {| params := call; promise := n + i |}) calls.

Lemma queued_cons n call calls :
  queued n (call :: calls)
  = {| params := call; promise := n |} :: queued (S n) calls.
Proof.
  unfold queued. cbn [imap]. rewrite Nat.add_0_r. f_equal.
  apply imap_ext. intros i x _. unfold compose. f_equal. lia.
Qed.

Lemma promise_queued calls :
  ∀ n, promise <$> queued n calls = seq n (length calls).
Proof.
  induction calls as [|call calls IH]; intros n; [done|].
  rewrite queued_cons. cbn. by rewrite IH.
Qed.

Lemma queries_queued calls :
  ∀ n, map (λ operation, (params operation).1) (queued n calls) = calls.*1.
Proof.
  induction calls as [|call calls IH]; intros n; [done|].
  rewrite queued_cons. cbn. by rewrite IH.
Qed.

Lemma sendAll_batch calls :
  ∀ ops n w,
    _sendBatcher w = Some {| operations := ops; nextPromise := n |} →
    sendAll calls w
    = ({| env := env w;
          _sendBatcher :=
            Some {| operations := ops ++ queued n calls;
                    nextPromise := n + length calls |};
          trace := trace w |},
       Normal (Pending <$> seq n (length calls))).
Proof.
  induction calls as [|[q options] calls IH]; intros ops n w Hbatcher.
  - cbn. rewrite app_nil_r, Nat.add_0_r, <- Hbatcher. by destruct w.
  - unfold sendAll. cbn [mapM]. unfold mbind at 1, Client_bind at 1.
    cbn [fst snd]. rewrite (send_batch q options ops n w Hbatcher).
    unfold mbind at 1, Client_bind at 1. fold (sendAll calls).
    erewrite IH; [|reflexivity]. cbn [env trace].
    unfold mret, Client_ret. rewrite queued_cons, <- app_assoc. cbn.
    by rewrite Nat.add_succ_r.
Qed.

(** X25.  Whatever the number of [send] calls in a tick of a batching
    client, the tick transmits at most one request: none when nothing was
    sent, the plain request of the query when one was, and otherwise one
    batch request whose query is the serialization of the queries in the
    order of the calls.  Every caller gets a pending promise of its
    own. *)
Theorem sends_then_flush_one_request
    (calls : list (Value * SendOptions)) (n : nat) (w : World) :
  let tick := promises ← sendAll calls; flush;; mret promises in
  _sendBatcher w = Some {| operations := []; nextPromise := n |} →
  ∃ events,
    (tick w).2 = Normal (Pending <$> seq n (length calls))
    ∧ trace (tick w).1 = trace w ++ events
    ∧ requests events
      = match calls with
        | [] => []
        | [call] => [singleRequest (env w) call.1]
        | _ => [batchRequest (env w) (queued n calls)]
        end
    ∧ query (batchRequest (env w) (queued n calls))
      = (_serializeQuery (env w) (VObject [("||", VArray calls.*1)])).1.
Proof.
  intros tick Hbatcher.
  set (w1 := {| env := env w;
                _sendBatcher :=
                  Some {| operations := queued n calls;
                          nextPromise := n + length calls |};
                trace := trace w |}).
  assert (Hflush : ∃ events,
            (flush w1).2 = Normal tt
            ∧ trace (flush w1).1 = trace w ++ events
            ∧ requests events
              = match calls with
                | [] => []
                | [call] => [singleRequest (env w) call.1]
                | _ => [batchRequest (env w) (queued n calls)]
                end).
  { subst w1. destruct calls as [|call [|call' calls]].
    - exists []. cbn. by rewrite app_nil_r.
    - erewrite (flush_single_run {| params := call; promise := n + 0 |});
        [|reflexivity].
      rewrite sendMany_single_run.
      match goal with
      | |- context [_sendOne ?q ?o ?w0] =>
          destruct (sendOne_events q o w0) as (events & Htrace & _ & Hreq & _)
      end.
      cbn [fst snd env trace _sendBatcher params] in *. rewrite Htrace.
      eexists. split; [done|]. split; [by rewrite <- app_assoc|].
      rewrite requests_app, Hreq. by destruct (_sendOne _ _ _).2.
    - assert (Hnd : NoDup (promise <$> queued n (call :: call' :: calls))).
      { rewrite promise_queued. apply NoDup_seq. }
      rewrite !queued_cons in Hnd |- *.
      match goal with
      | |- context [flush ?w0] =>
          destruct (flush_batch_settles _ _ _ _ w0 eq_refl Hnd)
            as (events & Hdone & Htrace & Hreq & _)
      end.
      by exists events. }
  destruct Hflush as (events & Hdone & Htrace & Hreq).
  assert (Htick : tick w
                  = ((flush w1).1, Normal (Pending <$> seq n (length calls)))).
  { unfold tick. unfold mbind at 1, Client_bind at 1.
    rewrite (sendAll_batch calls [] n w Hbatcher). cbn [app]. fold w1.
    unfold mbind at 1, Client_bind at 1.
    destruct (flush w1) as [w' c]. cbn [snd] in Hdone. by subst c. }
  exists events. rewrite Htick. cbn [fst snd].
  split; [done|]. split; [done|]. split; [done|].
  unfold batchRequest. cbn [query]. by rewrite queries_queued.
Qed.

(** *** Method proxies *)

(** X26.  Calling the proxy of a remote method sends the query
    [{'<=': this, '<name>=>': {'()': args}}] with the class of [this] as
    root component.  On a batching client the call is only queued; on a
    plain one it transmits exactly one request, for that query, and
    everything it deserializes is deserialized against that class. *)
Theorem methodProxy_request_and_root
    (name : string) (this : Component) (args : list Value) (w : World) :
  let q := VObject [("<=", VComponent this);
                    (name +:+ "=>", VObject [("()", VArray args)])] in
  let options := {| rootComponent := Some (ensureComponentClass this) |} in
  match _sendBatcher w with
  | Some batcher =>
      methodProxy name this args w
      = ({| env := env w;
            _sendBatcher :=
              Some {| operations :=
                        operations batcher
                        ++ [{| params := (q, options);
                               promise := nextPromise batcher |}];
                      nextPromise := S (nextPromise batcher) |};
            trace := trace w |},
         Normal (Pending (nextPromise batcher)))
  | None =>
      ∃ events,
        trace (methodProxy name this args w).1 = trace w ++ events
        ∧ requests events = [singleRequest (env w) q]
        ∧ Forall (λ d, d.2 = Some (ensureComponentClass this))
            (deserializations events)
  end.
Proof.
  intros q options. unfold methodProxy, send. fold q. fold options.
  destruct (_sendBatcher w) as [batcher|] eqn:Hbatcher; [done|].
  destruct (sendOne_events q options w)
    as (events & Htrace & _ & Hreq & _ & Hroot).
  exists events. split; [|by split].
  unfold mbind, Client_bind, mret, Client_ret.
  by destruct (_sendOne q options w) as [w' [value|error]].
Qed.

End Client.

Arguments Value Component : clear implicits.
Arguments SerializeOptions Component Attribute : clear implicits.
Arguments Request Component : clear implicits.
Arguments Response Component : clear implicits.
Arguments SendOptions Component : clear implicits.
Arguments DeserializeOptions Component : clear implicits.
Arguments SendOperation Component : clear implicits.
Arguments Event Component : clear implicits.
Arguments Microbatcher Component : clear implicits.
Arguments World Component Env : clear implicits.

End ComponentClient.

(* ===================================================================== *)
(** ** A concrete application: the classes [A → B → C] *)
(* ===================================================================== *)

Module Chain.
Import ComponentClient.

(** Three component classes: [A] depends on [B], [B] depends on [C]. *)
Inductive Class : Type := A | B | C.

#[global] Instance Class_eq_dec : EqDecision Class.
Proof. solve_decision. Defined.

#[global, refine] Instance Class_finite : Finite Class := {| enum := [A; B; C] |}.
Proof.
  - repeat (apply NoDup_cons; split; [set_solver|]). apply NoDup_nil_2.
  - intros []; set_solver.
Defined.

Definition className (c : Class) : string :=
  match c with A => "A" | B => "B" | C => "C" end.

Definition reference (c : Class) : Value Class :=
  VObject [("__component", VString (className c))].

(** The serialization of [A] registers [B] (twice); that of [B]
    registers [C]; that of [C] registers nothing. *)
Definition dependencies (c : Class) : list Class :=
  match c with A => [B; B] | B => [C] | C => [] end.

(** Remote side: every class has a remote counterpart, with a settable
    attribute [title] and a read-only attribute [id]. *)
Definition getRemoteComponent (c : Class) : option Class := Some c.
Definition getName (attribute : string) : string := attribute.
Definition hasAttribute (remote : Class) (name : string) : bool :=
  bool_decide (name = "title" ∨ name = "id").
Definition getAttribute (remote : Class) (name : string) : string := name.
Definition operationIsAllowed (remoteAttribute operation : string) : bool :=
  bool_decide (remoteAttribute = "title").

(** The serializer leaves plain values as they are; a query registers
    [A] and [B], [A] twice. *)
Definition serialize (e : nat) (q : Value Class)
    (options : SerializeOptions Class string)
    : Value Class * list Class :=
  (q, [A; B; A]).

Definition component_serialize (e : nat) (c : Class)
    (options : SerializeOptions Class string)
    : option (Value Class) * list Class :=
  (Some (reference c), dependencies c).

(** The same, with a class [B] that has no attribute to serialize: under
    [ignoreEmptyComponents] it serializes to [undefined]. *)
Definition component_serialize_empty_B (e : nat) (c : Class)
    (options : SerializeOptions Class string) : option (Value Class) * list Class :=
  (match c with
   | B => if opt_ignoreEmptyComponents options then None else Some (reference c)
   | _ => Some (reference c)
   end, dependencies c).

Definition someQuery : Value Class :=
  VObject [("<=", VComponent A); ("find=>", VObject [("()", VArray [])])].

(** The server: version 1; it numbers the queries it processes and
    answers a batch of three with the results [1], an error, [3]. *)
Definition errorSentinel (message : string) : Value Class :=
  VObject [("__error", VString message)].

Definition handle (e : nat) (request : Request Class)
    : nat * Completion (Response Class) :=
  (S e, Normal {| result := VArray [VNumber 1; errorSentinel "boom"; VNumber 3];
                  responseComponents := VUndefined |}).

(** A server whose response carries components the client cannot
    deserialize. *)
Definition handle_unknown_component (e : nat) (request : Request Class)
    : nat * Completion (Response Class) :=
  (S e, Normal {| result := VArray [errorSentinel "boom"; VNumber 2];
                  responseComponents :=
                    errorSentinel "The 'Movie' component is unknown" |}).

(** The same server, answering a batch of three. *)
Definition handle_three_unknown_component (e : nat) (request : Request Class)
    : nat * Completion (Response Class) :=
  (S e, Normal {| result := VArray [VNumber 1; VNumber 2; VNumber 3];
                  responseComponents :=
                    errorSentinel "The 'Movie' component is unknown" |}).

(** The deserializer hands an error sentinel to the error handler and
    leaves other plain values as they are. *)
Definition deserialize (e : nat) (serialized : Value Class)
    (options : DeserializeOptions Class) : nat * Completion (Value Class) :=
  match serialized with
  | VObject (("__error", VString message) :: _) =>
      (e, d_errorHandler options (RemoteError message))
  | _ => (e, Normal serialized)
  end.

Definition query1 : Value Class :=
  VObject [("<=", VComponent A); ("first=>", VObject [("()", VArray [])])].
Definition query2 : Value Class :=
  VObject [("<=", VComponent B); ("second=>", VObject [("()", VArray [])])].
Definition query3 : Value Class :=
  VObject [("<=", VComponent C); ("third=>", VObject [("()", VArray [])])].

Definition rootA : SendOptions Class := {| rootComponent := Some A |}.
Definition rootB : SendOptions Class := {| rootComponent := Some B |}.
Definition rootC : SendOptions Class := {| rootComponent := Some C |}.

Definition operation1 : SendOperation Class :=
  {| params := (query1, rootA); promise := 0 |}.
Definition operation2 : SendOperation Class :=
  {| params := (query2, rootB); promise := 1 |}.
Definition operation3 : SendOperation Class :=
  {| params := (query3, rootC); promise := 2 |}.

(** A batching client at the start of a tick, and one in the middle of a
    tick with three, or two, operations queued. *)
Definition idle : World Class nat :=
  {| env := 0;
     _sendBatcher := Some {| operations := []; nextPromise := 0 |};
     trace := [] |}.

Definition queued3 : World Class nat :=
  {| env := 0;
     _sendBatcher :=
       Some {| operations := [operation1; operation2; operation3];
               nextPromise := 3 |};
     trace := [] |}.

Definition queued2 : World Class nat :=
  {| env := 0;
     _sendBatcher :=
       Some {| operations := [operation1; operation2]; nextPromise := 2 |};
     trace := [] |}.

(** A client without batching. *)
Definition plain : World Class nat :=
  {| env := 0; _sendBatcher := None; trace := [] |}.

Definition client_flush receive version : Client unit :=
  flush getRemoteComponent getName hasAttribute getAttribute
    operationIsAllowed serialize component_serialize receive deserialize
    version.

Definition client_sendMany receive version ops : Client unit :=
  _sendMany getRemoteComponent getName hasAttribute getAttribute
    operationIsAllowed serialize component_serialize receive deserialize
    version ops.

Definition client_send receive version q options : Client Sent :=
  send getRemoteComponent getName hasAttribute getAttribute
    operationIsAllowed serialize component_serialize receive deserialize
    version q options.

Definition allComponents : option (list (Value Class)) :=
  Some [reference A; reference B; reference C].

Definition server1 := ComponentServer_receive (Component := Class) 1 handle.

Example serializeQuery_chain :
  _serializeQuery getRemoteComponent getName hasAttribute getAttribute
    operationIsAllowed serialize component_serialize 0 someQuery
  = (someQuery, Some [reference A; reference B; reference C]).
Proof. vm_compute. reflexivity. Qed.

(** C1 as stated fails when a dependency is empty: [B] is a dependency
    of the query and is handled, but it serializes to [undefined], so the
    list holds an entry for [A] and one for [C] and none for [B]. *)
Lemma serializeQuery_empty_dependency_counterexample :
  depends_on getRemoteComponent getName hasAttribute getAttribute
    operationIsAllowed component_serialize_empty_B 0 [A; B; A] B
  ∧ (component_serialize_empty_B 0 B
       (dependencyOptions getRemoteComponent getName hasAttribute
          getAttribute operationIsAllowed)).1 = None
  ∧ _serializeQuery getRemoteComponent getName hasAttribute getAttribute
      operationIsAllowed serialize component_serialize_empty_B 0 someQuery
    = (someQuery, Some [reference A; reference C])
  ∧ reference B ∉ [reference A; reference C].
Proof.
  split; [apply depends_root; set_solver|]. split; [reflexivity|].
  split; [vm_compute; reflexivity|].
  intros Hin. repeat (apply elem_of_cons in Hin as [Hin|Hin]; [discriminate Hin|]).
  by apply elem_of_nil in Hin.
Qed.

(** Every class has the attributes [title] and [id]. *)
Definition attributeValues : list (string * Value Class) :=
  [("title", VString "Inception"); ("id", VNumber 1)].

(** A serializer that applies its filter: a class is serialized with its
    name and those of its attributes that pass the filter, and a query
    with the serialization of the class it is sent to. *)
Definition serialized_class (options : SerializeOptions Class string)
    (c : Class) : Value Class :=
  VObject (("__component", VString (className c))
           :: List.filter (λ p, opt_attributeFilter options c p.1)
                attributeValues).

Definition filtering_serialize (e : nat) (q : Value Class)
    (options : SerializeOptions Class string)
    : Value Class * list Class :=
  match q with
  | VObject (("<=", VComponent c) :: method) =>
      (VObject (("<=", serialized_class options c) :: method),
       c :: dependencies c)
  | _ => (q, [])
  end.

Definition filtering_component_serialize (e : nat) (c : Class)
    (options : SerializeOptions Class string)
    : option (Value Class) * list Class :=
  (Some (serialized_class options c), dependencies c).

(** The serialized value holds a value for the attribute of the class: it
    is the serialization of the class, or of a query sent to it, and has a
    property of that name. *)
Definition holds (serialized : Value Class) (c : Class) (attribute : string)
    : Prop :=
  match serialized with
  | VObject (("__component", VString name) :: attributes)
  | VObject (("<=", VObject (("__component", VString name) :: attributes))
             :: _) =>
      name = className c ∧ is_Some (property attribute attributes)
  | _ => False
  end.

Example serializeQuery_filtered :
  _serializeQuery getRemoteComponent getName hasAttribute getAttribute
    operationIsAllowed filtering_serialize filtering_component_serialize
    0 someQuery
  = (VObject [("<=", VObject [("__component", VString "A");
                              ("title", VString "Inception")]);
              ("find=>", VObject [("()", VArray [])])],
     Some [VObject [("__component", VString "A");
                    ("title", VString "Inception")];
           VObject [("__component", VString "B");
                    ("title", VString "Inception")];
           VObject [("__component", VString "C");
                    ("title", VString "Inception")]]).
Proof. vm_compute. reflexivity. Qed.

(** The read-only attribute [id] of [A] is in no part of the payload of a
    query sent to [A]. *)
Lemma attributeFilter_iff_remote_settable_witness :
  let payload :=
    _serializeQuery getRemoteComponent getName hasAttribute getAttribute
      operationIsAllowed filtering_serialize filtering_component_serialize
      0 someQuery in
  ¬ holds payload.1 A "id"
  ∧ ∀ serialized,
      serialized ∈ default [] payload.2 → ¬ holds serialized A "id".
Proof.
  assert (Hclass : ∀ (options : SerializeOptions Class string) c,
            opt_attributeFilter options A "id" = false →
            ¬ holds (serialized_class options c) A "id").
  { intros options c Hfalse [Hname Hsome].
    destruct c; try discriminate Hname. cbn in Hsome.
    rewrite Hfalse in Hsome.
    destruct (opt_attributeFilter options A "title"); cbn in Hsome;
      by apply is_Some_None in Hsome. }
  destruct (attributeFilter_iff_remote_settable getRemoteComponent getName
              hasAttribute getAttribute operationIsAllowed
              filtering_serialize filtering_component_serialize
              server1 deserialize (λ c, c) holds 0 someQuery A "id")
    as (_ & Hquery & Hdependencies).
  - intros options. apply (Hclass options A).
  - intros c options serialized [= <-]. apply Hclass.
  - cbv zeta. split.
    + intros Hholds. destruct (Hquery Hholds) as (remote & _ & _ & Hset).
      discriminate Hset.
    + intros serialized Hin Hholds.
      destruct (Hdependencies serialized Hin Hholds) as (remote & _ & _ & Hset).
      discriminate Hset.
Defined.

(** Three sends in one tick against the server above: one request, whose
    query is the ['||'] of the three queries; the first and third callers
    get their results although the second one is rejected. *)
Lemma three_sends_one_batch_request_witness :
  ∃ events,
    requests events
    = [{| query := VObject [("||", VArray [query1; query2; query3])];
          components := allComponents;
          version := Some 1%Z |}]
    ∧ settled 0 events = Some (Normal (VNumber 1))
    ∧ settled 1 events = Some (Throws (RemoteError "boom"))
    ∧ settled 2 events = Some (Normal (VNumber 3)).
Proof.
  destruct (three_sends_one_batch_request getRemoteComponent getName
              hasAttribute getAttribute operationIsAllowed serialize
              component_serialize server1 deserialize (Some 1%Z)
              query1 query2 query3 rootA rootB rootC 0 idle eq_refl)
    as (events & _ & _ & Hrequests & Hown & _).
  exists events. split; [rewrite Hrequests; vm_compute; reflexivity|].
  apply (Hown 1 {| result := VArray [VNumber 1; errorSentinel "boom"; VNumber 3];
                   responseComponents := VUndefined |}
              1 VUndefined [VNumber 1; errorSentinel "boom"; VNumber 3]);
    reflexivity.
Defined.

(** C2 as stated fails when the shared components of the response
    cannot be deserialized: the three calls of the tick make one request,
    the transport call succeeds with the results [1], [2] and [3], and
    yet [_sendMany] throws before it settles any operation, so that no
    caller receives its result. *)
Lemma three_sends_shared_components_failure_counterexample :
  let unknown := RemoteError "The 'Movie' component is unknown" in
  let server := ComponentServer_receive (Component := Class) 1
                  handle_three_unknown_component in
  let request :=
    {| query := VObject [("||", VArray [query1; query2; query3])];
       components := allComponents;
       version := Some 1%Z |} in
  let tick :=
    p1 ← client_send server (Some 1%Z) query1 rootA;
    p2 ← client_send server (Some 1%Z) query2 rootB;
    p3 ← client_send server (Some 1%Z) query3 rootC;
    client_flush server (Some 1%Z);; mret [p1; p2; p3] in
  (tick idle).2 = Normal [Pending 0; Pending 1; Pending 2]
  ∧ requests (trace (tick idle).1) = [request]
  ∧ (server 0 request).2
    = Normal {| result := VArray [VNumber 1; VNumber 2; VNumber 3];
                responseComponents :=
                  errorSentinel "The 'Movie' component is unknown" |}
  ∧ (client_sendMany server (Some 1%Z) [operation1; operation2; operation3]
       queued3).2 = Throws unknown
  ∧ settled 0 (trace (tick idle).1) = None
  ∧ settled 1 (trace (tick idle).1) = None
  ∧ settled 2 (trace (tick idle).1) = None.
Proof. cbv zeta. split_and!; vm_compute; reflexivity. Qed.

(** The batch of three seen from [_sendMany]: the error sentinel at index
    1 rejects the second operation only. *)
Lemma batch_partial_failure_witness :
  ∃ events,
    trace (client_sendMany server1 (Some 1%Z)
             [operation1; operation2; operation3] queued3).1 = events
    ∧ (client_sendMany server1 (Some 1%Z)
         [operation1; operation2; operation3] queued3).2 = Normal tt
    ∧ settled 0 events = Some (Normal (VNumber 1))
    ∧ settled 1 events = Some (Throws (RemoteError "boom"))
    ∧ settled 2 events = Some (Normal (VNumber 3)).
Proof.
  assert (Hnd : NoDup (promise <$> [operation1; operation2; operation3])).
  { cbn. repeat (apply NoDup_cons; split; [set_solver by lia|]).
    apply NoDup_nil_2. }
  destruct (batch_partial_failure getRemoteComponent getName
              hasAttribute getAttribute operationIsAllowed serialize
              component_serialize server1 deserialize (Some 1%Z)
              operation1 operation2 [operation3] queued3 Hnd)
    as (events & Htrace & _ & _ & Hown).
  exists events. split; [exact Htrace|].
  destruct (Hown 1 {| result := VArray [VNumber 1; errorSentinel "boom";
                                        VNumber 3];
                      responseComponents := VUndefined |}
                 1 VUndefined [VNumber 1; errorSentinel "boom"; VNumber 3]
                 eq_refl eq_refl eq_refl) as [Hdone Hown'].
  split; [exact Hdone|].
  destruct (Hown' 0 operation1 eq_refl) as [e0 H0].
  destruct (Hown' 1 operation2 eq_refl) as [e1 H1].
  destruct (Hown' 2 operation3 eq_refl) as [e2 H2].
  split; [exact H0|]. split; [exact H1|exact H2].
Defined.

(** C3 as stated fails when the shared components of a successful
    response cannot be deserialized: the transport call succeeded, the
    result of the first operation is an error sentinel and that of the
    second a plain [2], and yet [_sendMany] throws as a whole before
    settling any operation: the first is not rejected with its error and
    the second is not resolved with its result. *)
Lemma batch_shared_components_failure_counterexample :
  let unknown := RemoteError "The 'Movie' component is unknown" in
  let server := ComponentServer_receive (Component := Class) 1
                  handle_unknown_component in
  let request :=
    {| query := VObject [("||", VArray [query1; query2])];
       components := allComponents;
       version := Some 1%Z |} in
  let run := client_sendMany server (Some 1%Z) [operation1; operation2]
               queued2 in
  (server 0 request).2
  = Normal {| result := VArray [errorSentinel "boom"; VNumber 2];
              responseComponents :=
                errorSentinel "The 'Movie' component is unknown" |}
  ∧ (deserialize 1 (errorSentinel "boom") (deserializeOptions (Some A))).2
    = Throws (RemoteError "boom")
  ∧ (deserialize 1 (VNumber 2) (deserializeOptions (Some B))).2
    = Normal (VNumber 2)
  ∧ run.2 = Throws unknown
  ∧ trace run.1
    = [Receive request;
       Deserialize (errorSentinel "The 'Movie' component is unknown")
         (deserializeOptions (Some A))]
  ∧ settled 0 (trace run.1) = None
  ∧ settled 1 (trace run.1) = None.
Proof. cbv zeta. split_and!; vm_compute; reflexivity. Qed.

(** The [deserialize] calls of the batch of three: the shared components
    once, against the root component of the first operation, then each
    result against the root component of its own operation. *)
Lemma sendMany_shared_components_first_root_witness :
  deserializations
    (trace (client_sendMany server1 (Some 1%Z)
              [operation1; operation2; operation3] queued3).1)
  = [(VUndefined, Some A);
     (VNumber 1, Some A); (errorSentinel "boom", Some B); (VNumber 3, Some C)].
Proof.
  apply (sendMany_shared_components_first_root getRemoteComponent getName
           hasAttribute getAttribute operationIsAllowed serialize
           component_serialize server1 deserialize (Some 1%Z)
           operation1 operation2 [operation3] queued3 1
           {| result := VArray [VNumber 1; errorSentinel "boom"; VNumber 3];
              responseComponents := VUndefined |}
           [VNumber 1; errorSentinel "boom"; VNumber 3]);
    reflexivity.
Defined.

(** A client of version 2 against the server of version 1: the call
    fails with [VersionMismatch] and the server processed no query. *)
Lemma version_mismatch_fails_every_call_witness :
  ∃ request,
    client_send server1 (Some 2%Z) someQuery rootA plain
    = ({| env := 0; _sendBatcher := None; trace := [Receive request] |},
       Throws (VersionMismatch (Some 2%Z) 1))
    ∧ version request = Some 2%Z.
Proof.
  assert (Hne : (2 ≠ 1)%Z) by discriminate.
  exact (proj1 (version_mismatch_fails_every_call getRemoteComponent getName
                  hasAttribute getAttribute operationIsAllowed serialize
                  component_serialize server1 deserialize (Some 2%Z)
                  1%Z 2%Z handle eq_refl eq_refl Hne)
               someQuery rootA plain eq_refl).
Defined.

(** A server that answers without any result. *)
Definition handle_no_result (e : nat) (request : Request Class)
    : nat * Completion (Response Class) :=
  (S e, Normal {| result := VUndefined; responseComponents := VUndefined |}).

(** A batch of two against that server: the run stops with a [TypeError]
    after the request and the shared components, and settles nothing. *)
Lemma sendMany_result_not_indexable_witness :
  ∃ events,
    client_sendMany handle_no_result None [operation1; operation2] queued2
    = ({| env := 1; _sendBatcher := _sendBatcher queued2; trace := events |},
       Throws (TypeError "Cannot read properties of undefined")).
Proof.
  eexists.
  apply (sendMany_result_not_indexable getRemoteComponent getName
           hasAttribute getAttribute operationIsAllowed serialize
           component_serialize handle_no_result deserialize None
           operation1 operation2 [] queued2 1 1
           {| result := VUndefined; responseComponents := VUndefined |}
           VUndefined); [reflexivity|reflexivity|by left].
Defined.

(** Two sends in a tick: one request, for the batch of the two queries. *)
Lemma sends_then_flush_one_request_witness :
  ∃ events,
    requests events
    = [{| query := VObject [("||", VArray [query1; query2])];
          components := allComponents;
          version := Some 1%Z |}].
Proof.
  destruct (sends_then_flush_one_request getRemoteComponent getName
              hasAttribute getAttribute operationIsAllowed serialize
              component_serialize server1 deserialize (Some 1%Z)
              [(query1, rootA); (query2, rootB)] 0 idle eq_refl)
    as (events & _ & _ & Hrequests & _).
  exists events. rewrite Hrequests. vm_compute. reflexivity.
Defined.

End Chain.

(* ===================================================================== *)
(** ** Serialization: the wire format of component instances *)
(* ===================================================================== *)

Module Serialization.

(** A tree of values: primitives, dates, arrays, plain objects, functions
    with their own properties, component classes with their static
    attributes and component instances with their attributes.  An
    attribute is unset ([None]) or set to a value. *)
#[warnings="-register-all"]
Inductive Value : Type :=
| VUndefined
| VNull
| VBool (b : bool)
| VNumber (n : Z)
| VString (s : string)
| VDate (time : Z)
| VArray (items : list Value)
| VObject (properties : list (string * Value))
| VFunction (source : string) (properties : list (string * Value))
| VClass (componentName : string) (attributes : list (string * option Value))
| VInstance (componentName : string) (isNew : bool)
    (attributes : list (string * option Value)).

Inductive Error : Type :=
| UnknownComponent (componentName : string)
| FunctionDeserializationDisabled
| RemoteError (message : string).

Inductive Result (A : Type) : Type :=
| Ok (a : A)
| Throw (e : Error).
Arguments Ok {A} a.
Arguments Throw {A} e.

#[global] Instance Result_bind : MBind Result := λ A B k r,
  match r with
  | Ok a => k a
  | Throw e => Throw e
  end.
#[global] Instance Result_ret : MRet Result := λ A a, Ok a.
#[global] Instance Result_fmap : FMap Result := λ A B f r,
  match r with
  | Ok a => Ok (f a)
  | Throw e => Throw e
  end.

(** Element-wise traversal, in order; the first failure ends it. *)
Definition traverse {A B} (f : A → Result B) : list A → Result (list B) :=
  fix go l :=
    match l with
    | [] => Ok []
    | x :: rest => y ← f x; ys ← go rest; Ok (y :: ys)
    end.

(** The same, where [f] may leave an element out. *)
Definition traverse_some {A B} (f : A → Result (option B))
    : list A → Result (list B) :=
  fix go l :=
    match l with
    | [] => Ok []
    | x :: rest =>
        y ← f x; ys ← go rest;
        Ok (match y with Some y => y :: ys | None => ys end)
    end.

(** Property lookup in a plain object. *)
Fixpoint property (name : string) (properties : list (string * Value))
    : option Value :=
  match properties with
  | [] => None
  | (key, value) :: rest =>
      if decide (key = name) then Some value else property name rest
  end.

Definition is_function (v : Value) : bool :=
  match v with VFunction _ _ => true | _ => false end.

(** [v === true] and "[v] is a string", for an optional property. *)
Definition is_true (v : option Value) : bool :=
  match v with Some (VBool true) => true | _ => false end.

Definition as_string (v : option Value) : option string :=
  match v with Some (VString s) => Some s | _ => None end.

Record SerializeOptions : Type := {
  knownComponents : list string;
  attributeFilter : string → string → bool;
  serializeFunctions : bool;
  ignoreEmptyComponents : bool
}.

(** [serialize(value, {knownComponents})]: every set attribute passes,
    functions are not serialized, empty components are kept. *)
Definition defaultSerializeOptions (known : list string) : SerializeOptions :=
  {| knownComponents := known;
     attributeFilter := λ _ _, true;
     serializeFunctions := false;
     ignoreEmptyComponents := false |}.

(** Modelled from the spec: [serialize] of the component package, which
    is not among the sources (section 4.2 and the wire forms of section 3;
    the diff mode of [target] is left out).
    - primitives, [null] and dates pass through, arrays element-wise and
      plain objects property by property;
    - [undefined] becomes [{__undefined: true}];
    - a class becomes [{__Component: name}] with its set static attributes
      that pass the filter, an instance [{__component: name}], with
      [__new: true] when it is new, and its set attributes that pass the
      filter ([undefined] instead when [ignoreEmptyComponents] is given
      and none passes); the class must be a known component, otherwise
      [UnknownComponent];
    - a function keeps its non-function properties only, or with
      [serializeFunctions] its source under [__function] and its
      properties. *)
Fixpoint serialize (options : SerializeOptions) (value : Value) : Result Value :=
  let attributes (componentName : string) :=
    traverse_some
      (λ attribute : string * option Value,
         match attribute.2 with
         | Some current =>
             if attributeFilter options componentName attribute.1
             then serialized ← serialize options current;
                  Ok (Some (attribute.1, serialized))
             else Ok None
         | None => Ok None
         end) in
  let properties :=
    traverse
      (λ p : string * Value,
         serialized ← serialize options p.2; Ok (p.1, serialized)) in
  match value with
  | VUndefined => Ok (VObject [("__undefined", VBool true)])
  | VNull | VBool _ | VNumber _ | VString _ | VDate _ => Ok value
  | VArray items => VArray <$> traverse (serialize options) items
  | VObject props => VObject <$> properties props
  | VFunction source props =>
      if serializeFunctions options
      then serializedProps ← properties props;
           Ok (VObject (("__function", VString source) :: serializedProps))
      else VObject <$>
             traverse_some
               (λ p : string * Value,
                  if is_function p.2 then Ok None
                  else serialized ← serialize options p.2;
                       Ok (Some (p.1, serialized)))
               props
  | VClass componentName attrs =>
      if decide (componentName ∈ knownComponents options)
      then serializedAttributes ← attributes componentName attrs;
           Ok (VObject (("__Component", VString componentName)
                        :: serializedAttributes))
      else Throw (UnknownComponent componentName)
  | VInstance componentName isNew attrs =>
      if decide (componentName ∈ knownComponents options)
      then serializedAttributes ← attributes componentName attrs;
           if ignoreEmptyComponents options
              && bool_decide (serializedAttributes = [])
           then Ok VUndefined
           else Ok (VObject
                      (("__component", VString componentName)
                       :: (if isNew then [("__new", VBool true)] else [])
                       ++ serializedAttributes))
      else Throw (UnknownComponent componentName)
  end.

(** Modelled from the spec: the options of [deserialize] (section 4.3).
    [{rootComponent}] gives the registry: the class of a name, with its
    static attributes as they are.  An instance is deserialized onto a
    fresh instance of its class, whose attributes are as the class
    initializes them, or onto the existing instance its attributes
    identify, if there is one. *)
Record DeserializeOptions : Type := {
  registry : string → option (list (string * option Value));
  fresh : string → list (string * option Value);
  existing :
    string → list (string * Value) → option (list (string * option Value));
  deserializeFunctions : bool;
  errorHandler : Error → Result Value
}.

(** The value an attribute is set to, if it is set. *)
Fixpoint attribute (name : string) (attributes : list (string * option Value))
    : option Value :=
  match attributes with
  | [] => None
  | (key, current) :: rest =>
      if decide (key = name) then current else attribute name rest
  end.

(** Modelled from the spec: assignment of an attribute, which leaves the
    others untouched. *)
Fixpoint assign (name : string) (value : Value)
    (attributes : list (string * option Value))
    : list (string * option Value) :=
  match attributes with
  | [] => [(name, Some value)]
  | (key, current) :: rest =>
      if decide (key = name) then (key, Some value) :: rest
      else (key, current) :: assign name value rest
  end.

Definition assign_all (attributes : list (string * option Value))
    (given : list (string * Value)) : list (string * option Value) :=
  foldl (λ attributes p, assign p.1 p.2 attributes) attributes given.

(** Modelled from the spec: [deserialize] of the component package, which
    is not among the sources (section 4.3).  Sentinels are decoded first;
    [{__Component: name, ...}] resolves the class in the registry of the
    root component ([UnknownComponent] when absent) and assigns the static
    attributes given onto it; [{__component: name, __new, ...}] resolves
    the class the same way and, with [__new], instantiates a fresh
    instance, otherwise locates the existing instance or creates a shell
    (an instance with no attribute set), and assigns only the attributes
    given, leaving all others untouched; [{__function: source, ...}]
    yields a function when [deserializeFunctions] is given and fails
    otherwise; plain objects and arrays are deserialized element-wise.
    The registry and the existing instances are read as they are before
    the call. *)
Fixpoint deserialize (options : DeserializeOptions) (value : Value)
    : Result Value :=
  let properties :=
    traverse
      (λ p : string * Value,
         deserialized ← deserialize options p.2; Ok (p.1, deserialized)) in
  let attributes (skipped : list string) :=
    traverse_some
      (λ p : string * Value,
         if decide (p.1 ∈ skipped) then Ok None
         else deserialized ← deserialize options p.2;
              Ok (Some (p.1, deserialized))) in
  match value with
  | VArray items => VArray <$> traverse (deserialize options) items
  | VObject props =>
      if is_true (property "__undefined" props) then Ok VUndefined
      else
      match as_string (property "__error" props) with
      | Some message => errorHandler options (RemoteError message)
      | None =>
      match as_string (property "__Component" props) with
      | Some componentName =>
          match registry options componentName with
          | Some static =>
              given ← attributes ["__Component"] props;
              Ok (VClass componentName (assign_all static given))
          | None => Throw (UnknownComponent componentName)
          end
      | None =>
      match as_string (property "__component" props) with
      | Some componentName =>
          match registry options componentName with
          | Some _ =>
              given ← attributes ["__component"; "__new"] props;
              let isNew := is_true (property "__new" props) in
              let instance :=
                if isNew then fresh options componentName
                else default [] (existing options componentName given) in
              Ok (VInstance componentName isNew (assign_all instance given))
          | None => Throw (UnknownComponent componentName)
          end
      | None =>
      match as_string (property "__function" props) with
      | Some source =>
          if deserializeFunctions options
          then VFunction source
               <$> traverse_some
                     (λ p : string * Value,
                        if decide (p.1 = "__function") then Ok None
                        else deserialized ← deserialize options p.2;
                             Ok (Some (p.1, deserialized)))
                     props
          else Throw FunctionDeserializationDisabled
      | None => VObject <$> properties props
      end end end end
  | _ => Ok value
  end.

(** The keys with a meaning on the wire. *)
Definition markers : list string :=
  ["__undefined"; "__error"; "__Component"; "__component"; "__function";
   "__new"].

(** The values without parts. *)
Definition primitive (value : Value) : bool :=
  match value with
  | VUndefined | VNull | VBool _ | VNumber _ | VString _ | VDate _ => true
  | _ => false
  end.

(** Modelled from the spec: [y] is equal to [x] in all observable (set)
    attributes.  Primitives are equal to themselves; arrays, plain objects
    and functions are equal part by part; a class or an instance [y] is
    equal to [x] when it has the name (and newness) of [x] and every
    attribute that is set in [x] is set in [y], to a value equal to that
    of [x] in the same sense.  Of the attributes that are unset in [x]
    nothing is asked. *)
#[warnings="-register-all"]
Inductive equal_in_set_attributes : Value → Value → Prop :=
| equal_primitive v :
    primitive v = true → equal_in_set_attributes v v
| equal_array xs ys :
    Forall2 equal_in_set_attributes xs ys →
    equal_in_set_attributes (VArray xs) (VArray ys)
| equal_object xs ys :
    Forall2 (λ p q, p.1 = q.1 ∧ equal_in_set_attributes p.2 q.2) xs ys →
    equal_in_set_attributes (VObject xs) (VObject ys)
| equal_function source xs ys :
    Forall2 (λ p q, p.1 = q.1 ∧ equal_in_set_attributes p.2 q.2) xs ys →
    equal_in_set_attributes (VFunction source xs) (VFunction source ys)
| equal_class componentName xs ys :
    (∀ name v, (name, Some v) ∈ xs →
       ∃ v', attribute name ys = Some v' ∧ equal_in_set_attributes v v') →
    equal_in_set_attributes (VClass componentName xs) (VClass componentName ys)
| equal_instance componentName isNew xs ys :
    (∀ name v, (name, Some v) ∈ xs →
       ∃ v', attribute name ys = Some v' ∧ equal_in_set_attributes v v') →
    equal_in_set_attributes (VInstance componentName isNew xs)
      (VInstance componentName isNew ys).

(** The values that go over the wire unharmed with the default options:
    no function, no plain object using a key that has a meaning on the
    wire, and only classes and instances of known components whose
    attributes have distinct names without a meaning on the wire. *)
Fixpoint transportable (known : list string) (value : Value) : bool :=
  let attributes :=
    fix go (attrs : list (string * option Value)) :=
      match attrs with
      | [] => true
      | (name, current) :: rest =>
          bool_decide (name ∉ markers)
          && bool_decide (name ∉ rest.*1)
          && match current with
             | Some v => transportable known v
             | None => true
             end
          && go rest
      end in
  let properties :=
    fix go (props : list (string * Value)) :=
      match props with
      | [] => true
      | (name, v) :: rest =>
          bool_decide (name ∉ markers) && transportable known v && go rest
      end in
  match value with
  | VArray items => forallb (transportable known) items
  | VObject props => properties props
  | VFunction _ _ => false
  | VClass componentName attrs =>
      bool_decide (componentName ∈ known) && attributes attrs
  | VInstance componentName _ attrs =>
      bool_decide (componentName ∈ known) && attributes attrs
  | _ => true
  end.

(** The traversals of [serialize], [deserialize] and [transportable], by
    name. *)
Definition serialize_attributes (options : SerializeOptions)
    (componentName : string) :=
  traverse_some
    (λ attribute : string * option Value,
       match attribute.2 with
       | Some current =>
           if attributeFilter options componentName attribute.1
           then serialized ← serialize options current;
                Ok (Some (attribute.1, serialized))
           else Ok None
       | None => Ok None
       end).

Definition serialize_properties (options : SerializeOptions) :=
  traverse
    (λ p : string * Value,
       serialized ← serialize options p.2; Ok (p.1, serialized)).

Definition deserialize_properties (options : DeserializeOptions) :=
  traverse
    (λ p : string * Value,
       deserialized ← deserialize options p.2; Ok (p.1, deserialized)).

Definition deserialize_attributes (options : DeserializeOptions)
    (skipped : list string) :=
  traverse_some
    (λ p : string * Value,
       if decide (p.1 ∈ skipped) then Ok None
       else deserialized ← deserialize options p.2;
            Ok (Some (p.1, deserialized))).

Definition transportable_attributes (known : list string) :=
  fix go (attrs : list (string * option Value)) :=
    match attrs with
    | [] => true
    | (name, current) :: rest =>
        bool_decide (name ∉ markers)
        && bool_decide (name ∉ rest.*1)
        && match current with
           | Some v => transportable known v
           | None => true
           end
        && go rest
    end.

Definition transportable_properties (known : list string) :=
  fix go (props : list (string * Value)) :=
    match props with
    | [] => true
    | (name, v) :: rest =>
        bool_decide (name ∉ markers) && transportable known v && go rest
    end.

(** Induction on the nesting of values. *)
Section Value_nested_ind.
Variable P : Value → Prop.
Hypothesis Hundefined : P VUndefined.
Hypothesis Hnull : P VNull.
Hypothesis Hbool : ∀ b, P (VBool b).
Hypothesis Hnumber : ∀ n, P (VNumber n).
Hypothesis Hstring : ∀ s, P (VString s).
Hypothesis Hdate : ∀ t, P (VDate t).
Hypothesis Harray : ∀ items, Forall P items → P (VArray items).
Hypothesis Hobject : ∀ props, Forall (λ p, P p.2) props → P (VObject props).
Hypothesis Hfunction :
  ∀ source props, Forall (λ p, P p.2) props → P (VFunction source props).
Hypothesis Hclass :
  ∀ name attrs,
    Forall (λ a, from_option P True a.2) attrs → P (VClass name attrs).
Hypothesis Hinstance :
  ∀ name isNew attrs,
    Forall (λ a, from_option P True a.2) attrs → P (VInstance name isNew attrs).

Fixpoint Value_nested_ind (v : Value) : P v :=
  let items :=
    fix go (l : list Value) : Forall P l :=
      match l with
      | [] => Forall_nil_2 _
      | x :: rest => Forall_cons_2 _ _ _ (Value_nested_ind x) (go rest)
      end in
  let properties :=
    fix go (l : list (string * Value)) : Forall (λ p, P p.2) l :=
      match l with
      | [] => Forall_nil_2 _
      | p :: rest =>
          Forall_cons_2 (λ p, P p.2) _ _ (Value_nested_ind p.2) (go rest)
      end in
  let attributes :=
    fix go (l : list (string * option Value))
        : Forall (λ a, from_option P True a.2) l :=
      match l with
      | [] => Forall_nil_2 _
      | a :: rest =>
          Forall_cons_2 (λ a, from_option P True a.2) _ _
            (match a.2 as o return from_option P True o with
             | Some x => Value_nested_ind x
             | None => I
             end)
            (go rest)
      end in
  match v with
  | VUndefined => Hundefined
  | VNull => Hnull
  | VBool b => Hbool b
  | VNumber n => Hnumber n
  | VString s => Hstring s
  | VDate t => Hdate t
  | VArray l => Harray l (items l)
  | VObject props => Hobject props (properties props)
  | VFunction source props => Hfunction source props (properties props)
  | VClass name attrs => Hclass name attrs (attributes attrs)
  | VInstance name isNew attrs => Hinstance name isNew attrs (attributes attrs)
  end.

End Value_nested_ind.

(** *** Unfolding equations *)

Lemma traverse_cons {A B} (f : A → Result B) x rest :
  traverse f (x :: rest) = y ← f x; ys ← traverse f rest; Ok (y :: ys).
Proof. reflexivity. Qed.

Lemma traverse_some_cons {A B} (f : A → Result (option B)) x rest :
  traverse_some f (x :: rest)
  = y ← f x; ys ← traverse_some f rest;
    Ok (match y with Some y => y :: ys | None => ys end).
Proof. reflexivity. Qed.

Lemma property_cons name key value rest :
  property name ((key, value) :: rest)
  = if decide (key = name) then Some value else property name rest.
Proof. reflexivity. Qed.

Lemma serialize_array options items :
  serialize options (VArray items)
  = VArray <$> traverse (serialize options) items.
Proof. reflexivity. Qed.

Lemma serialize_object options props :
  serialize options (VObject props)
  = VObject <$> serialize_properties options props.
Proof. reflexivity. Qed.

Lemma serialize_class options componentName attrs :
  serialize options (VClass componentName attrs)
  = if decide (componentName ∈ knownComponents options)
    then serializedAttributes ←
           serialize_attributes options componentName attrs;
         Ok (VObject (("__Component", VString componentName)
                      :: serializedAttributes))
    else Throw (UnknownComponent componentName).
Proof. reflexivity. Qed.

Lemma serialize_instance options componentName isNew attrs :
  serialize options (VInstance componentName isNew attrs)
  = if decide (componentName ∈ knownComponents options)
    then serializedAttributes ←
           serialize_attributes options componentName attrs;
         if ignoreEmptyComponents options
            && bool_decide (serializedAttributes = [])
         then Ok VUndefined
         else Ok (VObject
                    (("__component", VString componentName)
                     :: (if isNew then [("__new", VBool true)] else [])
                     ++ serializedAttributes))
    else Throw (UnknownComponent componentName).
Proof. reflexivity. Qed.

Lemma deserialize_array options items :
  deserialize options (VArray items)
  = VArray <$> traverse (deserialize options) items.
Proof. reflexivity. Qed.

Lemma deserialize_object options props :
  deserialize options (VObject props)
  = if is_true (property "__undefined" props) then Ok VUndefined
    else
    match as_string (property "__error" props) with
    | Some message => errorHandler options (RemoteError message)
    | None =>
    match as_string (property "__Component" props) with
    | Some componentName =>
        match registry options componentName with
        | Some static =>
            given ← deserialize_attributes options ["__Component"] props;
            Ok (VClass componentName (assign_all static given))
        | None => Throw (UnknownComponent componentName)
        end
    | None =>
    match as_string (property "__component" props) with
    | Some componentName =>
        match registry options componentName with
        | Some _ =>
            given ← deserialize_attributes options ["__component"; "__new"]
                      props;
            let isNew := is_true (property "__new" props) in
            let instance :=
              if isNew then fresh options componentName
              else default [] (existing options componentName given) in
            Ok (VInstance componentName isNew (assign_all instance given))
        | None => Throw (UnknownComponent componentName)
        end
    | None =>
    match as_string (property "__function" props) with
    | Some source =>
        if deserializeFunctions options
        then VFunction source
             <$> traverse_some
                   (λ p : string * Value,
                      if decide (p.1 = "__function") then Ok None
                      else deserialized ← deserialize options p.2;
                           Ok (Some (p.1, deserialized)))
                   props
        else Throw FunctionDeserializationDisabled
    | None => VObject <$> deserialize_properties options props
    end end end end.
Proof. reflexivity. Qed.

(** *** Assignment *)

Lemma attribute_assign name value attributes :
  attribute name (assign name value attributes) = Some value.
Proof.
  induction attributes as [|[key current] rest IH]; simpl.
  - by rewrite decide_True.
  - case_decide as Hkey; simpl.
    + by rewrite decide_True.
    + by rewrite decide_False.
Qed.

Lemma attribute_assign_ne name key value attributes :
  key ≠ name →
  attribute name (assign key value attributes) = attribute name attributes.
Proof.
  intros Hne. induction attributes as [|[key' current] rest IH]; simpl.
  - by rewrite decide_False.
  - case_decide as Hkey; simpl.
    + subst key'. by rewrite !decide_False.
    + case_decide; [done|apply IH].
Qed.

Lemma attribute_assign_all name given :
  ∀ attributes,
    name ∉ given.*1 →
    attribute name (assign_all attributes given) = attribute name attributes.
Proof.
  induction given as [|[key value] given IH]; intros attributes Hname; [done|].
  cbn [assign_all foldl fst snd] in *. apply not_elem_of_cons in Hname as [Hne Hname].
  fold (assign_all (assign key value attributes) given).
  rewrite IH by done. by apply attribute_assign_ne.
Qed.

(** *** The round trip *)

Section roundtrip.
Variable known : list string.
Variable options : DeserializeOptions.
Hypothesis known_in_registry :
  ∀ name, name ∈ known → is_Some (registry options name).

Definition round_trips (v : Value) : Prop :=
  transportable known v = true →
  ∃ s y, serialize (defaultSerializeOptions known) v = Ok s
         ∧ deserialize options s = Ok y
         ∧ equal_in_set_attributes v y.

Lemma items_round_trip items :
  Forall round_trips items →
  forallb (transportable known) items = true →
  ∃ ss ys, traverse (serialize (defaultSerializeOptions known)) items = Ok ss
           ∧ traverse (deserialize options) ss = Ok ys
           ∧ Forall2 equal_in_set_attributes items ys.
Proof.
  induction 1 as [|x rest Hx _ IH]; intros Ht.
  - exists [], []. by repeat split.
  - cbn [forallb] in Ht. apply andb_true_iff in Ht as [Htx Htrest].
    destruct (Hx Htx) as (s & y & Hs & Hd & Hy).
    destruct (IH Htrest) as (ss & ys & Hss & Hds & Hys).
    exists (s :: ss), (y :: ys). rewrite !traverse_cons, Hs.
    cbn [mbind Result_bind]. rewrite Hss. cbn [mbind Result_bind].
    rewrite Hd. cbn [mbind Result_bind]. rewrite Hds.
    split; [done|]. split; [done|]. by constructor.
Qed.

Lemma properties_round_trip props :
  Forall (λ p, round_trips p.2) props →
  transportable_properties known props = true →
  ∃ props' ys,
    serialize_properties (defaultSerializeOptions known) props = Ok props'
    ∧ deserialize_properties options props' = Ok ys
    ∧ Forall2 (λ p q, p.1 = q.1 ∧ equal_in_set_attributes p.2 q.2) props ys
    ∧ ∀ key, key ∈ markers → property key props' = None.
Proof.
  unfold serialize_properties, deserialize_properties.
  induction 1 as [|[name v] rest Hx _ IH]; intros Ht.
  - exists [], []. by repeat split.
  - cbn [transportable_properties] in Ht.
    apply andb_true_iff in Ht as [[Hname Htx]%andb_true_iff Htrest].
    apply bool_decide_eq_true in Hname. simpl in Hx.
    destruct (Hx Htx) as (s & y & Hs & Hd & Hy).
    destruct (IH Htrest) as (props' & ys & Hss & Hds & Hys & Hkeys).
    exists ((name, s) :: props'), ((name, y) :: ys).
    rewrite !traverse_cons. cbn [fst snd].
    rewrite Hs. cbn [mbind Result_bind]. rewrite Hss. cbn [mbind Result_bind].
    split; [done|]. split; [|split].
    + rewrite ?traverse_cons. cbn [fst snd]. rewrite Hd.
      cbn [mbind Result_bind]. by rewrite Hds.
    + by constructor.
    + intros key Hkey. rewrite property_cons.
      rewrite decide_False by (by intros ->). by apply Hkeys.
Qed.

Lemma attributes_round_trip componentName attrs :
  Forall (λ a, from_option round_trips True a.2) attrs →
  transportable_attributes known attrs = true →
  ∃ attrs' given,
    serialize_attributes (defaultSerializeOptions known) componentName attrs
    = Ok attrs'
    ∧ (∀ key, key ∈ markers → property key attrs' = None)
    ∧ (∀ skipped, skipped ⊆ markers →
         deserialize_attributes options skipped attrs' = Ok given)
    ∧ (∀ key, key ∈ given.*1 → key ∈ attrs.*1)
    ∧ ∀ instance name v,
        (name, Some v) ∈ attrs →
        ∃ v', attribute name (assign_all instance given) = Some v'
              ∧ equal_in_set_attributes v v'.
Proof.
  unfold serialize_attributes, deserialize_attributes.
  induction 1 as [|[name [v|]] rest Hx _ IH]; intros Ht.
  - exists [], []. split; [done|]. split; [done|]. split; [done|].
    split; [done|]. intros instance name v Hin. by apply elem_of_nil in Hin.
  - cbn [transportable_attributes] in Ht.
    apply andb_true_iff in Ht as [[[Hname Hfirst]%andb_true_iff
                                     Htx]%andb_true_iff Htrest].
    apply bool_decide_eq_true in Hname. apply bool_decide_eq_true in Hfirst.
    simpl in Hx.
    destruct (Hx Htx) as (s & y & Hs & Hd & Hy).
    destruct (IH Htrest) as (attrs' & given & Hss & Hkeys & Hds & Hsub & Hset).
    exists ((name, s) :: attrs'), ((name, y) :: given).
    rewrite traverse_some_cons.
    cbn [fst snd attributeFilter defaultSerializeOptions] in Hss |- *.
    rewrite Hs. cbn [mbind Result_bind]. rewrite Hss. cbn [mbind Result_bind].
    split; [done|]. split; [|split; [|split]].
    + intros key Hkey. rewrite property_cons.
      rewrite decide_False by (by intros ->). by apply Hkeys.
    + intros skipped Hskipped. rewrite ?traverse_some_cons. cbn [fst snd].
      rewrite decide_False by (intros Hin; by apply Hname, Hskipped).
      rewrite Hd. cbn [mbind Result_bind]. by rewrite Hds.
    + intros key. cbn [fmap list_fmap fst]. rewrite !elem_of_cons.
      intros [->|Hin]; [by left|right; by apply Hsub].
    + intros instance attributeName w. rewrite elem_of_cons.
      intros [[= -> ->]|Hin].
      * exists y. split; [|done]. cbn [assign_all foldl fst snd].
        fold (assign_all (assign name y instance) given).
        rewrite attribute_assign_all by (intros Hin; by apply Hfirst, Hsub).
        apply attribute_assign.
      * cbn [assign_all foldl fst snd].
        fold (assign_all (assign name y instance) given). by apply Hset.
  - cbn [transportable_attributes] in Ht.
    apply andb_true_iff in Ht as [_ Htrest].
    destruct (IH Htrest) as (attrs' & given & Hss & Hkeys & Hds & Hsub & Hset).
    exists attrs', given. rewrite traverse_some_cons. cbn [fst snd].
    cbn [mbind Result_bind]. rewrite Hss. cbn [mbind Result_bind].
    split; [done|]. split; [done|]. split; [done|]. split.
    + intros key Hin. cbn [fmap list_fmap fst]. right. by apply Hsub.
    + intros instance attributeName w. rewrite elem_of_cons.
      intros [Heq|Hin]; [discriminate Heq|]. by apply Hset.
Qed.

Ltac is_marker :=
  unfold markers;
  repeat first [apply list_elem_of_here | apply list_elem_of_further].

Lemma marker_key (key : string) (rest : list (string * Value)) marker value :
  key ∈ markers → marker ≠ key →
  (∀ key, key ∈ markers → property key rest = None) →
  property key ((marker, value) :: rest) = None.
Proof.
  intros Hkey Hne Hrest. rewrite property_cons, decide_False by done.
  by apply Hrest.
Qed.

Lemma instance_round_trips name isNew attrs :
  Forall (λ a, from_option round_trips True a.2) attrs →
  name ∈ known →
  transportable_attributes known attrs = true →
  ∃ s attrs',
    serialize (defaultSerializeOptions known) (VInstance name isNew attrs)
    = Ok s
    ∧ deserialize options s = Ok (VInstance name isNew attrs')
    ∧ ∀ attributeName v,
        (attributeName, Some v) ∈ attrs →
        ∃ v', attribute attributeName attrs' = Some v'
              ∧ equal_in_set_attributes v v'.
Proof.
  intros IH Hname Ht.
  destruct (attributes_round_trip name attrs IH Ht)
    as (attrs' & given & Hss & Hkeys & Hds & _ & Hset).
  destruct (known_in_registry name Hname) as [static Hstatic].
  eexists. rewrite serialize_instance.
  cbn [knownComponents ignoreEmptyComponents defaultSerializeOptions].
  rewrite decide_True by done. rewrite Hss. cbn [mbind Result_bind andb].
  exists (assign_all
            (if isNew then fresh options name
             else default [] (existing options name given)) given).
  split; [done|]. rewrite deserialize_object.
  assert (Hflag : ∀ key, key ∈ markers → key ≠ "__new" →
            property key
              ((if isNew then [("__new", VBool true)] else []) ++ attrs')
            = None).
  { intros key Hkey Hne. destruct isNew; cbn [app]; [|by apply Hkeys].
    rewrite property_cons, decide_False by done. by apply Hkeys. }
  rewrite !(property_cons _ "__component").
  rewrite (decide_False (P := "__component" = "__undefined")) by done.
  rewrite (decide_False (P := "__component" = "__error")) by done.
  rewrite (decide_False (P := "__component" = "__Component")) by done.
  rewrite (decide_False (P := "__component" = "__new")) by done.
  rewrite (decide_True (P := "__component" = "__component")) by done.
  rewrite (Hflag "__undefined") by (done || is_marker).
  rewrite (Hflag "__error") by (done || is_marker).
  rewrite (Hflag "__Component") by (done || is_marker).
  cbn [is_true as_string]. rewrite Hstatic.
  assert (Hskipped : ["__component"; "__new"] ⊆ markers).
  { intros key [->|[->|Hin]%elem_of_cons]%elem_of_cons; [is_marker..|].
    by apply elem_of_nil in Hin. }
  unfold deserialize_attributes at 1. rewrite traverse_some_cons.
  cbn [fst snd]. rewrite decide_True by is_marker.
  cbn [mbind Result_bind].
  fold (deserialize_attributes options ["__component"; "__new"]).
  destruct isNew; cbn [app].
  - rewrite property_cons, decide_True by done. cbn [is_true].
    unfold deserialize_attributes at 1. rewrite traverse_some_cons.
    cbn [fst snd]. rewrite decide_True by is_marker.
    cbn [mbind Result_bind].
    fold (deserialize_attributes options ["__component"; "__new"]).
    rewrite (Hds _ Hskipped). cbn [mbind Result_bind].
    split; [reflexivity|]. apply Hset.
  - rewrite Hkeys by is_marker. cbn [is_true].
    rewrite (Hds _ Hskipped). cbn [mbind Result_bind].
    split; [reflexivity|]. apply Hset.
Qed.

Lemma value_round_trips v : round_trips v.
Proof.
  induction v as [| | | | | |items IH|props IH|source props IH
                  |name attrs IH|name isNew attrs IH]
    using Value_nested_ind; intros Ht;
    try (by eexists _, _; split; [reflexivity|];
            split; [reflexivity|]; apply equal_primitive).
  - destruct (items_round_trip items IH Ht) as (ss & ys & Hss & Hds & Hys).
    exists (VArray ss), (VArray ys). rewrite serialize_array, Hss.
    split; [done|]. rewrite deserialize_array, Hds. split; [done|].
    by constructor.
  - destruct (properties_round_trip props IH Ht)
      as (props' & ys & Hss & Hds & Hys & Hkeys).
    exists (VObject props'), (VObject ys). rewrite serialize_object, Hss.
    split; [done|]. rewrite deserialize_object.
    rewrite !Hkeys by is_marker.
    cbn [is_true as_string]. rewrite Hds. split; [done|]. by constructor.
  - done.
  - cbn [transportable] in Ht.
    apply andb_true_iff in Ht as [Hname%bool_decide_eq_true Ht].
    destruct (attributes_round_trip name attrs IH Ht)
      as (attrs' & given & Hss & Hkeys & Hds & _ & Hset).
    destruct (known_in_registry name Hname) as [static Hstatic].
    eexists _, _. rewrite serialize_class.
    cbn [knownComponents defaultSerializeOptions].
    rewrite decide_True by done. rewrite Hss. cbn [mbind Result_bind].
    split; [done|]. rewrite deserialize_object.
    rewrite (marker_key "__undefined" attrs' "__Component")
      by (done || is_marker).
    rewrite (marker_key "__error" attrs' "__Component")
      by (done || is_marker).
    rewrite property_cons, decide_True by done.
    cbn [is_true as_string]. rewrite Hstatic.
    unfold deserialize_attributes at 1. rewrite traverse_some_cons.
    cbn [fst snd]. rewrite decide_True by is_marker.
    cbn [mbind Result_bind].
    fold (deserialize_attributes options ["__Component"]).
    rewrite Hds.
    2: { intros key ->%list_elem_of_singleton. is_marker. }
    cbn [mbind Result_bind]. split; [reflexivity|].
    apply equal_class, Hset.
  - cbn [transportable] in Ht.
    apply andb_true_iff in Ht as [Hname%bool_decide_eq_true Ht].
    destruct (instance_round_trips name isNew attrs IH Hname Ht)
      as (s & attrs' & Hs & Hd & Hset).
    exists s, (VInstance name isNew attrs'). split; [done|]. split; [done|].
    by apply equal_instance.
Qed.

End roundtrip.

(** C5, as the specification's serializer and deserializer have it.  For
    every component instance [x] of a class [X] among the known
    components whose set attributes are transportable (no function, no
    plain object with a key that has a meaning on the wire, only classes
    and instances of known components, with attributes of distinct names,
    none named like a marker),
    [deserialize(serialize(x, {knownComponents}), {rootComponent})], the
    known components being classes of the root component's registry,
    succeeds and reconstructs an instance of [X] with the newness of [x]
    that is equal to [x] in all set attributes: every attribute that is
    set in [x] is set in it, to a value equal to that of [x] in the same
    sense.  Of the attributes that are unset in [x] nothing is claimed. *)
Theorem instance_round_trip
    (known : list string) (options : DeserializeOptions) (X : string)
    (isNew : bool) (attrs : list (string * option Value)) :
  X ∈ known →
  (∀ name, name ∈ known → is_Some (registry options name)) →
  transportable_attributes known attrs = true →
  ∃ serialized attrs',
    serialize (defaultSerializeOptions known) (VInstance X isNew attrs)
    = Ok serialized
    ∧ deserialize options serialized = Ok (VInstance X isNew attrs')
    ∧ ∀ name v,
        (name, Some v) ∈ attrs →
        ∃ v', attribute name attrs' = Some v'
              ∧ equal_in_set_attributes v v'.
Proof.
  intros HX Hregistry Hattrs.
  apply (instance_round_trips known options Hregistry); [|done..].
  apply Forall_forall. intros [name [v|]] _; [|done].
  apply (value_round_trips known options Hregistry).
Qed.

(** The deserializing side of the examples: the registry holds the class
    [Movie]; a fresh movie has an empty title and an undefined director;
    no instance exists yet. *)
Definition movies : DeserializeOptions :=
  {| registry := λ name, if decide (name = "Movie") then Some [] else None;
     fresh := λ _, [("title", Some (VString ""));
                    ("director", Some VUndefined)];
     existing := λ _ _, None;
     deserializeFunctions := false;
     errorHandler := λ error, Throw error |}.

(** C5 as stated fails for an instance with a function-valued attribute:
    the function is serialized to [{}] and comes back as a plain object;
    and for an instance that refers to an instance of a class that is not
    a known component: its serialization fails. *)
Lemma instance_round_trip_counterexample :
  let movie :=
    VInstance "Movie" true
      [("title", Some (VString "Inception"));
       ("onChange", Some (VFunction "function () {}" []))] in
  let reconstructed :=
    VInstance "Movie" true
      [("title", Some (VString "Inception"));
       ("director", Some VUndefined);
       ("onChange", Some (VObject []))] in
  let directed :=
    VInstance "Movie" false
      [("director",
        Some (VInstance "Director" true
                [("name", Some (VString "Christopher Nolan"))]))] in
  serialize (defaultSerializeOptions ["Movie"]) movie
  = Ok (VObject [("__component", VString "Movie"); ("__new", VBool true);
                 ("title", VString "Inception"); ("onChange", VObject [])])
  ∧ deserialize movies
      (VObject [("__component", VString "Movie"); ("__new", VBool true);
                ("title", VString "Inception"); ("onChange", VObject [])])
    = Ok reconstructed
  ∧ ¬ equal_in_set_attributes movie reconstructed
  ∧ serialize (defaultSerializeOptions ["Movie"]) directed
    = Throw (UnknownComponent "Director").
Proof.
  cbv zeta. split; [vm_compute; reflexivity|].
  split; [vm_compute; reflexivity|]. split; [|vm_compute; reflexivity].
  intros Hequal. inversion Hequal as [| | | | |? ? ? ? Hset].
  destruct (Hset "onChange" (VFunction "function () {}" []))
    as (v' & Hv' & Hfunction).
  { apply list_elem_of_further, list_elem_of_here. }
  injection Hv' as <-. inversion Hfunction.
Qed.

End Serialization.

(** A new movie with a title, an unset director and a list of tags comes
    back with its title and its tags; its director, unset before, is
    the undefined director of a fresh movie. *)
Lemma instance_round_trip_witness :
  let movie :=
    Serialization.VInstance "Movie" true
      [("title", Some (Serialization.VString "Inception"));
       ("director", None);
       ("tags", Some (Serialization.VArray
                        [Serialization.VString "heist";
                         Serialization.VUndefined]))] in
  (∃ serialized attrs',
     Serialization.serialize (Serialization.defaultSerializeOptions ["Movie"])
       movie
     = Serialization.Ok serialized
     ∧ Serialization.deserialize Serialization.movies serialized
       = Serialization.Ok (Serialization.VInstance "Movie" true attrs')
     ∧ ∀ name v,
         (name, Some v)
         ∈ [("title", Some (Serialization.VString "Inception"));
            ("director", None);
            ("tags", Some (Serialization.VArray
                             [Serialization.VString "heist";
                              Serialization.VUndefined]))] →
         ∃ v', Serialization.attribute name attrs' = Some v'
               ∧ Serialization.equal_in_set_attributes v v')
  ∧ (serialized ← Serialization.serialize
                    (Serialization.defaultSerializeOptions ["Movie"]) movie;
     Serialization.deserialize Serialization.movies serialized)
    = Serialization.Ok
        (Serialization.VInstance "Movie" true
           [("title", Some (Serialization.VString "Inception"));
            ("director", Some Serialization.VUndefined);
            ("tags", Some (Serialization.VArray
                             [Serialization.VString "heist";
                              Serialization.VUndefined]))]).
Proof.
  cbv zeta. split; [|vm_compute; reflexivity].
  apply (Serialization.instance_round_trip ["Movie"] Serialization.movies
           "Movie" true).
  - apply list_elem_of_here.
  - intros name ->%list_elem_of_singleton. by eexists.
  - vm_compute; reflexivity.
Defined.
